(** * Semantic-similarity cluster analysis: ontology closure and per-cluster counts

    A shallow embedding of [clustering/hpo_ensmallen.py] (class [HpoEnsmallen])
    and of [semanticsimilarity/hpo_cluster_analyzer.py]
    (class [HpoClusterAnalyzer]).  The analyzer works on an object of the
    class [HpoEnsmallen] of the package [semanticsimilarity], whose file is
    not among the sources: such an object is taken as the two methods the
    analyzer calls.

    Python values are modelled as follows: [str] as [string], [int] as [Z],
    [float] as the IEEE binary64 [float] of the kernel, [list] as [list],
    [dict]/[defaultdict] as [gmap], [set] as [gset].  Individual ids and
    cluster ids are strings.  What a [set] is iterated in is one fixed order
    ([elements]); no statement depends on which.
    A raised exception ends the modelled run ([Raise e]); the state a raising
    call leaves behind is not modelled. *)

From Stdlib Require Import ZArith Lia Floats Uint63.
From stdpp Require Import gmap strings list fin_maps fin_sets.

#[local] Set Warnings "-clear-no-such-hyp".

Open Scope Z_scope.
Open Scope string_scope.
Open Scope list_scope.

(** ** Exceptions *)

Inductive exn : Type :=
| ValueError (msg : string)
| KeyError (key : string)
| TypeError (msg : string).

Inductive result (A : Type) : Type :=
| Raise (e : exn)
| Ok (a : A).
Arguments Raise {A} e.
Arguments Ok {A} a.

#[global] Instance result_ret : MRet result := λ A a, Ok a.
#[global] Instance result_bind : MBind result := λ A B k m,
  match m with
  | Raise e => Raise e
  | Ok a => k a
  end.

(** ** clustering/hpo_ensmallen.py *)

Module HpoEnsmallen.

(** The ensmallen graph object is an external collaborator.  It is taken as
    its directed edge list [(source name, destination name)];
    [get_node_neighbours_name_by_node_name] lists the destinations of the
    edges leaving a node, in edge order (no edge, no neighbour). *)
Abbreviation EnsmallenGraph := (list (string * string)).

Definition get_node_neighbours_name_by_node_name
    (g : EnsmallenGraph) (node : string) : list string :=
  (λ e, e.2) <$> List.filter (λ e, bool_decide (e.1 = node)) g.

(** [self.graph] holds the is-a edges (term, parent); [self.graph_reversed_edges]
    holds the same edges turned round (parent, term). *)
Record t : Type := mk {
  graph : EnsmallenGraph;
  graph_reversed_edges : EnsmallenGraph;
}.

(** Modelled from the spec: [Hpo2EnsmallenParser], absent from the sources,
    builds the graph from the ontology edge list of pairs (child term, parent
    term) and keeps its edge-reversed counterpart. *)
Definition Hpo2EnsmallenParser (hpo_graph : list (string * string)) : t :=
  {| graph := hpo_graph;
     graph_reversed_edges := (λ e, (e.2, e.1)) <$> hpo_graph |}.

(** The [for neighbor in ...] loop shared by both methods: a neighbour already
    in the accumulator is skipped, any other is handed to [recurse] together
    with the accumulator, whose result replaces it. *)
Fixpoint visit_neighbours (recurse : string → list string → option (list string))
    (neighbours : list string) (acc : list string) : option (list string) :=
  match neighbours with
  | [] => Some acc
  | neighbor :: rest =>
      if decide (neighbor ∈ acc) then visit_neighbours recurse rest acc
      else match recurse neighbor acc with
           | Some acc' => visit_neighbours recurse rest acc'
           | None => None
           end
  end.

(** [get_descendents(self, hpo_term, descendents)], the recursion depth
    bounded by [fuel].  [descendents += [hpo_term]] appends in place, so the
    list threaded through the calls is one object. *)
Fixpoint get_descendents_fuel (fuel : nat) (self : t) (hpo_term : string)
    (descendents : list string) : option (list string) :=
  match fuel with
  | O => None
  | S fuel' =>
      visit_neighbours (get_descendents_fuel fuel' self)
        (get_node_neighbours_name_by_node_name (graph_reversed_edges self) hpo_term)
        (descendents ++ [hpo_term])
  end.

(** Every recursive call appends a destination of a reversed edge that was not
    in the accumulator, so the depth never exceeds the number of edges. *)
Definition enough_fuel (self : t) : nat := S (length (graph_reversed_edges self)).

Definition get_descendents (self : t) (hpo_term : string)
    (descendents : list string) : list string :=
  default descendents (get_descendents_fuel (enough_fuel self) self hpo_term descendents).

(** [get_ancestors(self, hpo_term, ancestors)]: the first hop follows
    [self.graph]; each neighbour not yet seen is expanded by
    [self.get_descendents]. *)
Definition get_ancestors (self : t) (hpo_term : string)
    (ancestors : list string) : list string :=
  foldl (λ ancestors neighbor,
           if decide (neighbor ∈ ancestors) then ancestors
           else get_descendents self neighbor ancestors)
        (ancestors ++ [hpo_term])
        (get_node_neighbours_name_by_node_name (graph self) hpo_term).

(** The default arguments [descendents=[]] and [ancestors=[]] are two list
    objects created when the methods are defined; they live as long as the
    process and every call that omits the argument works on them in place. *)
Record defaults : Type := mk_defaults {
  descendents_default : list string;
  ancestors_default : list string;
}.

Definition fresh_defaults : defaults :=
  {| descendents_default := []; ancestors_default := [] |}.

(** [self.get_descendents(hpo_term)] *)
Definition call_get_descendents (self : t) (hpo_term : string) (d : defaults)
    : list string * defaults :=
  let r := get_descendents self hpo_term (descendents_default d) in
  (r, {| descendents_default := r; ancestors_default := ancestors_default d |}).

(** [self.get_ancestors(hpo_term)] *)
Definition call_get_ancestors (self : t) (hpo_term : string) (d : defaults)
    : list string * defaults :=
  let r := get_ancestors self hpo_term (ancestors_default d) in
  (r, {| descendents_default := descendents_default d; ancestors_default := r |}).

End HpoEnsmallen.

(** ** The ontology object of the analyzer *)

(** The analyzer takes its [HpoEnsmallen] from the package [semanticsimilarity]
    (line 2 of [hpo_cluster_analyzer.py]).  The file of that class is not
    among the sources, and the class of [clustering/hpo_ensmallen.py] is not
    it: it has no [node_exists].  Of [self._hpo] the analyzer calls two
    methods, [node_exists] (line 94) and [get_ancestors] (line 96).  An
    object of the class is taken as these two methods, whatever they
    compute: [get_ancestors] returns a list of terms and may read and change
    the state that the ontology classes keep in the interpreter. *)
Module SemsimHpoEnsmallen.

Record t : Type := mk {
  node_exists : string → bool;
  get_ancestors : string → HpoEnsmallen.defaults → list string * HpoEnsmallen.defaults;
}.

(** Modelled from the spec (section 4.1, [nodeExists]): "does this term
    exist" in the ontology graph, that is, is it an endpoint of some edge. *)
Definition nodeExists (g : HpoEnsmallen.t) (node : string) : bool :=
  bool_decide (node ∈ ((λ e, e.1) <$> HpoEnsmallen.graph g)
                      ++ ((λ e, e.2) <$> HpoEnsmallen.graph g)).

(** Modelled from the spec (section 4.2, [ancestorsOf]): the
    reflexive-transitive closure of [parentsOf], the start term included,
    by a traversal from the start term along the parent edges with a visited
    set that starts empty at every call.  The traversal is the one of
    [get_descendents], pointed at the parent edges. *)
Definition ancestorsOf (g : HpoEnsmallen.t) (term : string) : list string :=
  HpoEnsmallen.get_descendents
    {| HpoEnsmallen.graph := HpoEnsmallen.graph_reversed_edges g;
       HpoEnsmallen.graph_reversed_edges := HpoEnsmallen.graph g |}
    term [].

(** Modelled from the spec: the object over an ontology graph; its closure
    is a pure function of the term and the graph and leaves the interpreter
    alone. *)
Definition from_spec (g : HpoEnsmallen.t) : t :=
  {| node_exists := nodeExists g;
     get_ancestors := λ term d, (ancestorsOf g term, d) |}.

End SemsimHpoEnsmallen.

(** ** semanticsimilarity/hpo_cluster_analyzer.py *)

(** What lives in the interpreter rather than in an analyzer object: the
    state of the ontology classes (the sources show one kind, the
    default-argument lists of [HpoEnsmallen]) and the warnings issued so
    far. *)
Record process : Type := mk_process {
  hpo_defaults : HpoEnsmallen.defaults;
  warnings : list string;
}.

Definition fresh_process : process :=
  {| hpo_defaults := HpoEnsmallen.fresh_defaults; warnings := [] |}.

(** [warn(msg)] *)
Definition warn (msg : string) (p : process) : process :=
  {| hpo_defaults := hpo_defaults p; warnings := warnings p ++ [msg] |}.

(** A cell of a result row. *)
Inductive value : Type :=
| VStr (s : string)
| VInt (n : Z)
| VBool (b : bool)
| VFloat (x : float)
| VArray (a : list (list float)).

(** [float('nan')] *)
Definition float_nan : value := VFloat nan.

(** [m[k]] on a [defaultdict(int)]: a missing key reads as 0 and is stored. *)
Definition getitem_int (m : gmap string Z) (k : string) : Z * gmap string Z :=
  match m !! k with
  | Some v => (v, m)
  | None => (0, <[k := 0]> m)
  end.

(** [m[k] += 1] on a [defaultdict(int)] *)
Definition incr_int (m : gmap string Z) (k : string) : gmap string Z :=
  <[k := default 0 (m !! k) + 1]> m.

(** [df.groupby(key)[val].apply(list)]: one entry per distinct key, keys in
    ascending order, the values of a key in row order. *)
Fixpoint sorted_insert (k : string) (ks : list string) : list string :=
  match ks with
  | [] => [k]
  | k' :: ks' => if String.leb k k' then k :: ks else k' :: sorted_insert k ks'
  end.

Definition sort_keys (ks : list string) : list string := foldr sorted_insert [] ks.

Definition groupby_apply_list (rows : list (string * string)) : list (string * list string) :=
  (λ k, (k, (λ r, r.2) <$> List.filter (λ r, bool_decide (r.1 = k)) rows))
    <$> sort_keys (remove_dups ((λ r, r.1) <$> rows)).

(** [list(set(xs))] *)
Definition list_set (xs : list string) : list string :=
  elements (list_to_set xs : gset string).

Module HpoClusterAnalyzer.

Record t : Type := mk {
  _percluster_termcounts : gmap string (gmap string Z);
  _per_cluster_total_pt_count : gmap string Z;
  _hpo_terms : gset string;
  _hpo : SemsimHpoEnsmallen.t;
  _total_patients : Z;
  _clusters : list string;
  _unique_pt_ids : list string;
}.

(** [HpoClusterAnalyzer(hpo)]; the [isinstance] test is a matter of typing
    here.  [_unique_pt_ids] is only created by [add_counts]. *)
Definition __init__ (hpo : SemsimHpoEnsmallen.t) : t :=
  {| _percluster_termcounts := ∅;
     _per_cluster_total_pt_count := ∅;
     _hpo_terms := ∅;
     _hpo := hpo;
     _total_patients := 0;
     _clusters := [];
     _unique_pt_ids := [] |}.

(** The body of the term loop of [add_counts] (lines 92-99), on what it
    works on: [self._hpo_terms], [induced_ancestor_graph] and the interpreter
    state.  [self._hpo.node_exists] and [self._hpo.get_ancestors] are the
    methods of the object the analyzer was given. *)
Definition term_step (hpo : SemsimHpoEnsmallen.t)
    (acc : gset string * gset string * process) (hpo_id : string)
    : gset string * gset string * process :=
  let '(hpo_terms, induced_ancestor_graph, p) := acc in
  let hpo_terms := {[hpo_id]} ∪ hpo_terms in
  if SemsimHpoEnsmallen.node_exists hpo hpo_id then
    let induced_ancestor_graph := {[hpo_id]} ∪ induced_ancestor_graph in
    let '(ancs, d) := SemsimHpoEnsmallen.get_ancestors hpo hpo_id (hpo_defaults p) in
    (hpo_terms, induced_ancestor_graph ∪ list_to_set ancs,
     {| hpo_defaults := d; warnings := warnings p |})
  else
    (hpo_terms, induced_ancestor_graph,
     warn ("Couldn't find " +:+ hpo_id +:+ " in self._hpo graph") p).

(** One turn of the patient loop (lines 77-102). *)
Definition patient_step (cluster_dict : gmap string string)
    (acc : t * process) (entry : string * list string) : result (t * process) :=
  let '(self, p) := acc in
  let '(patient_id, hpo_id_list) := entry in
  match cluster_dict !! patient_id with
  | None =>
      Raise (ValueError ("Could not find patient " +:+ patient_id +:+ " in cluster_assignment"))
  | Some cluster =>
      let totals := incr_int (_per_cluster_total_pt_count self) cluster in
      let termcounts :=
        match _percluster_termcounts self !! cluster with
        | None => <[cluster := ∅]> (_percluster_termcounts self)
        | Some _ => _percluster_termcounts self
        end in
      let '(hpo_terms, induced_ancestor_graph, p) :=
        foldl (term_step (_hpo self)) (_hpo_terms self, ∅, p) hpo_id_list in
      let termcounts :=
        foldl (λ tc hpo_id, alter (λ m, incr_int m hpo_id) cluster tc)
              termcounts (elements induced_ancestor_graph) in
      Ok ({| _percluster_termcounts := termcounts;
             _per_cluster_total_pt_count := totals;
             _hpo_terms := hpo_terms;
             _hpo := _hpo self;
             _total_patients := _total_patients self + 1;
             _clusters := _clusters self;
             _unique_pt_ids := _unique_pt_ids self |}, p)
  end.

Fixpoint patient_loop (cluster_dict : gmap string string) (acc : t * process)
    (entries : list (string * list string)) : result (t * process) :=
  match entries with
  | [] => Ok acc
  | entry :: rest =>
      acc' ← patient_step cluster_dict acc entry;
      patient_loop cluster_dict acc' rest
  end.

(** [add_counts(self, patient_hpo_df, cluster_assignment_df)] with the default
    column names: the rows of the first frame are (patient_id, hpo_id), those
    of the second (patient_id, cluster).  The frame-type and column-name tests
    (lines 55-67) hold by typing; [print] is not modelled. *)
Definition add_counts (self : t) (patient_hpo_df cluster_assignment_df : list (string * string))
    (p : process) : result (t * process) :=
  let cluster_dict : gmap string string :=
    foldl (λ d row, <[row.1 := row.2]> d) ∅ cluster_assignment_df in
  let patient_ids := (λ row, row.1) <$> cluster_assignment_df in
  if negb (bool_decide (length patient_ids = length (list_set patient_ids))) then
    Raise (ValueError "column patient_id in cluster_assignment has duplicate rows for some patients!")
  else
    let self :=
      {| _percluster_termcounts := _percluster_termcounts self;
         _per_cluster_total_pt_count := _per_cluster_total_pt_count self;
         _hpo_terms := _hpo_terms self;
         _hpo := _hpo self;
         _total_patients := _total_patients self;
         _clusters := list_set ((λ kv, kv.2) <$> map_to_list cluster_dict);
         _unique_pt_ids := list_set patient_ids |} in
    patient_loop cluster_dict (self, p) (groupby_apply_list patient_hpo_df).

(** [any(counts)] on a list of ints *)
Definition any (counts : list Z) : bool := existsb (λ z, negb (Z.eqb z 0)) counts.

(** The cluster loop of [do_chi2] (lines 115-126), repeated word for word in
    [do_fisher_exact] (lines 153-164).  [self._percluster_termcounts] is a
    [defaultdict(dict)]: for a cluster it does not hold, it stores and hands
    out a plain [{}], on which [[hpo_id]] is a [KeyError]. *)
Definition cluster_step (hpo_id : string)
    (acc : t * gmap string value * list Z * list Z) (cluster : string)
    : result (t * gmap string value * list Z * list Z) :=
  let '(self, d, with_hpo_count, without_hpo_count) := acc in
  let cluster_with := cluster +:+ "-with" in
  let cluster_without := cluster +:+ "-without" in
  let cluster_total := cluster +:+ "-total" in
  let '(total, totals) := getitem_int (_per_cluster_total_pt_count self) cluster in
  let d := <[cluster_total := VInt total]> d in
  match _percluster_termcounts self !! cluster with
  | None => Raise (KeyError hpo_id)
  | Some m =>
      let '(with_hpo, m) := getitem_int m hpo_id in
      let d := <[cluster_with := VInt with_hpo]> d in
      let without_hpo := total - with_hpo in
      let d := <[cluster_without := VInt without_hpo]> d in
      Ok ({| _percluster_termcounts := <[cluster := m]> (_percluster_termcounts self);
             _per_cluster_total_pt_count := totals;
             _hpo_terms := _hpo_terms self;
             _hpo := _hpo self;
             _total_patients := _total_patients self;
             _clusters := _clusters self;
             _unique_pt_ids := _unique_pt_ids self |},
          d, with_hpo_count ++ [with_hpo], without_hpo_count ++ [without_hpo])
  end.

Fixpoint cluster_loop (hpo_id : string)
    (acc : t * gmap string value * list Z * list Z) (clusters : list string)
    : result (t * gmap string value * list Z * list Z) :=
  match clusters with
  | [] => Ok acc
  | cluster :: rest =>
      acc' ← cluster_step hpo_id acc cluster;
      cluster_loop hpo_id acc' rest
  end.

Section Tests.

(** [scipy.stats.chi2_contingency] and [scipy.stats.fisher_exact] are library
    primitives, taken as they come: each either raises or returns its
    tuple. *)
Variable chi2_contingency : list (list Z) → result (float * float * Z * list (list float)).
Variable fisher_exact : list (list Z) → result (float * float).

(** The body of the term loop of [do_chi2] (lines 112-140). *)
Definition chi2_row (acc : t * process) (hpo_id : string)
    : result (t * process * gmap string value) :=
  let '(self, p) := acc in
  '(self, d, with_hpo_count, without_hpo_count) ←
    cluster_loop hpo_id (self, {["hpo_id" := VStr hpo_id]}, [], []) (_clusters self);
  let table := [with_hpo_count; without_hpo_count] in
  '(stat, pv, dof, expected, p) ←
    (if negb (any without_hpo_count) then
       Ok (float_nan, float_nan, float_nan, float_nan,
           warn ("hpo_id " +:+ hpo_id +:+ " is in all clusters - can't compute chi-2") p)
     else if negb (any with_hpo_count) then
       Ok (float_nan, float_nan, float_nan, float_nan,
           warn ("hpo_id " +:+ hpo_id +:+ " doesn't occur in any clusters - can't compute chi-2") p)
     else
       '(stat, pv, dof, expected) ← chi2_contingency table;
       Ok (VFloat stat, VFloat pv, VInt dof, VArray expected, p));
  let d := <["stat" := stat]> d in
  let d := <["p" := pv]> d in
  let d := <["dof" := dof]> d in
  let d := <["expected" := expected]> d in
  Ok (self, p, d).

(** The body of the term loop of [do_fisher_exact] (lines 150-169). *)
Definition fisher_row (acc : t * process) (hpo_id : string)
    : result (t * process * gmap string value) :=
  let '(self, p) := acc in
  '(self, d, with_hpo_count, without_hpo_count) ←
    cluster_loop hpo_id (self, {["hpo_id" := VStr hpo_id]}, [], []) (_clusters self);
  '(oddsr, pv) ← fisher_exact [with_hpo_count; without_hpo_count];
  let d := <["oddsr" := VFloat oddsr]> d in
  let d := <["p" := VFloat pv]> d in
  Ok (self, p, d).

(** [for hpo_id in self._hpo_terms: ...; results_list.append(d)] *)
Fixpoint term_loop (row : t * process → string → result (t * process * gmap string value))
    (acc : t * process) (results_list : list (gmap string value)) (hpo_ids : list string)
    : result (list (gmap string value) * t * process) :=
  match hpo_ids with
  | [] => Ok (results_list, acc.1, acc.2)
  | hpo_id :: rest =>
      '(self, p, d) ← row acc hpo_id;
      term_loop row (self, p) (results_list ++ [d]) rest
  end.

(** [do_chi2(self)]: the rows of the returned frame, with the analyzer and
    the interpreter state the call leaves. *)
Definition do_chi2 (self : t) (p : process) : result (list (gmap string value) * t * process) :=
  term_loop chi2_row (self, p) [] (elements (_hpo_terms self)).

(** [do_fisher_exact(self)] *)
Definition do_fisher_exact (self : t) (p : process)
    : result (list (gmap string value) * t * process) :=
  term_loop fisher_row (self, p) [] (elements (_hpo_terms self)).

End Tests.

End HpoClusterAnalyzer.

(** ** The covariate test *)

(** A column of the covariate frame: whether its dtype is [bool], and its
    cells. *)
Record series : Type := mk_series {
  dtype_is_bool : bool;
  cells : list value;
}.

(** [int] to [float], as [x * n] does for a float [x]. *)
Definition float_of_int (n : Z) : float := PrimFloat.of_uint63 (Uint63.of_Z n).

(** [lambda x: x*results_pd.shape[0]].  The p column is built from floats
    alone (lemma [covariate_loop_p]); the cases of cells that are no numbers
    are closed with [TypeError] here and below, and never taken. *)
Definition scale_p (shape0 : Z) (x : value) : result value :=
  match x with
  | VFloat f => Ok (VFloat (f * float_of_int shape0)%float)
  | VInt k => Ok (VInt (k * shape0))
  | _ => Raise (TypeError "unsupported operand")
  end.

(** [lambda x: x if x < 1 or math.isnan(x) else 1] *)
Definition cap_p (x : value) : result value :=
  match x with
  | VFloat f => Ok (if (f <? 1)%float || is_nan f then VFloat f else VInt 1)
  | VInt k => Ok (if bool_decide (k < 1) then VInt k else VInt 1)
  | _ => Raise (TypeError "unsupported operand")
  end.

(** [results_pd[col] = results_pd[col].apply(f)] on the rows of a frame: a
    row built without the key reads as NaN, and a frame without rows has no
    columns at all. *)
Fixpoint apply_rows (col : string) (f : value → result value)
    (rows : list (gmap string value)) : result (list (gmap string value)) :=
  match rows with
  | [] => Ok []
  | d :: rest =>
      v ← f (default float_nan (d !! col));
      rest' ← apply_rows col f rest;
      Ok (<[col := v]> d :: rest')
  end.

Definition apply_column (col : string) (f : value → result value)
    (rows : list (gmap string value)) : result (list (gmap string value)) :=
  match rows with
  | [] => Raise (KeyError col)
  | _ => apply_rows col f rows
  end.

(** [dict(zip(keys, values))] *)
Definition dict_zip (keys : list string) (values : list value) : gmap string value :=
  foldl (λ d kv, <[kv.1 := kv.2]> d) ∅ (zip keys values).

(** pandas and scipy are library primitives, taken as they come.
    [pd_crosstab] is [pd.crosstab] and [chi2_contingency] scipy's test on the
    table it returns; of that table [add_true_counts_by_cluster] reads the
    count column it settles on (lines 271-284, a lookup that may raise), the
    row sums and the printed row labels. *)
Record library : Type := mk_library {
  crosstab : Type;
  pd_crosstab : series → series → crosstab;
  chi2_contingency : crosstab → result (float * float * Z * list (list float));
  true_counts_by_cluster : crosstab → bool → result (option value * list value);
  total_counts_by_cluster : crosstab → list value;
  index_str : crosstab → list string;
}.

Section Covariates.

Variable lib : library.

(** [add_true_counts_by_cluster(d, contingency_table, column_dtype)] *)
Definition add_true_counts_by_cluster (d : gmap string value)
    (contingency_table : crosstab lib) (column_is_bool : bool)
    : result (gmap string value * option value) :=
  '(true_counts_col, true_counts) ← true_counts_by_cluster lib contingency_table column_is_bool;
  let total_counts := total_counts_by_cluster lib contingency_table in
  let keys := (λ i, "cluster" +:+ i) <$> index_str lib contingency_table in
  let new_d := dict_zip keys true_counts in
  let d := new_d ∪ d in
  let keys := (λ i, "cluster" +:+ i +:+ "_total") <$> index_str lib contingency_table in
  let new_d_total := dict_zip keys total_counts in
  let d := new_d_total ∪ d in
  Ok (d, true_counts_col).

(** [len(column[column])] for a [bool] column: the number of [True] cells. *)
Definition count_true (column : series) : Z :=
  Z.of_nat (length (List.filter (λ v, match v with VBool true => true | _ => false end)
                                (cells column))).

(** The body of the column loop (lines 243-253). *)
Definition covariate_step (cluster_series : series) (cluster_col : string)
    (minimum_n : Z) (ignore_col : list string)
    (results : list (gmap string value)) (column : string * series)
    : result (list (gmap string value)) :=
  if bool_decide (column.1 = cluster_col) || bool_decide (column.1 ∈ ignore_col) then
    Ok results
  else
    let contingency_table := pd_crosstab lib cluster_series column.2 in
    '(chi2, p_value, dof) ←
      (if dtype_is_bool column.2 && bool_decide (count_true column.2 < minimum_n) then
         Ok (float_nan, float_nan, float_nan)
       else
         '(chi2, p_value, dof, exp) ← chi2_contingency lib contingency_table;
         Ok (VFloat chi2, VFloat p_value, VInt dof));
    let d : gmap string value :=
      <["dof" := dof]> (<["p" := p_value]> (<["chi2" := chi2]>
        {["covariate" := VStr column.1]})) in
    '(d, factor_to_append) ← add_true_counts_by_cluster d contingency_table
                               (dtype_is_bool column.2);
    Ok (results ++ [d]).

Fixpoint covariate_loop (cluster_series : series) (cluster_col : string)
    (minimum_n : Z) (ignore_col : list string)
    (results : list (gmap string value)) (columns : list (string * series))
    : result (list (gmap string value)) :=
  match columns with
  | [] => Ok results
  | column :: rest =>
      results' ← covariate_step cluster_series cluster_col minimum_n ignore_col results column;
      covariate_loop cluster_series cluster_col minimum_n ignore_col results' rest
  end.

(** [do_chi_square_on_covariates(covariate_dataframe, cluster_col, minimum_n,
    ignore_col, bonferroni)]; the frame is the list of its named columns. *)
Definition do_chi_square_on_covariates (covariate_dataframe : list (string * series))
    (cluster_col : string) (minimum_n : Z) (ignore_col : list string)
    (bonferroni : bool) : result (list (gmap string value)) :=
  match list_find (λ c, c.1 = cluster_col) covariate_dataframe with
  | None =>
      Raise (ValueError ("cluster_col arg " +:+ cluster_col +:+
                         " is not a column in covariate_dataframe"))
  | Some (_, (_, cluster_series)) =>
      results ← covariate_loop cluster_series cluster_col minimum_n ignore_col []
                  covariate_dataframe;
      let results_pd := results in
      if bonferroni then
        results_pd ← apply_column "p" (scale_p (Z.of_nat (length results_pd))) results_pd;
        apply_column "p" cap_p results_pd
      else
        Ok results_pd
  end.

End Covariates.

(** * Notions used in the statements *)

Module Notions.
Import HpoClusterAnalyzer.

(** ** Ontology closure *)

(** [parent] is a direct parent of [term]: the spec's [parentsOf]. *)
Definition parent_of (self : HpoEnsmallen.t) (term parent : string) : Prop :=
  parent ∈ HpoEnsmallen.get_node_neighbours_name_by_node_name (HpoEnsmallen.graph self) term.

(** The terms a traversal may still append: the destinations of the reversed
    edges that the accumulator does not hold yet. *)
Definition unvisited (self : HpoEnsmallen.t) (acc : list string) : list string :=
  List.filter (λ n, negb (bool_decide (n ∈ acc))) ((λ e, e.2) <$> HpoEnsmallen.graph_reversed_edges self).

(** ** Aggregation *)

(** The warning [add_counts] issues for a term the graph does not hold. *)
Definition unknown_warning (hpo_id : string) : string :=
  "Couldn't find " +:+ hpo_id +:+ " in self._hpo graph".

Definition unknown_warnings (hpo : SemsimHpoEnsmallen.t) (hpo_id_list : list string)
    : list string :=
  unknown_warning <$> List.filter (λ t, negb (SemsimHpoEnsmallen.node_exists hpo t)) hpo_id_list.

(** [d[k]] read without storing: what a [defaultdict(int)] holds for [k]. *)
Definition count_at (m : gmap string Z) (k : string) : Z := default 0 (m !! k).

(** The dictionary comprehension of line 46. *)
Definition cluster_dict_of (cluster_assignment_df : list (string * string))
    : gmap string string :=
  foldl (λ d row, <[row.1 := row.2]> d) ∅ cluster_assignment_df.

(** The number of entries of the grouped frame that fall into cluster [c]. *)
Definition entries_in (cluster_dict : gmap string string) (c : string)
    (patient_ids : list string) : nat :=
  length (filter (λ pid, cluster_dict !! pid = Some c) patient_ids).

(** The number of distinct individuals with annotation rows that the
    assignment puts into cluster [c]. *)
Definition individuals_in (cluster_assignment_df : list (string * string)) (c : string)
    (patient_hpo_df : list (string * string)) : nat :=
  length (filter (λ pid, (pid, c) ∈ cluster_assignment_df)
                 (remove_dups (patient_hpo_df.*1))).

(** What the analyzer holds for a cluster and a term, read without storing. *)
Definition total_of (self : t) (cluster : string) : Z :=
  count_at (_per_cluster_total_pt_count self) cluster.

Definition with_of (self : t) (hpo_id cluster : string) : Z :=
  count_at (default ∅ (_percluster_termcounts self !! cluster)) hpo_id.

Definition without_of (self : t) (hpo_id cluster : string) : Z :=
  total_of self cluster - with_of self hpo_id cluster.

(** Two analyzers that answer every read alike: they differ at most in zero
    entries that reading a [defaultdict] has stored. *)
Definition same_counts (self self' : t) : Prop :=
  (∀ c, total_of self' c = total_of self c)
  ∧ (∀ c t, with_of self' t c = with_of self t c)
  ∧ (∀ c, is_Some (_percluster_termcounts self' !! c)
          ↔ is_Some (_percluster_termcounts self !! c))
  ∧ _hpo_terms self' = _hpo_terms self
  ∧ _clusters self' = _clusters self
  ∧ _hpo self' = _hpo self
  ∧ _total_patients self' = _total_patients self.

(** Every recorded cluster has its map of term counts. *)
Definition clusters_counted (self : t) : Prop :=
  ∀ c, c ∈ _clusters self → is_Some (_percluster_termcounts self !! c).

(** ** Reports *)

(** The three columns a report row carries for a cluster. *)
Definition cluster_columns (cluster : string) : gset string :=
  {[cluster +:+ "-total"; cluster +:+ "-with"; cluster +:+ "-without"]}.

Definition clusters_columns (clusters : list string) : gset string :=
  ⋃ (cluster_columns <$> clusters).

(** The columns of a row of the chi-square report and of the Fisher report. *)
Definition chi2_columns (clusters : list string) : gset string :=
  {["hpo_id"; "stat"; "p"; "dof"; "expected"]} ∪ clusters_columns clusters.

Definition fisher_columns (clusters : list string) : gset string :=
  {["hpo_id"; "oddsr"; "p"]} ∪ clusters_columns clusters.

(** The library primitive refuses every table that is not 2 by 2. *)
Definition requires_2x2 (fisher_exact : list (list Z) → result (float * float)) : Prop :=
  ∀ with_hpo_count without_hpo_count,
    length with_hpo_count ≠ 2%nat →
    ∃ e, fisher_exact [with_hpo_count; without_hpo_count] = Raise e.

(** The claim about the Fisher report, as the spec words it: the call
    returns, the result fields of its rows are not-a-number, and a
    diagnostic has been issued. *)
Definition shape_surfaced (fisher_exact : list (list Z) → result (float * float))
    (self : t) (p : process) : Prop :=
  ∃ report self' p',
    do_fisher_exact fisher_exact self p = Ok (report, self', p')
    ∧ (∀ d, d ∈ report → d !! "oddsr" = Some float_nan ∧ d !! "p" = Some float_nan)
    ∧ warnings p' ≠ warnings p.

(** ** Bonferroni correction *)







(** ** Traversals *)

(** [child] is a direct child of [term]: a neighbour in
    [self.graph_reversed_edges]. *)
Definition child_of (self : HpoEnsmallen.t) (term child : string) : Prop :=
  child ∈ HpoEnsmallen.get_node_neighbours_name_by_node_name
            (HpoEnsmallen.graph_reversed_edges self) term.

(** A step of [R] that does not enter [acc]. *)
Definition avoiding (R : string → string → Prop) (acc : list string) (a b : string) : Prop :=
  R a b ∧ b ∉ acc.

(** [r] is [acc] with new, pairwise different terms appended. *)
Definition extends_with_new (acc r : list string) : Prop :=
  ∃ suffix, r = acc ++ suffix ∧ NoDup suffix ∧ ∀ x, x ∈ suffix → x ∉ acc.

(** Every term of [r] outside [base] has all its children in [r]. *)
Definition closed_from (self : HpoEnsmallen.t) (base r : list string) : Prop :=
  ∀ x c, x ∈ r → x ∉ base → child_of self x c → c ∈ r.

(** What a returned traversal from [hpo_term] on accumulator [acc] is. *)
Definition traversal (self : HpoEnsmallen.t) (hpo_term : string) (acc r : list string) : Prop :=
  extends_with_new (acc ++ [hpo_term]) r
  ∧ (∀ c, child_of self hpo_term c → c ∈ r)
  ∧ closed_from self (acc ++ [hpo_term]) r
  ∧ (∀ x, x ∈ r → x ∈ acc ∨ rtc (avoiding (child_of self) acc) hpo_term x).

(** ** The ontology object *)


(** Two objects that answer alike wherever the first knows the term. *)
Definition agree_on_known (hpo hpo2 : SemsimHpoEnsmallen.t) : Prop :=
  (∀ term, SemsimHpoEnsmallen.node_exists hpo2 term = SemsimHpoEnsmallen.node_exists hpo term)
  ∧ ∀ term d, SemsimHpoEnsmallen.node_exists hpo term = true →
      SemsimHpoEnsmallen.get_ancestors hpo2 term d = SemsimHpoEnsmallen.get_ancestors hpo term d.

(** The analyzer [self] with another ontology object in [_hpo]. *)
Definition with_hpo (self : t) (hpo : SemsimHpoEnsmallen.t) : t :=
  {| _percluster_termcounts := _percluster_termcounts self;
     _per_cluster_total_pt_count := _per_cluster_total_pt_count self;
     _hpo_terms := _hpo_terms self;
     _hpo := hpo;
     _total_patients := _total_patients self;
     _clusters := _clusters self;
     _unique_pt_ids := _unique_pt_ids self |}.


(** Some closure that [hpo] returns for the known term [x] holds [term]. *)
Definition in_closure_of (hpo : SemsimHpoEnsmallen.t) (x term : string) : Prop :=
  ∃ d, term ∈ (SemsimHpoEnsmallen.get_ancestors hpo x d).1.

(** ** The term counts *)

(** The induced set the term loop of [add_counts] builds for the terms
    [hpo_id_list] of one individual, from the set [induced] and the
    interpreter state [p]; and the interpreter state the loop leaves. *)
Definition induced_from (hpo : SemsimHpoEnsmallen.t) (induced : gset string) (p : process)
    (hpo_id_list : list string) : gset string :=
  (foldl (term_step hpo) (∅, induced, p) hpo_id_list).1.2.

Definition process_from (hpo : SemsimHpoEnsmallen.t) (induced : gset string) (p : process)
    (hpo_id_list : list string) : process :=
  (foldl (term_step hpo) (∅, induced, p) hpo_id_list).2.

(** No count is negative and no term is counted for more individuals than
    the cluster has. *)
Definition counts_bounded (self : t) : Prop :=
  ∀ c t, (0 ≤ with_of self t c ≤ total_of self c)%Z.

(** The number of distinct individuals that the assignment puts into cluster
    [c] and that are annotated with [hpo_id]. *)
Definition annotated_in (cluster_assignment_df : list (string * string)) (c : string)
    (patient_hpo_df : list (string * string)) (hpo_id : string) : nat :=
  length (filter (λ pid, (pid, c) ∈ cluster_assignment_df ∧ (pid, hpo_id) ∈ patient_hpo_df)
                 (remove_dups (patient_hpo_df.*1))).

(** The analyzers a program can hold: what the constructor returns, and what
    a returning call of [add_counts], [do_chi2] or [do_fisher_exact] leaves. *)
Inductive reachable : t → Prop :=
| reachable_init hpo : reachable (__init__ hpo)
| reachable_add_counts self rows ca p self' p' :
    reachable self → add_counts self rows ca p = Ok (self', p') → reachable self'
| reachable_do_chi2 chi2_contingency self p report self' p' :
    reachable self → do_chi2 chi2_contingency self p = Ok (report, self', p') →
    reachable self'
| reachable_do_fisher_exact fisher_exact self p report self' p' :
    reachable self → do_fisher_exact fisher_exact self p = Ok (report, self', p') →
    reachable self'.

(** ** The rows of the reports *)

(** The three cells the cluster loop writes into a row for one cluster. *)
Definition cluster_cells (self : t) (hpo_id : string) (d : gmap string value)
    (cluster : string) : gmap string value :=
  <[cluster +:+ "-without" := VInt (without_of self hpo_id cluster)]>
    (<[cluster +:+ "-with" := VInt (with_of self hpo_id cluster)]>
       (<[cluster +:+ "-total" := VInt (total_of self cluster)]> d)).

(** A row as the cluster loop leaves it. *)
Definition count_cells (self : t) (hpo_id : string) : gmap string value :=
  foldl (cluster_cells self hpo_id) {["hpo_id" := VStr hpo_id]} (_clusters self).

(** A key is one of the fixed column names of a report. *)
Definition fixed_column (k : string) : Prop :=
  k ∈ ["hpo_id"; "stat"; "p"; "dof"; "expected"; "oddsr"].

(** A row holds the term and, for every recorded cluster, the three counts
    the analyzer stores. *)
Definition row_counts (self : t) (hpo_id : string) (d : gmap string value) : Prop :=
  d !! "hpo_id" = Some (VStr hpo_id)
  ∧ ∀ c, c ∈ _clusters self →
      d !! (c +:+ "-total") = Some (VInt (total_of self c))
      ∧ d !! (c +:+ "-with") = Some (VInt (with_of self hpo_id c))
      ∧ d !! (c +:+ "-without") = Some (VInt (without_of self hpo_id c)).

(** The two rows of the contingency table of a term. *)
Definition with_counts (self : t) (hpo_id : string) : list Z :=
  with_of self hpo_id <$> _clusters self.

Definition without_counts (self : t) (hpo_id : string) : list Z :=
  without_of self hpo_id <$> _clusters self.

Definition all_zero (counts : list Z) : Prop := Forall (λ z, z = 0) counts.

(** The warning [do_chi2] issues for a term, if any. *)
Definition chi2_warning (self : t) (hpo_id : string) : option string :=
  if decide (all_zero (without_counts self hpo_id)) then
    Some ("hpo_id " +:+ hpo_id +:+ " is in all clusters - can't compute chi-2")
  else if decide (all_zero (with_counts self hpo_id)) then
    Some ("hpo_id " +:+ hpo_id +:+ " doesn't occur in any clusters - can't compute chi-2")
  else None.

(** The result fields of the row of a term in the chi-square report. *)
Definition chi2_fields
    (chi2_contingency : list (list Z) → result (float * float * Z * list (list float)))
    (self : t) (hpo_id : string) (d : gmap string value) : Prop :=
  match chi2_warning self hpo_id with
  | Some _ =>
      d !! "stat" = Some float_nan ∧ d !! "p" = Some float_nan
      ∧ d !! "dof" = Some float_nan ∧ d !! "expected" = Some float_nan
  | None =>
      ∃ stat pv dof expected,
        chi2_contingency [with_counts self hpo_id; without_counts self hpo_id]
        = Ok (stat, pv, dof, expected)
        ∧ d !! "stat" = Some (VFloat stat) ∧ d !! "p" = Some (VFloat pv)
        ∧ d !! "dof" = Some (VInt dof) ∧ d !! "expected" = Some (VArray expected)
  end.

(** The result fields of the row of a term in the Fisher report. *)
Definition fisher_fields (fisher_exact : list (list Z) → result (float * float))
    (self : t) (hpo_id : string) (d : gmap string value) : Prop :=
  ∃ oddsr pv,
    fisher_exact [with_counts self hpo_id; without_counts self hpo_id] = Ok (oddsr, pv)
    ∧ d !! "oddsr" = Some (VFloat oddsr) ∧ d !! "p" = Some (VFloat pv).

(** The library test answers every table. *)
Definition always_answers {A} (test : list (list Z) → result A) : Prop :=
  ∀ table, ∃ r, test table = Ok r.

(** ** The covariate report *)

(** The column of the frame that [covariate_dataframe[cluster_col]] is. *)
Definition cluster_series_of (covariate_dataframe : list (string * series))
    (cluster_col : string) : option series :=
  (λ found : nat * (string * series), found.2.2)
    <$> list_find (λ c, c.1 = cluster_col) covariate_dataframe.

(** A column the loop does not skip. *)
Definition tested (cluster_col : string) (ignore_col : list string)
    (column : string * series) : Prop :=
  column.1 ≠ cluster_col ∧ column.1 ∉ ignore_col.

(** A [bool] column with fewer than [minimum_n] cells that are [True]. *)
Definition too_few (minimum_n : Z) (column : series) : Prop :=
  dtype_is_bool column = true ∧ count_true column < minimum_n.

(** The row of the uncorrected covariate report for a column. *)
Definition covariate_row (lib : library) (cluster_series : series) (minimum_n : Z)
    (column : string * series) (d : gmap string value) : Prop :=
  d !! "covariate" = Some (VStr column.1)
  ∧ if decide (too_few minimum_n column.2) then
      d !! "chi2" = Some float_nan ∧ d !! "p" = Some float_nan ∧ d !! "dof" = Some float_nan
    else
      ∃ chi2 pv dof expected,
        chi2_contingency lib (pd_crosstab lib cluster_series column.2)
        = Ok (chi2, pv, dof, expected)
        ∧ d !! "chi2" = Some (VFloat chi2) ∧ d !! "p" = Some (VFloat pv)
        ∧ d !! "dof" = Some (VInt dof).

(** The library calls the loop makes for a column return. *)
Definition column_answered (lib : library) (cluster_series : series) (minimum_n : Z)
    (column : string * series) : Prop :=
  (too_few minimum_n column.2
   ∨ ∃ r, chi2_contingency lib (pd_crosstab lib cluster_series column.2) = Ok r)
  ∧ ∃ r, true_counts_by_cluster lib (pd_crosstab lib cluster_series column.2)
           (dtype_is_bool column.2) = Ok r.

End Notions.

(** * Concrete ontologies and inputs *)

Module Fixtures.
Import HpoClusterAnalyzer.

(** A is-a B is-a C. *)
Definition chain : HpoEnsmallen.t :=
  HpoEnsmallen.Hpo2EnsmallenParser [("A", "B"); ("B", "C")].

(** X is-a P and Y is-a P. *)
Definition siblings : HpoEnsmallen.t :=
  HpoEnsmallen.Hpo2EnsmallenParser [("X", "P"); ("Y", "P")].

(** X is-a P1 is-a R and X is-a P2 is-a R. *)
Definition diamond : HpoEnsmallen.t :=
  HpoEnsmallen.Hpo2EnsmallenParser [("X", "P1"); ("X", "P2"); ("P1", "R"); ("P2", "R")].

(** Scenario 1 of the spec: individuals p1 (annotated A, cluster 1) and p2
    (annotated C, cluster 2). *)
Definition scenario1_rows : list (string * string) := [("p1", "A"); ("p2", "C")].
Definition scenario1_clusters : list (string * string) := [("p1", "1"); ("p2", "2")].

(** The analyzer over the graph [hpo], its ontology object as the spec
    describes it. *)
Definition fresh_analyzer (hpo : HpoEnsmallen.t) : t :=
  __init__ (SemsimHpoEnsmallen.from_spec hpo).

(** The analyzer a call of [add_counts] leaves, [fresh_analyzer hpo] if it
    raised. *)
Definition analyzer_of (hpo : HpoEnsmallen.t) (r : result (t * process)) : t :=
  match r with
  | Ok (self, _) => self
  | Raise _ => fresh_analyzer hpo
  end.

Definition process_of (r : result (t * process)) : process :=
  match r with
  | Ok (_, p) => p
  | Raise _ => fresh_process
  end.

Definition is_ok {A} (r : result A) : bool :=
  match r with
  | Ok _ => true
  | Raise _ => false
  end.

(** An assignment with two individuals in two clusters, and annotation rows
    for the first of them only. *)
Definition one_annotated_of_two (hpo : SemsimHpoEnsmallen.t) : result (t * process) :=
  add_counts (__init__ hpo) [("p1", "A")] [("p1", "1"); ("p2", "2")] fresh_process.

(** Three individuals annotated A, one in each of three clusters. *)
Definition three_clusters : result (t * process) :=
  add_counts (fresh_analyzer chain) [("p1", "A"); ("p2", "A"); ("p3", "A")]
             [("p1", "1"); ("p2", "2"); ("p3", "3")] fresh_process.

(** A stand-in for the library primitive as the spec describes it: it
    refuses every table that is not 2 by 2; the numbers it returns are of no
    interest here. *)
Definition fisher_exact_2x2_only (table : list (list Z)) : result (float * float) :=
  match table with
  | [[_; _]; [_; _]] => Ok (1%float, 1%float)
  | _ => Raise (ValueError "The input `table` must be of shape (2, 2).")
  end.

(** A toy stand-in for pandas and scipy: the "table" of a column is its
    cells, the test answers p = 0.5 on a column that begins with "Male" and
    p = 0.125 on any other, and no per-cluster counts are reported. *)
Definition toy_library : library :=
  {| crosstab := list value;
     pd_crosstab := λ _ column, cells column;
     chi2_contingency := λ table,
       Ok (4%float,
           match table with VStr "Male" :: _ => 0.5%float | _ => 0.125%float end,
           1, []);
     true_counts_by_cluster := λ _ _, Ok (None, []);
     total_counts_by_cluster := λ _, [];
     index_str := λ _, [] |}.

(** A frame of three rows with a cluster column and three covariates: a
    [bool] column with a single [True], and two columns of factors. *)
Definition toy_frame : list (string * series) :=
  [("cluster", {| dtype_is_bool := false; cells := [VInt 1; VInt 2; VInt 1] |});
   ("diabetes", {| dtype_is_bool := true;
                   cells := [VBool true; VBool false; VBool false] |});
   ("gender", {| dtype_is_bool := false;
                 cells := [VStr "Male"; VStr "Female"; VStr "Male"] |});
   ("site", {| dtype_is_bool := false; cells := [VStr "a"; VStr "b"; VStr "c"] |})].

(** The rows of the uncorrected covariate report of [toy_frame]. *)
Definition toy_raw_rows : list (gmap string value) :=
  match do_chi_square_on_covariates toy_library toy_frame "cluster" 5 [] false with
  | Ok rows => rows
  | Raise _ => []
  end.

(** ** Further inputs *)

Definition cycle : HpoEnsmallen.t :=
  HpoEnsmallen.Hpo2EnsmallenParser [("A", "B"); ("B", "A")].

(** An assignment that names individual p1 twice. *)
Definition twice_assigned : list (string * string) := [("p1", "1"); ("p1", "2")].

(** Scenario 1 aggregated into a fresh analyzer. *)
Definition scenario1_first : result (t * process) :=
  add_counts (fresh_analyzer chain) scenario1_rows scenario1_clusters fresh_process.

(** One individual annotated only with X, over the diamond. *)
Definition diamond_run : result (t * process) :=
  add_counts (fresh_analyzer diamond) [("p1", "X")] [("p1", "1")] fresh_process.

(** An ontology object over the diamond that lists the ancestors of X path
    by path, so that R comes twice. *)
Definition diamond_by_paths : SemsimHpoEnsmallen.t :=
  {| SemsimHpoEnsmallen.node_exists := SemsimHpoEnsmallen.nodeExists diamond;
     SemsimHpoEnsmallen.get_ancestors := λ term d,
       (if decide (term = "X") then ["P1"; "R"; "P2"; "R"]
        else SemsimHpoEnsmallen.ancestorsOf diamond term, d) |}.

(** A first batch with cluster 9, and scenario 1 as the second batch into
    the same analyzer. *)
Definition first_batch : result (t * process) :=
  add_counts (fresh_analyzer chain) [("p0", "C")] [("p0", "9")] fresh_process.

Definition second_batch : result (t * process) :=
  add_counts (analyzer_of chain first_batch) scenario1_rows scenario1_clusters
             (process_of first_batch).

(** A stand-in for scipy's test that answers every table alike. *)
Definition chi2_contingency_stub (table : list (list Z))
    : result (float * float * Z * list (list float)) :=
  Ok (4%float, 0.5%float, 1, []).

(** The rows a report call returned, none if it raised; the analyzer and the
    interpreter state it left. *)
Definition rows_of (r : result (list (gmap string value) * t * process))
    : list (gmap string value) :=
  match r with
  | Ok (rows, _, _) => rows
  | Raise _ => []
  end.

Definition analyzer_after (hpo : HpoEnsmallen.t)
    (r : result (list (gmap string value) * t * process)) : t :=
  match r with
  | Ok (_, self, _) => self
  | Raise _ => fresh_analyzer hpo
  end.

Definition process_after_report (r : result (list (gmap string value) * t * process))
    : process :=
  match r with
  | Ok (_, _, p) => p
  | Raise _ => fresh_process
  end.

(** The chi-square report of scenario 1 on a fresh interpreter. *)
Definition scenario1_chi2 : result (list (gmap string value) * t * process) :=
  do_chi2 chi2_contingency_stub (analyzer_of chain scenario1_first)
          (process_of scenario1_first).

(** The Fisher report of scenario 1 on a fresh interpreter. *)
Definition scenario1_fisher : result (list (gmap string value) * t * process) :=
  do_fisher_exact fisher_exact_2x2_only (analyzer_of chain scenario1_first)
                  (process_of scenario1_first).

(** The chi-square report after the two batches. *)
Definition second_batch_chi2 : result (list (gmap string value) * t * process) :=
  do_chi2 chi2_contingency_stub (analyzer_of chain second_batch) (process_of second_batch).

(** A stand-in for pandas and scipy whose test always raises. *)
Definition failing_library : library :=
  {| crosstab := list value;
     pd_crosstab := λ _ column, cells column;
     chi2_contingency := λ _, Raise (ValueError "no test");
     true_counts_by_cluster := λ _ _, Ok (None, []);
     total_counts_by_cluster := λ _, [];
     index_str := λ _, [] |}.

End Fixtures.

(** * Proof automation *)

(** Closed decidable goals: membership in, or distinctness of, concrete lists
    and strings. *)
Ltac no_suffix := apply (bool_decide_unpack _); vm_compute; exact I.

(** * Lemmas and theorems *)

(** ** Termination of the descendant traversal *)

Module HpoEnsmallenFacts.
Import HpoEnsmallen Notions Fixtures.

Section Fuel.

Variable self : t.

Lemma neighbours_are_destinations (g : EnsmallenGraph) node n :
  n ∈ get_node_neighbours_name_by_node_name g node → n ∈ (λ e, e.2) <$> g.
Proof.
  unfold get_node_neighbours_name_by_node_name.
  intros [e [-> He]]%list_elem_of_fmap.
  apply list_elem_of_fmap. exists e. split; [done|].
  apply list_elem_of_In, filter_In in He. apply list_elem_of_In. tauto.
Qed.

Lemma filter_length_mono {A} (f g : A → bool) (l : list A) :
  (∀ x, x ∈ l → f x = true → g x = true) →
  (length (List.filter f l) ≤ length (List.filter g l))%nat.
Proof.
  induction l as [|a l IH]; intros Hfg; simpl; [lia|].
  assert (length (List.filter f l) ≤ length (List.filter g l))%nat as Hle.
  { apply IH. intros x Hx. apply Hfg. by right. }
  destruct (f a) eqn:Hf.
  - rewrite (Hfg a) by (done || left). simpl. lia.
  - destruct (g a); simpl; lia.
Qed.

Lemma filter_length_strict {A} (f g : A → bool) (l : list A) (a : A) :
  (∀ x, x ∈ l → f x = true → g x = true) →
  a ∈ l → f a = false → g a = true →
  (length (List.filter f l) < length (List.filter g l))%nat.
Proof.
  induction l as [|b l IH]; intros Hfg Ha Hfa Hga; [by apply elem_of_nil in Ha|].
  assert (length (List.filter f l) ≤ length (List.filter g l))%nat as Hle.
  { apply filter_length_mono. intros x Hx. apply Hfg. by right. }
  apply elem_of_cons in Ha as [<-|Ha]; simpl.
  - rewrite Hfa, Hga. simpl. lia.
  - assert (length (List.filter f l) < length (List.filter g l))%nat.
    { apply IH; try done. intros x Hx. apply Hfg. by right. }
    destruct (f b) eqn:Hf.
    + rewrite (Hfg b) by (done || left). simpl. lia.
    + destruct (g b); simpl; lia.
Qed.

Lemma unvisited_mono acc acc' :
  acc ⊆ acc' → (length (unvisited self acc') ≤ length (unvisited self acc))%nat.
Proof.
  intros Hsub. apply filter_length_mono. intros x _.
  rewrite !negb_true_iff, !bool_decide_eq_false. intros Hx Hx'. by apply Hx, Hsub.
Qed.

Lemma unvisited_append acc n :
  n ∈ (λ e, e.2) <$> graph_reversed_edges self → n ∉ acc →
  (length (unvisited self (acc ++ [n])) < length (unvisited self acc))%nat.
Proof.
  intros Hn Hacc. apply filter_length_strict with n; try done.
  - intros x _. rewrite !negb_true_iff, !bool_decide_eq_false.
    intros Hx Hx'. apply Hx, elem_of_app. by left.
  - rewrite negb_false_iff, bool_decide_eq_true. apply elem_of_app. right. by left.
  - by rewrite negb_true_iff, bool_decide_eq_false.
Qed.

Lemma unvisited_bound acc :
  (length (unvisited self acc) ≤ length (graph_reversed_edges self))%nat.
Proof.
  unfold unvisited. etransitivity; [apply List.filter_length_le|]. by rewrite length_fmap.
Qed.

(** The neighbour loop returns, and only ever extends the accumulator, as
    long as the recursion it is given does so on every accumulator with
    fewer than [bound] terms left to visit. *)
Lemma visit_neighbours_total (recurse : string → list string → option (list string))
    (bound : nat) :
  (∀ n acc, (length (unvisited self (acc ++ [n])) < bound)%nat →
     ∃ r, recurse n acc = Some r ∧ acc ++ [n] ⊆ r) →
  ∀ neighbours acc,
    (∀ n, n ∈ neighbours → n ∈ (λ e, e.2) <$> graph_reversed_edges self) →
    (length (unvisited self acc) ≤ bound)%nat →
    ∃ r, visit_neighbours recurse neighbours acc = Some r ∧ acc ⊆ r.
Proof.
  intros Hrec neighbours.
  induction neighbours as [|n rest IH]; intros acc Hdst Hacc; simpl.
  - by exists acc.
  - destruct (decide (n ∈ acc)) as [Hin|Hnin].
    + apply IH; [|done]. intros m Hm. apply Hdst. by right.
    + destruct (Hrec n acc) as (acc' & -> & Hsub).
      { eapply Nat.lt_le_trans; [apply unvisited_append; [apply Hdst; by left|done]|done]. }
      destruct (IH acc') as (r & Hr & Hsub').
      * intros m Hm. apply Hdst. by right.
      * etransitivity; [apply unvisited_mono|exact Hacc].
        intros x Hx. apply Hsub, elem_of_app. by left.
      * exists r. split; [done|]. intros x Hx. apply Hsub', Hsub, elem_of_app. by left.
Qed.

Lemma get_descendents_fuel_total fuel : ∀ hpo_term descendents,
  (length (unvisited self (descendents ++ [hpo_term])) < fuel)%nat →
  ∃ r, get_descendents_fuel fuel self hpo_term descendents = Some r
       ∧ descendents ++ [hpo_term] ⊆ r.
Proof.
  induction fuel as [|fuel IH]; intros hpo_term descendents Hlt; [lia|].
  simpl. apply visit_neighbours_total with (bound := fuel); [exact IH| |lia].
  intros n Hn. by eapply neighbours_are_destinations.
Qed.

(** [enough_fuel] is enough: [get_descendents] is the value the traversal
    returns, never the fall-back of its definition. *)
Lemma get_descendents_returns hpo_term descendents :
  get_descendents_fuel (enough_fuel self) self hpo_term descendents
  = Some (get_descendents self hpo_term descendents).
Proof.
  destruct (get_descendents_fuel_total (enough_fuel self) hpo_term descendents)
    as (r & Hr & _).
  - unfold enough_fuel. pose proof (unvisited_bound (descendents ++ [hpo_term])). lia.
  - unfold get_descendents. by rewrite Hr.
Qed.

End Fuel.

(** ** The closure the code computes *)

(** C1: on a fresh interpreter [get_ancestors("A")] over the chain
    A is-a B is-a C returns [A, B]: the grandparent C, two parent edges
    away, is missing; and over X is-a P, Y is-a P, [get_ancestors("X")]
    returns [X, P, Y], where Y is no ancestor of X. *)
Theorem get_ancestors_is_not_the_parent_closure :
  (HpoEnsmallen.call_get_ancestors chain "A" HpoEnsmallen.fresh_defaults).1 = ["A"; "B"]
  ∧ rtc (parent_of chain) "A" "C"
  ∧ (HpoEnsmallen.call_get_ancestors siblings "X" HpoEnsmallen.fresh_defaults).1
    = ["X"; "P"; "Y"]
  ∧ ¬ rtc (parent_of siblings) "X" "Y".
Proof.
  split; [by vm_compute|]. split; [|split; [by vm_compute|]].
  - apply rtc_l with "B"; [|apply rtc_once]; unfold parent_of; vm_compute; set_solver.
  - intros Hrtc. apply rtc_inv in Hrtc as [[=]|(p & Hp & Hrtc)].
    unfold parent_of in Hp. vm_compute in Hp.
    apply list_elem_of_singleton in Hp as ->.
    apply rtc_inv in Hrtc as [[=]|(p & Hp & _)].
    unfold parent_of in Hp. vm_compute in Hp. by apply elem_of_nil in Hp.
Qed.

(** C2: three calls in a row on one graph.  The first and the third ask for
    the ancestors of the same term and get different answers, because the
    list of the default argument still holds what earlier calls put there;
    [get_descendents] does the same with its own default list. *)
Theorem get_ancestors_keeps_its_accumulator :
  let first := HpoEnsmallen.call_get_ancestors chain "A" HpoEnsmallen.fresh_defaults in
  let second := HpoEnsmallen.call_get_ancestors chain "C" (first.2) in
  let third := HpoEnsmallen.call_get_ancestors chain "A" (second.2) in
  let below_c := HpoEnsmallen.call_get_descendents chain "C" HpoEnsmallen.fresh_defaults in
  let below_a := HpoEnsmallen.call_get_descendents chain "A" (below_c.2) in
  first.1 = ["A"; "B"] ∧ second.1 = ["A"; "B"; "C"] ∧ third.1 = ["A"; "B"; "C"; "A"]
  ∧ (HpoEnsmallen.call_get_descendents chain "A" HpoEnsmallen.fresh_defaults).1 = ["A"]
  ∧ below_a.1 = ["C"; "B"; "A"; "A"].
Proof. repeat split; vm_compute; reflexivity. Qed.

End HpoEnsmallenFacts.

(** ** What the traversals compute *)

Module HpoEnsmallenClosure.
Import HpoEnsmallen Notions Fixtures HpoEnsmallenFacts.

Section Closure.

Variable self : t.

Lemma extends_with_new_refl acc : extends_with_new acc acc.
Proof. exists []. rewrite app_nil_r. repeat split; [constructor|]. by intros x ?%elem_of_nil. Qed.

Lemma extends_with_new_subseteq acc r : extends_with_new acc r → acc ⊆ r.
Proof. intros (suffix & -> & _) x Hx. apply elem_of_app. by left. Qed.

Lemma extends_with_new_trans a b c :
  extends_with_new a b → extends_with_new b c → extends_with_new a c.
Proof.
  intros (s1 & -> & Hnd1 & Hnew1) (s2 & -> & Hnd2 & Hnew2).
  exists (s1 ++ s2). rewrite app_assoc. split; [done|]. split.
  - apply NoDup_app. split; [done|]. split; [|done].
    intros x Hx1 Hx2. apply (Hnew2 x Hx2), elem_of_app. by right.
  - intros x [Hx|Hx]%elem_of_app; [by apply Hnew1|].
    intros Ha. apply (Hnew2 x Hx), elem_of_app. by left.
Qed.

Lemma extends_with_new_snoc acc n : n ∉ acc → extends_with_new acc (acc ++ [n]).
Proof.
  intros Hn. exists [n]. split; [done|]. split; [apply NoDup_singleton|].
  by intros x ->%list_elem_of_singleton.
Qed.

Lemma avoiding_mono (R : string → string → Prop) acc acc' a b :
  acc ⊆ acc' → rtc (avoiding R acc') a b → rtc (avoiding R acc) a b.
Proof.
  intros Hsub. apply rtc_subrel. intros x y [HR Hy]. split; [done|]. intros ?. by apply Hy, Hsub.
Qed.

(** The neighbour loop, for a recursion that behaves on every unseen term. *)
Lemma visit_neighbours_traversal
    (recurse : string → list string → option (list string)) hpo_term acc :
  (∀ n a r, n ∉ a → recurse n a = Some r → traversal self n a r) →
  ∀ neighbours a r,
    visit_neighbours recurse neighbours a = Some r →
    (∀ n, n ∈ neighbours → child_of self hpo_term n) →
    acc ++ [hpo_term] ⊆ a →
    closed_from self (acc ++ [hpo_term]) a →
    (∀ x, x ∈ a → x ∈ acc ∨ rtc (avoiding (child_of self) acc) hpo_term x) →
    extends_with_new a r
    ∧ (∀ n, n ∈ neighbours → n ∈ r)
    ∧ closed_from self (acc ++ [hpo_term]) r
    ∧ (∀ x, x ∈ r → x ∈ acc ∨ rtc (avoiding (child_of self) acc) hpo_term x).
Proof.
  intros Hrec neighbours.
  induction neighbours as [|n rest IH]; intros a r Hvisit Hchild Hbase Hclosed Hsound.
  - simpl in Hvisit. injection Hvisit as <-.
    split; [apply extends_with_new_refl|]. split; [by intros n ?%elem_of_nil|done].
  - simpl in Hvisit. destruct (decide (n ∈ a)) as [Hin|Hnin].
    + destruct (IH a r Hvisit) as (Hext & Hall & Hcl & Hs); try done.
      { intros m Hm. apply Hchild. by right. }
      split; [done|]. split; [|done].
      intros m [->|Hm]%elem_of_cons; [|by apply Hall].
      by apply (extends_with_new_subseteq a r).
    + destruct (recurse n a) as [a'|] eqn:Hr; [|done].
      destruct (Hrec n a a' Hnin Hr) as (Hext1 & Hchildren1 & Hcl1 & Hs1).
      assert (a ⊆ a') as Hsub.
      { intros x Hx. apply (extends_with_new_subseteq _ _ Hext1), elem_of_app. by left. }
      assert (n ∈ a') as Hn.
      { apply (extends_with_new_subseteq _ _ Hext1), elem_of_app. right. by left. }
      assert (child_of self hpo_term n) as Hstep by (apply Hchild; by left).
      destruct (IH a' r Hvisit) as (Hext & Hall & Hcl & Hs).
      * intros m Hm. apply Hchild. by right.
      * intros x Hx. by apply Hsub, Hbase.
      * intros x c Hx Hxb Hc. destruct (decide (x ∈ a)) as [Hxa|Hxa].
        -- by apply Hsub, (Hclosed x c).
        -- destruct (decide (x = n)) as [->|Hne]; [by apply Hchildren1|].
           apply (Hcl1 x c); [done| |done].
           intros [?|?%list_elem_of_singleton]%elem_of_app; done.
      * intros x Hx. destruct (Hs1 x Hx) as [Hxa|Hreach]; [by apply Hsound|].
        right. apply rtc_l with n.
        { split; [done|]. intros Hacc. apply Hnin, Hbase, elem_of_app. by left. }
        eapply avoiding_mono; [|exact Hreach].
        intros y Hy. apply Hbase, elem_of_app. by left.
      * split; [|split; [|done]].
        -- eapply extends_with_new_trans; [|exact Hext].
           eapply extends_with_new_trans; [by apply extends_with_new_snoc|exact Hext1].
        -- intros m [->|Hm]%elem_of_cons; [|by apply Hall].
           by apply (extends_with_new_subseteq a' r).
Qed.

Lemma get_descendents_fuel_traversal fuel : ∀ hpo_term descendents r,
  get_descendents_fuel fuel self hpo_term descendents = Some r →
  traversal self hpo_term descendents r.
Proof.
  induction fuel as [|fuel IH]; intros hpo_term acc r Hr; [done|].
  simpl in Hr.
  eapply (visit_neighbours_traversal (get_descendents_fuel fuel self) hpo_term acc) in Hr
    as (Hext & Hall & Hcl & Hs).
  - done.
  - intros n a r' _. apply IH.
  - done.
  - done.
  - intros x c Hx Hxb. done.
  - intros x [Hx|Hx]%elem_of_app; [by left|].
    apply list_elem_of_singleton in Hx as ->. by right.
Qed.

Lemma get_descendents_traversal hpo_term descendents :
  traversal self hpo_term descendents (get_descendents self hpo_term descendents).
Proof. apply (get_descendents_fuel_traversal (enough_fuel self)), get_descendents_returns. Qed.

End Closure.

Section Answers.

Variable self : t.

Lemma traversal_reaches hpo_term acc r x :
  traversal self hpo_term acc r →
  rtc (avoiding (child_of self) acc) hpo_term x → x ∈ r ∧ (x = hpo_term ∨ x ∉ acc).
Proof.
  intros (Hext & Hchildren & Hclosed & _). revert x.
  apply (rtc_ind_r (λ x, x ∈ r ∧ (x = hpo_term ∨ x ∉ acc))); [|intros y z Hyz [Hchild Hz] [Hy Hy']].
  - split; [|by left]. apply (extends_with_new_subseteq _ _ Hext), elem_of_app. right. by left.
  - split; [|by right]. destruct (decide (y = hpo_term)) as [->|Hne]; [by apply Hchildren|].
    apply (Hclosed y z); [done| |done].
    intros [?|?%list_elem_of_singleton]%elem_of_app; [|done]. by destruct Hy'.
Qed.

(** X1: [get_descendents(hpo_term, descendents)] returns the accumulator it was
    given together with exactly the terms that a walk along child edges
    reaches from [hpo_term] without entering the accumulator. *)
Theorem get_descendents_reaches_around_accumulator hpo_term descendents x :
  x ∈ get_descendents self hpo_term descendents
  ↔ x ∈ descendents ∨ rtc (avoiding (child_of self) descendents) hpo_term x.
Proof.
  pose proof (get_descendents_traversal self hpo_term descendents) as Htr. split.
  - apply Htr.
  - intros [Hx|Hx].
    + destruct Htr as (Hext & _). apply (extends_with_new_subseteq _ _ Hext), elem_of_app. by left.
    + by apply (traversal_reaches hpo_term descendents).
Qed.

(** On a fresh accumulator the traversal returns the closure of the child
    relation. *)
Lemma fresh_traversal_closure hpo_term x :
  x ∈ get_descendents self hpo_term [] ↔ rtc (child_of self) hpo_term x.
Proof.
  pose proof (get_descendents_traversal self hpo_term []) as Htr. split.
  - intros Hx. destruct Htr as (_ & _ & _ & Hs). destruct (Hs x Hx) as [?%elem_of_nil|Hr]; [done|].
    eapply rtc_subrel; [|exact Hr]. by intros a b [? _].
  - intros Hr. apply (traversal_reaches hpo_term [] _ x Htr).
    eapply rtc_subrel; [|exact Hr]. intros a b ?. split; [done|]. by intros ?%elem_of_nil.
Qed.

(** X2: on an empty accumulator [get_descendents] returns the
    reflexive-transitive closure of the child relation, every term once and
    [hpo_term] first. *)
Theorem get_descendents_fresh_is_child_closure hpo_term :
  (∀ x, x ∈ get_descendents self hpo_term [] ↔ rtc (child_of self) hpo_term x)
  ∧ NoDup (get_descendents self hpo_term [])
  ∧ head (get_descendents self hpo_term []) = Some hpo_term.
Proof.
  pose proof (get_descendents_traversal self hpo_term []) as Htr.
  split; [|destruct Htr as ((suffix & -> & Hnd & Hnew) & _); split; [|done]].
  - intros x. split.
    + intros Hx. destruct Htr as (_ & _ & _ & Hs). destruct (Hs x Hx) as [?%elem_of_nil|Hr]; [done|].
      eapply rtc_subrel; [|exact Hr]. by intros a b [? _].
    + intros Hr. apply (traversal_reaches hpo_term [] _ x Htr).
      eapply rtc_subrel; [|exact Hr]. intros a b ?. split; [done|]. by intros ?%elem_of_nil.
  - simpl. constructor; [|done]. intros Hin. apply (Hnew _ Hin). by left.
Qed.

(** X3: [get_descendents] never drops or reorders what the accumulator holds:
    it appends [hpo_term], even when the accumulator holds it already, and
    after it terms that are new and pairwise different. *)
Theorem get_descendents_appends hpo_term descendents :
  ∃ suffix,
    get_descendents self hpo_term descendents = descendents ++ hpo_term :: suffix
    ∧ NoDup suffix
    ∧ ∀ x, x ∈ suffix → (x ∉ descendents) ∧ x ≠ hpo_term.
Proof.
  destruct (get_descendents_traversal self hpo_term descendents)
    as ((suffix & Heq & Hnd & Hnew) & _).
  exists suffix. rewrite Heq, <- app_assoc. split; [done|]. split; [done|].
  intros x Hx. specialize (Hnew x Hx). split.
  - intros ?. apply Hnew, elem_of_app. by left.
  - intros ->. apply Hnew, elem_of_app. right. by left.
Qed.

Lemma ancestors_loop_grows parents : ∀ a,
  a ⊆ foldl (λ ancestors neighbor,
               if decide (neighbor ∈ ancestors) then ancestors
               else get_descendents self neighbor ancestors) a parents.
Proof.
  induction parents as [|q rest IH]; intros a; simpl; [done|].
  destruct (decide (q ∈ a)); [apply IH|].
  etransitivity; [|apply IH].
  destruct (get_descendents_traversal self q a) as (He & _).
  intros x Hx. apply (extends_with_new_subseteq _ _ He), elem_of_app. by left.
Qed.

(** The loop of [get_ancestors] over the parents of [hpo_term]. *)
Lemma ancestors_loop hpo_term acc parents : ∀ a,
  (∀ p, p ∈ parents → parent_of self hpo_term p) →
  extends_with_new (acc ++ [hpo_term]) a →
  closed_from self (acc ++ [hpo_term]) a →
  (∀ x, x ∈ a → x ∈ acc ++ [hpo_term]
                ∨ ∃ p, parent_of self hpo_term p ∧ (p ∉ acc ++ [hpo_term])
                       ∧ rtc (avoiding (child_of self) (acc ++ [hpo_term])) p x) →
  let r := foldl (λ ancestors neighbor,
                    if decide (neighbor ∈ ancestors) then ancestors
                    else get_descendents self neighbor ancestors) a parents in
  extends_with_new (acc ++ [hpo_term]) r
  ∧ (∀ p, p ∈ parents → p ∈ r)
  ∧ closed_from self (acc ++ [hpo_term]) r
  ∧ (∀ x, x ∈ r → x ∈ acc ++ [hpo_term]
                ∨ ∃ p, parent_of self hpo_term p ∧ (p ∉ acc ++ [hpo_term])
                       ∧ rtc (avoiding (child_of self) (acc ++ [hpo_term])) p x).
Proof.
  induction parents as [|p rest IH]; intros a Hpar Hext Hclosed Hsound; simpl.
  - split; [done|]. split; [by intros p ?%elem_of_nil|done].
  - destruct (decide (p ∈ a)) as [Hin|Hnin].
    + destruct (IH a) as (Hext' & Hall & Hcl & Hs); try done.
      { intros q Hq. apply Hpar. by right. }
      split; [done|]. split; [|done].
      intros q [->|Hq]%elem_of_cons; [|by apply Hall].
      by apply ancestors_loop_grows.
    + destruct (get_descendents_traversal self p a) as (Hext1 & Hchildren1 & Hcl1 & Hs1).
      set (a' := get_descendents self p a) in *.
      assert (acc ++ [hpo_term] ⊆ a) as Hbase by by apply extends_with_new_subseteq.
      assert (a ⊆ a') as Hsub.
      { intros x Hx. apply (extends_with_new_subseteq _ _ Hext1), elem_of_app. by left. }
      assert (p ∈ a') as Hp.
      { apply (extends_with_new_subseteq _ _ Hext1), elem_of_app. right. by left. }
      destruct (IH a') as (Hext' & Hall & Hcl & Hs).
      * intros q Hq. apply Hpar. by right.
      * eapply extends_with_new_trans; [exact Hext|].
        eapply extends_with_new_trans; [by apply extends_with_new_snoc|exact Hext1].
      * intros x c Hx Hxb Hc. destruct (decide (x ∈ a)) as [Hxa|Hxa].
        -- by apply Hsub, (Hclosed x c).
        -- destruct (decide (x = p)) as [->|Hne]; [by apply Hchildren1|].
           apply (Hcl1 x c); [done| |done].
           intros [?|?%list_elem_of_singleton]%elem_of_app; done.
      * intros x Hx. destruct (Hs1 x Hx) as [Hxa|Hreach]; [by apply Hsound|].
        right. exists p. split; [apply Hpar; by left|]. split; [by intros ?%Hbase|].
        by eapply avoiding_mono.
      * split; [done|]. split; [|done].
        intros q [->|Hq]%elem_of_cons; [|by apply Hall].
        by apply ancestors_loop_grows.
Qed.

Lemma get_ancestors_extends hpo_term ancestors :
  extends_with_new (ancestors ++ [hpo_term]) (get_ancestors self hpo_term ancestors).
Proof.
  unfold get_ancestors.
  destruct (ancestors_loop hpo_term ancestors
              (get_node_neighbours_name_by_node_name (graph self) hpo_term)
              (ancestors ++ [hpo_term])) as (Hext & _); try done.
  - apply extends_with_new_refl.
  - by intros y c Hy Hyb.
  - intros y Hy. by left.
Qed.

(** X4: what [get_ancestors(hpo_term, ancestors)] returns: the accumulator,
    [hpo_term], and for every parent of [hpo_term] that is neither, the terms
    a walk along child edges reaches from that parent without entering the
    accumulator or [hpo_term]. *)
Theorem get_ancestors_walks_down_from_parents hpo_term ancestors x :
  x ∈ get_ancestors self hpo_term ancestors
  ↔ x ∈ ancestors ∨ x = hpo_term
    ∨ ∃ p, parent_of self hpo_term p ∧ (p ∉ ancestors ++ [hpo_term])
           ∧ rtc (avoiding (child_of self) (ancestors ++ [hpo_term])) p x.
Proof.
  unfold get_ancestors.
  destruct (ancestors_loop hpo_term ancestors
              (get_node_neighbours_name_by_node_name (graph self) hpo_term)
              (ancestors ++ [hpo_term])) as (Hext & Hall & Hcl & Hs).
  - done.
  - apply extends_with_new_refl.
  - by intros y c Hy Hyb.
  - intros y Hy. by left.
  - split.
    + intros Hx. destruct (Hs x Hx) as [[?|?%list_elem_of_singleton]%elem_of_app|?]; auto.
    + intros [Hx|[->|(p & Hp & Hpb & Hreach)]].
      * apply (extends_with_new_subseteq _ _ Hext), elem_of_app. by left.
      * apply (extends_with_new_subseteq _ _ Hext), elem_of_app. right. by left.
      * revert x Hreach.
        apply (rtc_ind_r (λ x, x ∈ _ ∧ x ∉ ancestors ++ [hpo_term]));
          [|intros y z _ [Hchild Hz] [Hy Hy']].
        -- split; [by apply Hall|done].
        -- split; [|done]. by apply (Hcl y z).
Qed.

End Answers.

Section Depth.

Variable self : t.

Lemma visit_neighbours_more (recurse recurse' : string → list string → option (list string)) :
  (∀ n a r, recurse n a = Some r → recurse' n a = Some r) →
  ∀ neighbours a r,
    visit_neighbours recurse neighbours a = Some r →
    visit_neighbours recurse' neighbours a = Some r.
Proof.
  intros Hrec neighbours. induction neighbours as [|n rest IH]; intros a r; simpl; [done|].
  destruct (decide (n ∈ a)); [apply IH|].
  destruct (recurse n a) as [a'|] eqn:Hr; [|done].
  rewrite (Hrec n a a' Hr). apply IH.
Qed.

Lemma get_descendents_fuel_more fuel : ∀ fuel' hpo_term descendents r,
  (fuel ≤ fuel')%nat →
  get_descendents_fuel fuel self hpo_term descendents = Some r →
  get_descendents_fuel fuel' self hpo_term descendents = Some r.
Proof.
  induction fuel as [|fuel IH]; intros fuel' hpo_term acc r Hle; [done|].
  destruct fuel' as [|fuel']; [lia|]. simpl.
  apply visit_neighbours_more. intros n a r'. apply IH. lia.
Qed.

(** X5: the traversal of [get_descendents] ends on every graph, cycles
    included: a recursion depth of one more than the number of edges is
    never exceeded, whatever the term and the accumulator, and more depth
    changes nothing. *)
Theorem get_descendents_terminates fuel hpo_term descendents :
  (enough_fuel self ≤ fuel)%nat →
  get_descendents_fuel fuel self hpo_term descendents
  = Some (get_descendents self hpo_term descendents).
Proof.
  intros Hle. eapply get_descendents_fuel_more; [exact Hle|]. apply get_descendents_returns.
Qed.

(** X6: a call of [get_ancestors] or [get_descendents] that leaves out the
    accumulator returns the default list of the method itself, which is what
    it was before with [hpo_term] and possibly more appended; the default
    list of the other method is not touched. *)
Theorem default_lists_only_grow hpo_term d :
  (∃ suffix,
     (call_get_ancestors self hpo_term d).1 = ancestors_default d ++ hpo_term :: suffix
     ∧ ancestors_default (call_get_ancestors self hpo_term d).2
       = (call_get_ancestors self hpo_term d).1
     ∧ descendents_default (call_get_ancestors self hpo_term d).2 = descendents_default d)
  ∧ (∃ suffix,
       (call_get_descendents self hpo_term d).1 = descendents_default d ++ hpo_term :: suffix
       ∧ descendents_default (call_get_descendents self hpo_term d).2
         = (call_get_descendents self hpo_term d).1
       ∧ ancestors_default (call_get_descendents self hpo_term d).2 = ancestors_default d).
Proof.
  split.
  - destruct (get_ancestors_extends self hpo_term (ancestors_default d)) as (suffix & Heq & _).
    exists suffix. unfold call_get_ancestors. simpl. by rewrite Heq, <- app_assoc.
  - destruct (get_descendents_traversal self hpo_term (descendents_default d))
      as ((suffix & Heq & _) & _).
    exists suffix. unfold call_get_descendents. simpl. by rewrite Heq, <- app_assoc.
Qed.

End Depth.

Lemma get_descendents_terminates_witness :
  get_descendents_fuel 3 cycle "A" [] = Some ["A"; "B"].
Proof.
  rewrite (get_descendents_terminates cycle 3 "A" []).
  - vm_compute. reflexivity.
  - vm_compute. lia.
Defined.

(** The closure of the spec's ontology object is the reflexive-transitive
    closure of the parent relation, every term once. *)
Lemma ancestorsOf_closure (g : t) term x :
  x ∈ SemsimHpoEnsmallen.ancestorsOf g term ↔ rtc (parent_of g) term x.
Proof. unfold SemsimHpoEnsmallen.ancestorsOf. by rewrite fresh_traversal_closure. Qed.

(** The closure of a term of the graph holds terms of the graph only. *)
Lemma ancestorsOf_known (g : t) term x :
  SemsimHpoEnsmallen.nodeExists g term = true →
  x ∈ SemsimHpoEnsmallen.ancestorsOf g term →
  SemsimHpoEnsmallen.nodeExists g x = true.
Proof.
  intros Hterm Hx%ancestorsOf_closure. revert x Hx.
  apply (rtc_ind_r (λ y, SemsimHpoEnsmallen.nodeExists g y = true)); [done|].
  intros y z _ Hyz _. unfold parent_of in Hyz.
  apply neighbours_are_destinations in Hyz.
  unfold SemsimHpoEnsmallen.nodeExists. apply bool_decide_eq_true.
  apply elem_of_app. by right.
Qed.

Lemma ancestorsOf_NoDup (g : t) term : NoDup (SemsimHpoEnsmallen.ancestorsOf g term).
Proof.
  unfold SemsimHpoEnsmallen.ancestorsOf.
  match goal with |- NoDup (get_descendents ?s _ _) =>
    destruct (get_descendents_traversal s term []) as ((suffix & -> & Hnd & Hnew) & _) end.
  simpl. constructor; [|done]. intros Hin. apply (Hnew _ Hin). by left.
Qed.

End HpoEnsmallenClosure.

(** ** The aggregation pass *)

Module AggregationLemmas.
Import HpoClusterAnalyzer Notions Fixtures.

Lemma count_at_incr_int m k k' :
  count_at (incr_int m k) k' = count_at m k' + (if decide (k = k') then 1 else 0).
Proof.
  unfold count_at, incr_int. destruct (decide (k = k')) as [->|Hne].
  - by rewrite lookup_insert_eq.
  - rewrite lookup_insert_ne by done. lia.
Qed.

Lemma term_steps_effect hpo l : ∀ terms induced p,
  ∃ induced' d',
    foldl (term_step hpo) (terms, induced, p) l
    = (list_to_set l ∪ terms, induced',
       {| hpo_defaults := d'; warnings := warnings p ++ unknown_warnings hpo l |}).
Proof.
  induction l as [|hpo_id l IH]; intros terms induced p; simpl.
  - exists induced, (hpo_defaults p). unfold unknown_warnings. simpl.
    rewrite app_nil_r. destruct p. f_equal. f_equal. set_solver.
  - unfold unknown_warnings. simpl.
    destruct (SemsimHpoEnsmallen.node_exists hpo hpo_id) eqn:Hex; simpl.
    + destruct (SemsimHpoEnsmallen.get_ancestors hpo hpo_id (hpo_defaults p)) as [ancs d].
      edestruct IH as (induced' & d' & ->).
      exists induced', d'. simpl. f_equal. f_equal. set_solver.
    + edestruct IH as (induced' & d' & ->).
      exists induced', d'. simpl. rewrite <- app_assoc. simpl.
      f_equal. f_equal. set_solver.
Qed.

Lemma patient_step_effect cluster_dict self p patient_id hpo_id_list self' p' :
  patient_step cluster_dict (self, p) (patient_id, hpo_id_list) = Ok (self', p') →
  ∃ cluster,
    cluster_dict !! patient_id = Some cluster
    ∧ _per_cluster_total_pt_count self' = incr_int (_per_cluster_total_pt_count self) cluster
    ∧ _total_patients self' = _total_patients self + 1
    ∧ _clusters self' = _clusters self
    ∧ _hpo self' = _hpo self
    ∧ _hpo_terms self' = list_to_set hpo_id_list ∪ _hpo_terms self
    ∧ warnings p' = warnings p ++ unknown_warnings (_hpo self) hpo_id_list
    ∧ (∀ c, c ≠ cluster →
         _percluster_termcounts self' !! c = _percluster_termcounts self !! c).
Proof.
  unfold patient_step.
  destruct (cluster_dict !! patient_id) as [cluster|] eqn:Hc; [|done].
  destruct (term_steps_effect (_hpo self) hpo_id_list (_hpo_terms self) ∅ p)
    as (induced' & d' & ->).
  intros [= <- <-]. exists cluster. simpl. repeat split; try done.
  intros c Hne.
  assert (∀ l' (m : gmap string (gmap string Z)),
            foldl (λ tc hpo_id, alter (λ m, incr_int m hpo_id) cluster tc) m l' !! c
            = m !! c) as Hfold.
  { induction l' as [|x l' IH]; intros m; simpl; [done|].
    rewrite IH. by apply lookup_alter_ne. }
  rewrite Hfold. destruct (_percluster_termcounts self !! cluster); [done|].
  by apply lookup_insert_ne.
Qed.

Lemma patient_step_returns cluster_dict acc patient_id hpo_id_list :
  is_Some (cluster_dict !! patient_id) →
  ∃ acc', patient_step cluster_dict acc (patient_id, hpo_id_list) = Ok acc'.
Proof.
  intros [cluster Hc]. destruct acc as [self p]. unfold patient_step. rewrite Hc.
  destruct (term_steps_effect (_hpo self) hpo_id_list (_hpo_terms self) ∅ p)
    as (induced' & d' & ->).
  eauto.
Qed.

Lemma patient_loop_effect cluster_dict entries : ∀ self p self' p',
  patient_loop cluster_dict (self, p) entries = Ok (self', p') →
  (∀ c, count_at (_per_cluster_total_pt_count self') c
        = count_at (_per_cluster_total_pt_count self) c
          + Z.of_nat (entries_in cluster_dict c (entries.*1)))
  ∧ _total_patients self' = _total_patients self + Z.of_nat (length entries)
  ∧ _clusters self' = _clusters self
  ∧ _hpo self' = _hpo self
  ∧ _hpo_terms self' = list_to_set (concat (entries.*2)) ∪ _hpo_terms self
  ∧ warnings p' = warnings p ++ unknown_warnings (_hpo self) (concat (entries.*2))
  ∧ (∀ c, entries_in cluster_dict c (entries.*1) = 0%nat →
       _percluster_termcounts self' !! c = _percluster_termcounts self !! c
       ∧ _per_cluster_total_pt_count self' !! c = _per_cluster_total_pt_count self !! c).
Proof.
  induction entries as [|[patient_id hpo_id_list] entries IH]; intros self p self' p'.
  - intros [= <- <-]. unfold entries_in, unknown_warnings. simpl.
    rewrite app_nil_r. repeat split; try done; try lia. set_solver.
  - destruct (patient_step cluster_dict (self, p) (patient_id, hpo_id_list))
      as [e|[self1 p1]] eqn:Hstep;
      change (patient_loop cluster_dict (self, p) ((patient_id, hpo_id_list) :: entries))
        with (patient_step cluster_dict (self, p) (patient_id, hpo_id_list)
              ≫= λ acc', patient_loop cluster_dict acc' entries);
      rewrite Hstep; simpl; [done|].
    intros Hloop. apply IH in Hloop as (Htot & Hn & Hcl & Hhpo & Hterms & Hwarn & Hother).
    apply patient_step_effect in Hstep
      as (cluster & Hc & Htot1 & Hn1 & Hcl1 & Hhpo1 & Hterms1 & Hwarn1 & Hother1).
    assert (∀ c, entries_in cluster_dict c (patient_id :: entries.*1)
                 = ((if decide (cluster = c) then 1 else 0)
                    + entries_in cluster_dict c (entries.*1))%nat) as Hcount.
    { intros c. unfold entries_in. simpl. rewrite filter_cons, Hc.
      destruct (decide (cluster = c)) as [->|Hne].
      - by rewrite decide_True.
      - by rewrite decide_False by congruence. }
    split; [|split; [|split; [|split; [|split; [|split]]]]].
    + intros c. rewrite Htot, Htot1, count_at_incr_int, Hcount.
      destruct (decide (cluster = c)); lia.
    + lia.
    + congruence.
    + congruence.
    + rewrite Hterms, Hterms1. set_solver.
    + rewrite Hwarn, Hwarn1, Hhpo1. unfold unknown_warnings.
      rewrite List.filter_app, fmap_app. by rewrite app_assoc.
    + intros c. rewrite Hcount. destruct (decide (cluster = c)) as [->|Hne]; [lia|].
      intros Hz. destruct (Hother c Hz) as [-> ->]. split.
      * by apply Hother1.
      * rewrite Htot1. unfold incr_int. by apply lookup_insert_ne.
Qed.

Lemma list_set_length_NoDup (l : list string) :
  length l = length (list_set l) → NoDup l.
Proof.
  unfold list_set.
  assert (∀ l : list string, (length (elements (list_to_set l : gset string)) ≤ length l)%nat)
    as Hle.
  { clear l. intros l.
    assert ((list_to_set l : gset string) = list_to_set (remove_dups l)) as ->.
    { apply set_eq. intros x. by rewrite !elem_of_list_to_set, elem_of_remove_dups. }
    rewrite elements_list_to_set by apply NoDup_remove_dups.
    induction l as [|x l IH]; simpl; [done|]. case_decide; simpl; lia. }
  induction l as [|x l IH]; intros Hlen; [constructor|].
  destruct (decide (x ∈ l)) as [Hin|Hnin].
  - exfalso. assert ((list_to_set (x :: l) : gset string) = list_to_set l) as Heq.
    { apply set_eq. intros y. rewrite !elem_of_list_to_set. set_solver. }
    rewrite Heq in Hlen. specialize (Hle l). simpl in Hlen. lia.
  - constructor; [done|]. apply IH.
    rewrite list_to_set_cons, elements_disj_union in Hlen by set_solver.
    rewrite elements_singleton in Hlen. simpl in Hlen. lia.
Qed.

Lemma NoDup_list_set_length (l : list string) :
  NoDup l → length l = length (list_set l).
Proof. intros Hl. unfold list_set. by rewrite elements_list_to_set. Qed.

Lemma cluster_dict_lookup ca pid c :
  NoDup (ca.*1) → cluster_dict_of ca !! pid = Some c ↔ (pid, c) ∈ ca.
Proof.
  unfold cluster_dict_of. induction ca as [|[pid' c'] ca IH] using rev_ind; intros Hnd.
  - simpl. rewrite lookup_empty. split; [done|]. by intros ?%elem_of_nil.
  - rewrite fmap_app in Hnd. apply NoDup_app in Hnd as (Hnd & Hnotin & _).
    rewrite foldl_app. simpl. rewrite elem_of_app, list_elem_of_singleton.
    destruct (decide (pid' = pid)) as [->|Hne].
    + rewrite lookup_insert_eq. split.
      * intros [= ->]. by right.
      * intros [Hin|[= ->]]; [|done]. exfalso. apply (Hnotin pid).
        -- apply list_elem_of_fmap. by exists (pid, c).
        -- simpl. by left.
    + rewrite lookup_insert_ne by done. rewrite IH by done.
      split; [by left|]. intros [?|[= -> ->]]; done.
Qed.

Lemma sorted_insert_perm k ks : sorted_insert k ks ≡ₚ k :: ks.
Proof.
  induction ks as [|k' ks IH]; simpl; [done|].
  destruct (String.leb k k'); [done|]. rewrite IH. apply Permutation_swap.
Qed.

Lemma sort_keys_perm ks : sort_keys ks ≡ₚ ks.
Proof.
  induction ks as [|k ks IH]; simpl; [done|]. by rewrite sorted_insert_perm, IH.
Qed.

Lemma groupby_keys rows : (groupby_apply_list rows).*1 ≡ₚ remove_dups (rows.*1).
Proof.
  unfold groupby_apply_list. rewrite <- list_fmap_compose.
  rewrite (list_fmap_ext _ id (sort_keys (remove_dups rows.*1)) ) by done.
  rewrite list_fmap_id. apply sort_keys_perm.
Qed.

Lemma patient_loop_inv cluster_dict entries : ∀ acc acc',
  patient_loop cluster_dict acc entries = Ok acc' →
  ∀ pid, pid ∈ entries.*1 → is_Some (cluster_dict !! pid).
Proof.
  induction entries as [|[patient_id hpo_id_list] entries IH]; intros [self p] acc';
    [by intros _ pid ?%elem_of_nil|].
  change (patient_loop cluster_dict (self, p) ((patient_id, hpo_id_list) :: entries))
    with (patient_step cluster_dict (self, p) (patient_id, hpo_id_list)
          ≫= λ acc1, patient_loop cluster_dict acc1 entries).
  destruct (patient_step cluster_dict (self, p) (patient_id, hpo_id_list))
    as [e|[self1 p1]] eqn:Hstep; simpl; [done|].
  intros Hloop pid [->|Hin]%elem_of_cons.
  - apply patient_step_effect in Hstep as (cluster & Hc & _). eauto.
  - by eapply IH.
Qed.

Lemma patient_loop_returns cluster_dict entries : ∀ acc,
  (∀ pid, pid ∈ entries.*1 → is_Some (cluster_dict !! pid)) →
  ∃ acc', patient_loop cluster_dict acc entries = Ok acc'.
Proof.
  induction entries as [|[patient_id hpo_id_list] entries IH]; intros acc Hall; [by eexists|].
  change (patient_loop cluster_dict acc ((patient_id, hpo_id_list) :: entries))
    with (patient_step cluster_dict acc (patient_id, hpo_id_list)
          ≫= λ acc1, patient_loop cluster_dict acc1 entries).
  destruct (patient_step_returns cluster_dict acc patient_id hpo_id_list) as [acc1 ->].
  { apply Hall. by left. }
  simpl. apply IH. intros pid Hpid. apply Hall. by right.
Qed.

Lemma groupby_values rows t :
  t ∈ concat ((groupby_apply_list rows).*2) ↔ t ∈ rows.*2.
Proof.
  unfold groupby_apply_list. rewrite <- list_fmap_compose.
  rewrite list_elem_of_In, in_concat. setoid_rewrite <- list_elem_of_In. split.
  - intros (group & Hgroup & Ht). apply list_elem_of_fmap in Hgroup as (k & -> & _).
    simpl in Ht. apply list_elem_of_fmap in Ht as (r & -> & Hr).
    apply list_elem_of_In, filter_In in Hr as [Hr _].
    apply list_elem_of_fmap. exists r. by rewrite list_elem_of_In.
  - intros ([k t'] & -> & Hr)%list_elem_of_fmap.
    exists ((λ r, r.2) <$> List.filter (λ r, bool_decide (r.1 = k)) rows). split.
    + apply list_elem_of_fmap. exists k. split; [done|].
      rewrite sort_keys_perm, elem_of_remove_dups.
      apply list_elem_of_fmap. by exists (k, t').
    + apply list_elem_of_fmap. exists (k, t'). split; [done|].
      apply list_elem_of_In, filter_In. split; [by apply list_elem_of_In|].
      by apply bool_decide_eq_true.
Qed.

Lemma entries_in_groupby ca rows c :
  NoDup (ca.*1) →
  entries_in (cluster_dict_of ca) c ((groupby_apply_list rows).*1) = individuals_in ca c rows.
Proof.
  intros Hnd. unfold entries_in, individuals_in. rewrite groupby_keys.
  f_equal. apply list_filter_iff. intros pid. by apply cluster_dict_lookup.
Qed.

(** What a successful [add_counts] has done. *)
Lemma add_counts_effect self rows ca p self' p' :
  add_counts self rows ca p = Ok (self', p') →
  NoDup (ca.*1)
  ∧ (∀ pid, pid ∈ rows.*1 → pid ∈ ca.*1)
  ∧ (∀ c, count_at (_per_cluster_total_pt_count self') c
          = count_at (_per_cluster_total_pt_count self) c
            + Z.of_nat (individuals_in ca c rows))
  ∧ _total_patients self'
    = _total_patients self + Z.of_nat (length (remove_dups (rows.*1)))
  ∧ (∀ c, c ∈ _clusters self' ↔ c ∈ ca.*2)
  ∧ NoDup (_clusters self')
  ∧ _hpo self' = _hpo self
  ∧ (∀ t, t ∈ _hpo_terms self' ↔ t ∈ rows.*2 ∨ t ∈ _hpo_terms self)
  ∧ (∀ w, w ∈ warnings p' ↔
          w ∈ warnings p
          ∨ ∃ t, t ∈ rows.*2 ∧ SemsimHpoEnsmallen.node_exists (_hpo self) t = false
                 ∧ w = unknown_warning t)
  ∧ (∀ c, c ∉ ca.*2 →
       _percluster_termcounts self' !! c = _percluster_termcounts self !! c
       ∧ _per_cluster_total_pt_count self' !! c = _per_cluster_total_pt_count self !! c).
Proof.
  unfold add_counts.
  destruct (bool_decide (length ca.*1 = length (list_set ca.*1))) eqn:Hlen; simpl; [|done].
  apply bool_decide_eq_true, list_set_length_NoDup in Hlen.
  fold (cluster_dict_of ca). intros Hloop.
  pose proof (patient_loop_inv _ _ _ _ Hloop) as Hall.
  apply patient_loop_effect in Hloop
    as (Htot & Hn & Hcl & Hhpo & Hterms & Hwarn & Hother).
  simpl in *.
  assert (∀ c, c ∈ ca.*2 ↔ ∃ pid, cluster_dict_of ca !! pid = Some c) as Hvals.
  { intros c. rewrite list_elem_of_fmap. split.
    - intros ([pid c'] & -> & Hin). exists pid. by apply cluster_dict_lookup.
    - intros [pid Hpid]. exists (pid, c). split; [done|]. by apply cluster_dict_lookup. }
  split; [done|]. split.
  { intros pid Hpid. destruct (Hall pid) as [c Hc].
    - rewrite groupby_keys. by apply elem_of_remove_dups.
    - apply list_elem_of_fmap. exists (pid, c). split; [done|]. by apply cluster_dict_lookup. }
  split. { intros c. by rewrite Htot, entries_in_groupby. }
  split. { rewrite Hn. by rewrite <- (length_fmap fst), groupby_keys. }
  split.
  { intros c. rewrite Hcl, Hvals. unfold list_set.
    rewrite elem_of_elements, elem_of_list_to_set, list_elem_of_fmap. split.
    - intros ([pid c'] & -> & Hin%elem_of_map_to_list). by exists pid.
    - intros [pid Hpid]. exists (pid, c). split; [done|]. by apply elem_of_map_to_list. }
  split. { rewrite Hcl. unfold list_set. apply NoDup_elements. }
  split; [done|]. split.
  { intros t. rewrite Hterms, elem_of_union, elem_of_list_to_set. by rewrite groupby_values. }
  split.
  { intros w. rewrite Hwarn, elem_of_app. unfold unknown_warnings.
    rewrite list_elem_of_fmap. split.
    - intros [?|(t & -> & Hin)]; [by left|right].
      apply list_elem_of_In, filter_In in Hin as [Hin Hex].
      exists t. rewrite <- groupby_values, list_elem_of_In.
      by rewrite negb_true_iff in Hex.
    - intros [?|(t & Hin & Hex & ->)]; [by left|right].
      exists t. split; [done|]. apply list_elem_of_In, filter_In.
      rewrite <- list_elem_of_In, groupby_values. by rewrite Hex. }
  intros c Hc. apply Hother. unfold entries_in.
  apply length_zero_iff_nil. clear -Hc Hvals.
  induction ((groupby_apply_list rows).*1) as [|pid l IH]; [done|].
  rewrite filter_cons_False; [exact IH|]. intros Hpid. apply Hc, Hvals. eauto.
Qed.

Lemma add_counts_returns self rows ca p :
  NoDup (ca.*1) → (∀ pid, pid ∈ rows.*1 → pid ∈ ca.*1) →
  ∃ r, add_counts self rows ca p = Ok r.
Proof.
  intros Hnd Hall. unfold add_counts.
  rewrite bool_decide_eq_true_2 by by apply NoDup_list_set_length. simpl.
  apply patient_loop_returns. fold (cluster_dict_of ca). intros pid Hpid.
  rewrite groupby_keys, elem_of_remove_dups in Hpid.
  apply Hall, list_elem_of_fmap in Hpid as ([pid' c] & -> & Hin).
  exists c. by apply cluster_dict_lookup.
Qed.

Lemma term_steps_unknown hpo l : ∀ terms induced p,
  Forall (λ t, SemsimHpoEnsmallen.node_exists hpo t = false) l →
  foldl (term_step hpo) (terms, induced, p) l
  = (list_to_set l ∪ terms, induced,
     {| hpo_defaults := hpo_defaults p;
        warnings := warnings p ++ (unknown_warning <$> l) |}).
Proof.
  induction l as [|t l IH]; intros terms induced p Hall.
  - simpl. rewrite app_nil_r. destruct p. f_equal. f_equal. set_solver.
  - apply Forall_cons in Hall as [Ht Hall]. simpl. rewrite Ht.
    rewrite IH by done. simpl. rewrite <- app_assoc. f_equal. f_equal. set_solver.
Qed.

(** *** The term counts *)

Lemma term_step_known hpo terms induced p hpo_id :
  SemsimHpoEnsmallen.node_exists hpo hpo_id = true →
  term_step hpo (terms, induced, p) hpo_id
  = ({[hpo_id]} ∪ terms,
     {[hpo_id]} ∪ induced
       ∪ list_to_set (SemsimHpoEnsmallen.get_ancestors hpo hpo_id (hpo_defaults p)).1,
     {| hpo_defaults := (SemsimHpoEnsmallen.get_ancestors hpo hpo_id (hpo_defaults p)).2;
        warnings := warnings p |}).
Proof.
  intros Hex. unfold term_step. rewrite Hex.
  by destruct (SemsimHpoEnsmallen.get_ancestors hpo hpo_id (hpo_defaults p)).
Qed.

Lemma term_step_unknown hpo terms induced p hpo_id :
  SemsimHpoEnsmallen.node_exists hpo hpo_id = false →
  term_step hpo (terms, induced, p) hpo_id
  = ({[hpo_id]} ∪ terms, induced, warn (unknown_warning hpo_id) p).
Proof. intros Hex. unfold term_step. by rewrite Hex. Qed.

Lemma term_steps_split hpo l : ∀ terms induced p,
  foldl (term_step hpo) (terms, induced, p) l
  = (list_to_set l ∪ terms, induced_from hpo induced p l, process_from hpo induced p l).
Proof.
  unfold induced_from, process_from.
  induction l as [|t l IH]; intros terms induced p; cbn [foldl].
  - cbn [fst snd]. f_equal. f_equal. set_solver.
  - destruct (SemsimHpoEnsmallen.node_exists hpo t) eqn:Hex.
    + rewrite !term_step_known by done. rewrite IH. rewrite (IH ({[t]} ∪ ∅)).
      cbn [fst snd]. f_equal. f_equal. set_solver.
    + rewrite !term_step_unknown by done. rewrite IH. rewrite (IH ({[t]} ∪ ∅)).
      cbn [fst snd]. f_equal. f_equal. set_solver.
Qed.

(** What the induced set of an individual holds: the known terms of the
    individual and what the ontology object returned for them, nothing
    else. *)
Lemma term_steps_induced hpo l : ∀ induced p,
  induced ⊆ induced_from hpo induced p l
  ∧ (∀ x, x ∈ l → SemsimHpoEnsmallen.node_exists hpo x = true →
       x ∈ induced_from hpo induced p l
       ∧ ∃ d, list_to_set (SemsimHpoEnsmallen.get_ancestors hpo x d).1
              ⊆ induced_from hpo induced p l)
  ∧ (∀ t, t ∈ induced_from hpo induced p l →
       t ∈ induced
       ∨ ∃ x, x ∈ l ∧ SemsimHpoEnsmallen.node_exists hpo x = true
              ∧ (t = x ∨ in_closure_of hpo x t)).
Proof.
  unfold induced_from.
  induction l as [|x l IH]; intros induced p; cbn [foldl].
  - cbn [fst snd]. split; [done|]. split; [by intros x ?%elem_of_nil|]. intros t Ht. by left.
  - destruct (SemsimHpoEnsmallen.node_exists hpo x) eqn:Hex.
    + rewrite term_step_known by done. rewrite term_steps_split. cbn [fst snd].
      unfold induced_from.
      match goal with |- context [foldl _ (∅, ?i, ?q) l] =>
        destruct (IH i q) as (Hsub & Hknown & Honly) end.
      split; [|split].
      * intros t Ht. apply Hsub. set_solver.
      * intros y [->|Hin]%elem_of_cons Hy; [|by apply Hknown].
        split; [apply Hsub; set_solver|]. exists (hpo_defaults p).
        intros t Ht. apply Hsub. set_solver.
      * intros t [Ht|(y & Hy & Hey & Hty)]%Honly.
        -- apply elem_of_union in Ht as [Ht|Ht].
           ++ apply elem_of_union in Ht as [Ht%elem_of_singleton|Ht]; [|by left].
              right. exists x. split; [by left|]. split; [done|by left].
           ++ right. exists x. split; [by left|]. split; [done|]. right.
              exists (hpo_defaults p). by apply elem_of_list_to_set in Ht.
        -- right. exists y. split; [by right|done].
    + rewrite term_step_unknown by done. rewrite term_steps_split. cbn [fst snd].
      unfold induced_from.
      match goal with |- context [foldl _ (∅, ?i, ?q) l] =>
        destruct (IH i q) as (Hsub & Hknown & Honly) end.
      split; [done|]. split.
      * intros y [->|Hin]%elem_of_cons Hy; [congruence|by apply Hknown].
      * intros t [Ht|(y & Hy & Hey & Hty)]%Honly; [by left|].
        right. exists y. split; [by right|done].
Qed.

Lemma termcounts_fold cluster l : ∀ tc : gmap string (gmap string Z),
  NoDup l → is_Some (tc !! cluster) →
  let tc' := foldl (λ tc hpo_id, alter (λ m, incr_int m hpo_id) cluster tc) tc l in
  (∀ c t, count_at (default ∅ (tc' !! c)) t
          = count_at (default ∅ (tc !! c)) t
            + (if decide (c = cluster ∧ t ∈ l) then 1 else 0))
  ∧ (∀ c, is_Some (tc' !! c) ↔ is_Some (tc !! c)).
Proof.
  induction l as [|x l IH]; intros tc Hnd Hsome; simpl.
  - split; [|done]. intros c t. rewrite decide_False; [lia|]. by intros [_ ?%elem_of_nil].
  - apply NoDup_cons in Hnd as [Hx Hnd].
    destruct (IH (alter (λ m, incr_int m x) cluster tc) Hnd) as [Hcount Hdom].
    { destruct Hsome as [m Hm]. rewrite lookup_alter_eq, Hm. by eexists. }
    split.
    + intros c t. rewrite Hcount. destruct (decide (c = cluster)) as [->|Hne].
      * destruct Hsome as [m Hm]. rewrite lookup_alter_eq, Hm. simpl.
        rewrite count_at_incr_int.
        destruct (decide (x = t)) as [->|Hxt].
        -- rewrite (decide_False (P := _ ∧ t ∈ l)) by tauto.
           rewrite decide_True; [lia|]. split; [done|by left].
        -- destruct (decide (t ∈ l)) as [Hin|Hnin].
           ++ rewrite !decide_True; [lia| |done]. split; [done|by right].
           ++ rewrite !decide_False; [lia| |tauto].
              intros [_ [?|?]%elem_of_cons]; congruence.
      * rewrite lookup_alter_ne by done. rewrite !decide_False by tauto. done.
    + intros c. rewrite Hdom. destruct (decide (c = cluster)) as [->|Hne].
      * rewrite lookup_alter_eq. destruct (tc !! cluster); simpl; split; intros [? ?]; by eauto.
      * by rewrite lookup_alter_ne.
Qed.

(** One turn of the patient loop, on the term counts: the count of every
    term of the individual's induced set goes up by one in the individual's
    cluster, and no other count moves. *)
Lemma patient_step_counts cluster_dict self p patient_id hpo_id_list self' p' :
  patient_step cluster_dict (self, p) (patient_id, hpo_id_list) = Ok (self', p') →
  ∃ cluster,
    cluster_dict !! patient_id = Some cluster
    ∧ p' = process_from (_hpo self) ∅ p hpo_id_list
    ∧ (∀ c t, with_of self' t c
              = with_of self t c
                + (if decide (c = cluster ∧ t ∈ induced_from (_hpo self) ∅ p hpo_id_list)
                   then 1 else 0))
    ∧ (∀ c, is_Some (_percluster_termcounts self' !! c)
            ↔ c = cluster ∨ is_Some (_percluster_termcounts self !! c)).
Proof.
  unfold patient_step.
  destruct (cluster_dict !! patient_id) as [cluster|] eqn:Hc; [|done].
  rewrite term_steps_split.
  intros [= <- <-]. exists cluster. split; [done|]. split; [done|].
  unfold with_of. cbn [_percluster_termcounts].
  set (tc0 := match _percluster_termcounts self !! cluster with
              | Some _ => _percluster_termcounts self
              | None => <[cluster:=∅]> (_percluster_termcounts self)
              end).
  assert (is_Some (tc0 !! cluster)) as Hsome.
  { unfold tc0. destruct (_percluster_termcounts self !! cluster) eqn:Hm; [by rewrite Hm|].
    rewrite lookup_insert_eq. by eexists. }
  assert (∀ c t, count_at (default ∅ (tc0 !! c)) t
                 = count_at (default ∅ (_percluster_termcounts self !! c)) t) as Hread.
  { intros c t. unfold tc0. destruct (_percluster_termcounts self !! cluster) eqn:Hm; [done|].
    destruct (decide (c = cluster)) as [->|Hne].
    - by rewrite lookup_insert_eq, Hm.
    - by rewrite lookup_insert_ne. }
  assert (∀ c, is_Some (tc0 !! c) ↔ c = cluster ∨ is_Some (_percluster_termcounts self !! c))
    as Hdom0.
  { intros c. unfold tc0. destruct (_percluster_termcounts self !! cluster) eqn:Hm.
    - split; [by right|]. intros [->|?]; [by rewrite Hm|done].
    - destruct (decide (c = cluster)) as [->|Hne].
      + rewrite lookup_insert_eq. split; [by left|by eexists].
      + rewrite lookup_insert_ne by done. split; [by right|]. by intros [?|?]. }
  destruct (termcounts_fold cluster (elements (induced_from (_hpo self) ∅ p hpo_id_list)) tc0)
    as [Hcount Hdom]; [apply NoDup_elements|done|].
  split.
  - intros c t. rewrite Hcount, Hread. f_equal.
    destruct (decide (c = cluster ∧ t ∈ induced_from (_hpo self) ∅ p hpo_id_list))
      as [[? ?]|Hn].
    + rewrite decide_True; [done|]. by rewrite elem_of_elements.
    + rewrite decide_False; [done|]. by rewrite elem_of_elements.
  - intros c. by rewrite Hdom, Hdom0.
Qed.

Lemma filter_length_cons {A} (P : A → Prop) `{∀ x, Decision (P x)} (x : A) (l : list A) :
  length (filter P (x :: l)) = ((if decide (P x) then 1 else 0) + length (filter P l))%nat.
Proof. rewrite filter_cons. by destruct (decide (P x)). Qed.

Lemma patient_loop_cons cluster_dict acc entry rest :
  patient_loop cluster_dict acc (entry :: rest)
  = patient_step cluster_dict acc entry ≫= λ acc', patient_loop cluster_dict acc' rest.
Proof. done. Qed.

Lemma patient_loop_counts cluster_dict entries : ∀ self p self' p',
  patient_loop cluster_dict (self, p) entries = Ok (self', p') →
  (∀ c t, (with_of self t c ≤ with_of self' t c
           ≤ with_of self t c + Z.of_nat (entries_in cluster_dict c (entries.*1)))%Z)
  ∧ (∀ c t, SemsimHpoEnsmallen.node_exists (_hpo self) t = true →
       (with_of self t c
        + Z.of_nat (length (filter (λ e, cluster_dict !! e.1 = Some c ∧ t ∈ e.2) entries))
        ≤ with_of self' t c)%Z)
  ∧ (∀ c t, with_of self' t c = with_of self t c
            ∨ ∃ pid x, (∃ l, (pid, l) ∈ entries ∧ x ∈ l)
                       ∧ cluster_dict !! pid = Some c
                       ∧ SemsimHpoEnsmallen.node_exists (_hpo self) x = true
                       ∧ (t = x ∨ in_closure_of (_hpo self) x t))
  ∧ (∀ c, is_Some (_percluster_termcounts self' !! c)
          ↔ is_Some (_percluster_termcounts self !! c)
            ∨ ∃ pid, pid ∈ entries.*1 ∧ cluster_dict !! pid = Some c).
Proof.
  induction entries as [|[patient_id hpo_id_list] entries IH]; intros self p self' p'.
  - intros [= <- <-]. unfold entries_in. cbn [fmap list_fmap filter list_filter length].
    split; [intros; lia|]. split; [intros; cbn; lia|]. split; [by left|].
    intros c. split; [by left|]. intros [?|(pid & ?%elem_of_nil & _)]; done.
  - rewrite patient_loop_cons.
    destruct (patient_step cluster_dict (self, p) (patient_id, hpo_id_list))
      as [e|[self1 p1]] eqn:Hstep; cbn [mbind result_bind]; [done|].
    intros Hloop. apply IH in Hloop as (Hbr & Hlow & Honly & Hdom).
    pose proof (patient_step_effect _ _ _ _ _ _ _ Hstep) as (cl & Hc' & _ & _ & _ & Hhpo & _).
    apply patient_step_counts in Hstep as (cluster & Hc & -> & Hcount & Hdom1).
    assert (cl = cluster) as -> by congruence. clear Hc'.
    rewrite Hhpo in Hlow, Honly.
    destruct (term_steps_induced (_hpo self) hpo_id_list ∅ p) as (_ & Hknown & Hfrom).
    split; [|split; [|split]].
    + intros c t. specialize (Hbr c t). rewrite Hcount in Hbr.
      unfold entries_in in *. rewrite fmap_cons, filter_length_cons. cbn [fst snd].
      rewrite Hc. destruct (decide (c = cluster ∧ _)) as [[-> _]|Hn].
      * rewrite decide_True by done. lia.
      * destruct (decide (Some cluster = Some c)); lia.
    + intros c t Ht. specialize (Hlow c t Ht). rewrite Hcount in Hlow.
      rewrite filter_length_cons. cbn [fst snd]. rewrite Hc.
      destruct (decide (Some cluster = Some c ∧ t ∈ hpo_id_list)) as [[[= ->] Hin]|Hn].
      * rewrite decide_True in Hlow; [lia|]. split; [done|]. by apply Hknown.
      * destruct (decide (c = cluster ∧ _)); lia.
    + intros c t. destruct (Honly c t) as [Heq|(pid & x & (l & Hin & Hx) & Hrest)].
      * rewrite Heq, Hcount. destruct (decide (c = cluster ∧ _)) as [[-> Hind]|Hn].
        -- right. apply Hfrom in Hind as [Hind|(x & Hx & Hex & Htx)]; [set_solver|].
           exists patient_id, x. split; [exists hpo_id_list; split; [by left|done]|]. done.
        -- left. lia.
      * right. exists pid, x. split; [exists l; split; [by right|done]|done].
    + intros c. rewrite Hdom, Hdom1. split.
      * intros [[->|?]|(pid & Hin & Hpid)]; [right|by left|right].
        -- exists patient_id. split; [by left|done].
        -- exists pid. split; [by right|done].
      * intros [?|(pid & Hin & Hpid)].
        -- left. by right.
        -- rewrite fmap_cons in Hin. cbn [fst] in Hin.
           apply elem_of_cons in Hin as [->|Hin].
           ++ left. left. congruence.
           ++ right. by exists pid.
Qed.

Lemma patient_loop_raises cluster_dict entries : ∀ acc,
  (∃ pid, pid ∈ entries.*1 ∧ cluster_dict !! pid = None) →
  ∃ pid, pid ∈ entries.*1 ∧ cluster_dict !! pid = None
         ∧ patient_loop cluster_dict acc entries
           = Raise (ValueError ("Could not find patient " +:+ pid +:+ " in cluster_assignment")).
Proof.
  induction entries as [|[patient_id hpo_id_list] entries IH]; intros [self p] (pid & Hin & Hnone).
  { by apply elem_of_nil in Hin. }
  rewrite patient_loop_cons.
  destruct (cluster_dict !! patient_id) as [cluster|] eqn:Hc.
  - destruct (patient_step_returns cluster_dict (self, p) patient_id hpo_id_list)
      as [acc1 ->]; [by eexists|]. cbn [mbind result_bind].
    destruct (IH acc1) as (pid' & Hin' & Hnone' & Hraise).
    { exists pid. split; [|done]. rewrite fmap_cons in Hin. cbn [fst] in Hin.
      apply elem_of_cons in Hin as [->|?]; [congruence|done]. }
    exists pid'. split; [by right|done].
  - exists patient_id. split; [by left|]. split; [done|].
    unfold patient_step. by rewrite Hc.
Qed.

(** The values the grouped frame holds for a key. *)
Lemma groupby_filter_length (P : string → list string → Prop) `{∀ k l, Decision (P k l)} rows :
  length (filter (λ e, P e.1 e.2) (groupby_apply_list rows))
  = length (filter (λ k, P k ((λ r, r.2) <$> List.filter (λ r, bool_decide (r.1 = k)) rows))
                   (remove_dups (rows.*1))).
Proof.
  unfold groupby_apply_list.
  transitivity
    (length (filter (λ k, P k ((λ r, r.2) <$> List.filter (λ r, bool_decide (r.1 = k)) rows))
                    (sort_keys (remove_dups (rows.*1))))).
  - induction (sort_keys (remove_dups rows.*1)) as [|k ks IH]; [done|].
    rewrite fmap_cons, !filter_length_cons, IH. done.
  - apply Permutation_length. by rewrite sort_keys_perm.
Qed.

Lemma elem_of_group rows k t :
  t ∈ (λ r, r.2) <$> List.filter (λ r : string * string, bool_decide (r.1 = k)) rows
  ↔ (k, t) ∈ rows.
Proof.
  rewrite list_elem_of_fmap. split.
  - intros ([k' t'] & -> & Hin). apply list_elem_of_In, filter_In in Hin as [Hin Hk].
    apply bool_decide_eq_true in Hk. simpl in Hk. subst k'. by apply list_elem_of_In.
  - intros Hin. exists (k, t). split; [done|]. apply list_elem_of_In, filter_In.
    split; [by apply list_elem_of_In|]. by apply bool_decide_eq_true.
Qed.

Lemma elem_of_groupby rows pid l x :
  (pid, l) ∈ groupby_apply_list rows → x ∈ l → (pid, x) ∈ rows.
Proof.
  unfold groupby_apply_list. intros (k & [= -> ->] & _)%list_elem_of_fmap.
  by rewrite elem_of_group.
Qed.

Lemma cluster_dict_lookup_None ca pid :
  NoDup (ca.*1) → cluster_dict_of ca !! pid = None ↔ pid ∉ ca.*1.
Proof.
  intros Hnd. rewrite eq_None_not_Some. apply not_iff_compat. split.
  - intros [c Hc]. apply cluster_dict_lookup in Hc; [|done].
    apply list_elem_of_fmap. by exists (pid, c).
  - intros ([pid' c] & -> & Hin)%list_elem_of_fmap. exists c. by apply cluster_dict_lookup.
Qed.

(** What a successful [add_counts] has done to the term counts. *)
Lemma add_counts_counts self rows ca p self' p' :
  add_counts self rows ca p = Ok (self', p') →
  (∀ c t, (with_of self t c ≤ with_of self' t c
           ≤ with_of self t c + Z.of_nat (individuals_in ca c rows))%Z)
  ∧ (∀ c t, SemsimHpoEnsmallen.node_exists (_hpo self) t = true →
       (with_of self t c + Z.of_nat (annotated_in ca c rows t) ≤ with_of self' t c)%Z)
  ∧ (∀ c t, with_of self' t c = with_of self t c
            ∨ ∃ pid x, (pid, x) ∈ rows ∧ (pid, c) ∈ ca
                       ∧ SemsimHpoEnsmallen.node_exists (_hpo self) x = true
                       ∧ (t = x ∨ in_closure_of (_hpo self) x t))
  ∧ (∀ c, is_Some (_percluster_termcounts self' !! c)
          ↔ is_Some (_percluster_termcounts self !! c) ∨ (0 < individuals_in ca c rows)%nat).
Proof.
  intros Hrun. pose proof (add_counts_effect _ _ _ _ _ _ Hrun) as (Hnd & _).
  revert Hrun. unfold add_counts.
  rewrite bool_decide_eq_true_2 by by apply NoDup_list_set_length. cbn [negb].
  fold (cluster_dict_of ca). intros Hloop.
  apply patient_loop_counts in Hloop as (Hbr & Hlow & Honly & Hdom).
  unfold with_of in *. cbn [_percluster_termcounts _hpo] in *.
  split; [|split; [|split]].
  - intros c t. rewrite <- entries_in_groupby by done. apply Hbr.
  - intros c t Ht. etransitivity; [|by apply Hlow]. apply Zplus_le_compat_l, inj_le.
    pose proof (groupby_filter_length
                  (λ k l, cluster_dict_of ca !! k = Some c ∧ t ∈ l) rows) as Hg.
    cbv beta in Hg. rewrite Hg.
    unfold annotated_in. apply Nat.eq_le_incl. f_equal. apply list_filter_iff. intros pid.
    by rewrite elem_of_group, cluster_dict_lookup.
  - intros c t. destruct (Honly c t) as [?|(pid & x & (l & Hin & Hx) & Hpid & Hex & Htx)];
      [by left|right].
    exists pid, x. split; [by eapply elem_of_groupby|].
    split; [by apply cluster_dict_lookup|done].
  - intros c. rewrite Hdom. apply or_iff_compat_l. unfold individuals_in. split.
    + intros (pid & Hin & Hpid). rewrite groupby_keys in Hin.
      apply cluster_dict_lookup in Hpid; [|done].
      assert (pid ∈ filter (λ pid, (pid, c) ∈ ca) (remove_dups rows.*1)) as Hf.
      { by apply list_elem_of_filter. }
      destruct (filter _ _); [by apply elem_of_nil in Hf|simpl; lia].
    + intros Hlen. destruct (filter (λ pid, (pid, c) ∈ ca) (remove_dups rows.*1))
        as [|pid l] eqn:Hf; [simpl in Hlen; lia|].
      assert (pid ∈ filter (λ pid, (pid, c) ∈ ca) (remove_dups rows.*1)) as Hin.
      { rewrite Hf. by left. }
      apply list_elem_of_filter in Hin as [Hpid Hin]. exists pid.
      split; [by rewrite groupby_keys|]. by apply cluster_dict_lookup.
Qed.

Lemma counts_bounded_init hpo : counts_bounded (__init__ hpo).
Proof.
  intros c t. unfold with_of, total_of, count_at. cbn [__init__ _percluster_termcounts
    _per_cluster_total_pt_count]. rewrite !lookup_empty. cbn [default]. rewrite lookup_empty.
  cbn [default]. lia.
Qed.

(** *** The ontology object and the outcome *)





(** The ontology object is consulted about known terms only: objects that
    agree on them are interchangeable. *)
Lemma term_steps_agree hpo hpo2 l :
  agree_on_known hpo hpo2 →
  ∀ acc, foldl (term_step hpo2) acc l = foldl (term_step hpo) acc l.
Proof.
  intros [Hex Hanc]. induction l as [|x l IH]; intros [[terms induced] p]; cbn [foldl]; [done|].
  rewrite IH. f_equal. unfold term_step. rewrite Hex.
  destruct (SemsimHpoEnsmallen.node_exists hpo x) eqn:Hx; [|done]. by rewrite Hanc.
Qed.

Lemma patient_step_agree cluster_dict self p entry hpo2 :
  agree_on_known (_hpo self) hpo2 →
  patient_step cluster_dict (with_hpo self hpo2, p) entry
  = match patient_step cluster_dict (self, p) entry with
    | Ok (self', p') => Ok (with_hpo self' hpo2, p')
    | Raise e => Raise e
    end.
Proof.
  intros Hagree. destruct entry as [patient_id hpo_id_list]. unfold patient_step.
  destruct (cluster_dict !! patient_id) as [cluster|]; [|done].
  cbn [with_hpo _hpo _hpo_terms _percluster_termcounts _per_cluster_total_pt_count
       _total_patients _clusters _unique_pt_ids].
  rewrite (term_steps_agree (_hpo self) hpo2) by done.
  by destruct (foldl (term_step (_hpo self)) (_hpo_terms self, ∅, p) hpo_id_list)
    as [[terms1 induced1] p1].
Qed.

Lemma patient_loop_agree cluster_dict entries hpo2 : ∀ self p,
  agree_on_known (_hpo self) hpo2 →
  patient_loop cluster_dict (with_hpo self hpo2, p) entries
  = match patient_loop cluster_dict (self, p) entries with
    | Ok (self', p') => Ok (with_hpo self' hpo2, p')
    | Raise e => Raise e
    end.
Proof.
  induction entries as [|entry entries IH]; intros self p Hagree; [done|].
  rewrite !patient_loop_cons, patient_step_agree by done.
  destruct (patient_step cluster_dict (self, p) entry) as [e|[self1 p1]] eqn:Hstep;
    cbn [mbind result_bind]; [done|].
  apply IH. destruct entry as [patient_id hpo_id_list].
  apply patient_step_effect in Hstep as (_ & _ & _ & _ & _ & -> & _). done.
Qed.

Lemma add_counts_agree self rows ca p hpo2 :
  agree_on_known (_hpo self) hpo2 →
  add_counts (with_hpo self hpo2) rows ca p
  = match add_counts self rows ca p with
    | Ok (self', p') => Ok (with_hpo self' hpo2, p')
    | Raise e => Raise e
    end.
Proof.
  intros Hagree. unfold add_counts. destruct (negb _); [done|].
  by apply (patient_loop_agree _ _ hpo2
              {| _percluster_termcounts := _percluster_termcounts self;
                 _per_cluster_total_pt_count := _per_cluster_total_pt_count self;
                 _hpo_terms := _hpo_terms self;
                 _hpo := _hpo self;
                 _total_patients := _total_patients self;
                 _clusters := list_set ((λ kv, kv.2) <$> map_to_list
                   (foldl (λ d row, <[row.1 := row.2]> d) ∅ ca));
                 _unique_pt_ids := list_set ((λ row, row.1) <$> ca) |}).
Qed.

(** Scenario 1 returns. *)
Lemma scenario1_first_returns :
  add_counts (__init__ (SemsimHpoEnsmallen.from_spec chain)) scenario1_rows
             scenario1_clusters fresh_process
  = Ok (analyzer_of chain scenario1_first, process_of scenario1_first).
Proof. vm_compute. reflexivity. Qed.

End AggregationLemmas.

(** ** The reports *)

Module ReportLemmas.
Import HpoClusterAnalyzer Notions Fixtures AggregationLemmas.

Lemma same_counts_refl self : same_counts self self.
Proof. by repeat split. Qed.

Lemma same_counts_trans s1 s2 s3 :
  same_counts s1 s2 → same_counts s2 s3 → same_counts s1 s3.
Proof.
  intros (H1 & H2 & H3 & H4 & H5 & H6 & H7) (G1 & G2 & G3 & G4 & G5 & G6 & G7).
  split; [|split; [|split; [|repeat split; congruence]]].
  - intros c. by rewrite G1.
  - intros c t. by rewrite G2.
  - intros c. by rewrite G3.
Qed.

Lemma getitem_int_read m k : (getitem_int m k).1 = count_at m k.
Proof. unfold getitem_int, count_at. by destruct (m !! k). Qed.

Lemma getitem_int_store m k k' : count_at (getitem_int m k).2 k' = count_at m k'.
Proof.
  unfold getitem_int, count_at. destruct (m !! k) eqn:Hk; simpl; [done|].
  destruct (decide (k = k')) as [<-|Hne].
  - by rewrite lookup_insert_eq, Hk.
  - by rewrite lookup_insert_ne.
Qed.

Lemma cluster_step_effect hpo_id self d w wo cluster self' d' w' wo' :
  cluster_step hpo_id (self, d, w, wo) cluster = Ok (self', d', w', wo') →
  is_Some (_percluster_termcounts self !! cluster)
  ∧ same_counts self self'
  ∧ w' = w ++ [with_of self hpo_id cluster]
  ∧ wo' = wo ++ [without_of self hpo_id cluster]
  ∧ dom d' = dom d ∪ cluster_columns cluster.
Proof.
  unfold cluster_step.
  destruct (getitem_int (_per_cluster_total_pt_count self) cluster) as [total totals] eqn:Ht.
  destruct (_percluster_termcounts self !! cluster) as [m|] eqn:Hm; [|done].
  destruct (getitem_int m hpo_id) as [with_hpo m'] eqn:Hw.
  intros [= <- <- <- <-].
  pose proof (getitem_int_read (_per_cluster_total_pt_count self) cluster) as Hr1.
  pose proof (getitem_int_read m hpo_id) as Hr2.
  rewrite Ht in Hr1. rewrite Hw in Hr2. simpl in Hr1, Hr2.
  split; [by eexists|]. split; [|split; [|split]].
  - unfold same_counts, total_of, with_of. simpl. repeat split; try done.
    + intros c. pose proof (getitem_int_store (_per_cluster_total_pt_count self) cluster c) as Hs.
      by rewrite Ht in Hs.
    + intros c t. destruct (decide (cluster = c)) as [<-|Hne].
      * rewrite lookup_insert_eq, Hm. simpl.
        pose proof (getitem_int_store m hpo_id t) as Hs. by rewrite Hw in Hs.
      * by rewrite lookup_insert_ne.
    + intros Hsome. destruct (decide (cluster = c)) as [<-|Hne]; [by eexists|].
      by rewrite lookup_insert_ne in Hsome.
    + intros Hsome. destruct (decide (cluster = c)) as [<-|Hne].
      * rewrite lookup_insert_eq. by eexists.
      * by rewrite lookup_insert_ne.
  - unfold with_of. rewrite Hm. simpl. by rewrite Hr2.
  - unfold without_of, with_of, total_of. rewrite Hm. simpl. by rewrite Hr1, Hr2.
  - rewrite !dom_insert_L. unfold cluster_columns. set_solver.
Qed.

Lemma cluster_step_returns hpo_id self d w wo cluster :
  is_Some (_percluster_termcounts self !! cluster) →
  ∃ acc', cluster_step hpo_id (self, d, w, wo) cluster = Ok acc'.
Proof.
  intros [m Hm]. unfold cluster_step.
  destruct (getitem_int (_per_cluster_total_pt_count self) cluster) as [total totals].
  rewrite Hm. destruct (getitem_int m hpo_id). by eexists.
Qed.

Lemma cluster_step_raises hpo_id self d w wo cluster :
  _percluster_termcounts self !! cluster = None →
  cluster_step hpo_id (self, d, w, wo) cluster = Raise (KeyError hpo_id).
Proof.
  intros Hm. unfold cluster_step.
  destruct (getitem_int (_per_cluster_total_pt_count self) cluster) as [total totals].
  by rewrite Hm.
Qed.

Lemma cluster_loop_cons hpo_id acc cluster rest :
  cluster_loop hpo_id acc (cluster :: rest)
  = cluster_step hpo_id acc cluster ≫= λ acc', cluster_loop hpo_id acc' rest.
Proof. done. Qed.

Lemma cluster_loop_effect hpo_id clusters : ∀ self d w wo self' d' w' wo',
  cluster_loop hpo_id (self, d, w, wo) clusters = Ok (self', d', w', wo') →
  (∀ c, c ∈ clusters → is_Some (_percluster_termcounts self !! c))
  ∧ same_counts self self'
  ∧ w' = w ++ (with_of self hpo_id <$> clusters)
  ∧ wo' = wo ++ (without_of self hpo_id <$> clusters)
  ∧ dom d' = dom d ∪ clusters_columns clusters.
Proof.
  induction clusters as [|cluster rest IH]; intros self d w wo self' d' w' wo'.
  - intros [= <- <- <- <-]. unfold clusters_columns. simpl.
    rewrite !app_nil_r. repeat split; try done.
    + by intros c ?%elem_of_nil.
    + set_solver.
  - rewrite cluster_loop_cons.
    destruct (cluster_step hpo_id (self, d, w, wo) cluster)
      as [e|[[[self1 d1] w1] wo1]] eqn:Hstep; simpl; [done|].
    intros Hloop. apply IH in Hloop as (Hall & Hsame & -> & -> & Hdom).
    apply cluster_step_effect in Hstep as (Hsome & Hsame1 & -> & -> & Hdom1).
    assert (Hs := Hsame1). destruct Hs as (Ht & Hw & Hdomtc & _).
    split; [|split; [|split; [|split]]].
    + intros c [->|Hin]%elem_of_cons; [done|]. by apply Hdomtc, Hall.
    + by eapply same_counts_trans.
    + rewrite <- app_assoc. simpl. do 2 f_equal.
      apply list_fmap_ext. intros _ c _. apply Hw.
    + rewrite <- app_assoc. simpl. do 2 f_equal.
      apply list_fmap_ext. intros _ c _. unfold without_of. by rewrite Ht, Hw.
    + rewrite Hdom, Hdom1. unfold clusters_columns. simpl. set_solver.
Qed.

Lemma cluster_loop_returns hpo_id clusters : ∀ self d w wo,
  (∀ c, c ∈ clusters → is_Some (_percluster_termcounts self !! c)) →
  ∃ acc', cluster_loop hpo_id (self, d, w, wo) clusters = Ok acc'.
Proof.
  induction clusters as [|cluster rest IH]; intros self d w wo Hall; [by eexists|].
  rewrite cluster_loop_cons.
  destruct (cluster_step_returns hpo_id self d w wo cluster) as [[[[self1 d1] w1] wo1] Hstep].
  { apply Hall. by left. }
  rewrite Hstep. simpl. apply IH. intros c Hc.
  apply cluster_step_effect in Hstep as (_ & (_ & _ & Hdomtc & _) & _).
  apply Hdomtc, Hall. by right.
Qed.

Lemma cluster_loop_raises hpo_id clusters : ∀ self d w wo,
  (∃ c, c ∈ clusters ∧ _percluster_termcounts self !! c = None) →
  cluster_loop hpo_id (self, d, w, wo) clusters = Raise (KeyError hpo_id).
Proof.
  induction clusters as [|cluster rest IH]; intros self d w wo (c & Hin & Hnone).
  { by apply elem_of_nil in Hin. }
  rewrite cluster_loop_cons.
  destruct (cluster_step hpo_id (self, d, w, wo) cluster)
    as [e|[[[self1 d1] w1] wo1]] eqn:Hstep; simpl.
  - destruct (_percluster_termcounts self !! cluster) eqn:Hm.
    + destruct (cluster_step_returns hpo_id self d w wo cluster) as [? Hr]; [by eexists|].
      congruence.
    + rewrite cluster_step_raises in Hstep by done. congruence.
  - apply IH. apply cluster_step_effect in Hstep as (Hsome & (_ & _ & Hdomtc & _) & _).
    apply elem_of_cons in Hin as [->|Hin].
    + rewrite Hnone in Hsome. by destruct Hsome.
    + exists c. split; [done|]. apply eq_None_not_Some. intros ?%Hdomtc.
      rewrite Hnone in H. by destruct H.
Qed.

Lemma any_false counts : any counts = false ↔ Forall (λ z, z = 0) counts.
Proof.
  unfold any. induction counts as [|z counts IH]; simpl.
  - split; [constructor|done].
  - rewrite orb_false_iff, negb_false_iff, Z.eqb_eq, IH, Forall_cons. tauto.
Qed.

Lemma same_counts_counted self self' :
  same_counts self self' → clusters_counted self → clusters_counted self'.
Proof.
  intros (_ & _ & Hdom & _ & Hcl & _) Hc c Hin. rewrite Hcl in Hin. by apply Hdom, Hc.
Qed.

Section Reports.

Variable chi2_contingency : list (list Z) → result (float * float * Z * list (list float)).
Variable fisher_exact : list (list Z) → result (float * float).

(** The policy of lines 127-139 on the table [do_chi2] has built for a term. *)
Lemma chi2_row_policy self p hpo_id :
  clusters_counted self →
  let with_hpo_count := with_of self hpo_id <$> _clusters self in
  let without_hpo_count := without_of self hpo_id <$> _clusters self in
  if decide (Forall (λ z, z = 0) without_hpo_count ∨ Forall (λ z, z = 0) with_hpo_count)
  then
    ∃ self' msg d,
      chi2_row chi2_contingency (self, p) hpo_id = Ok (self', warn msg p, d)
      ∧ same_counts self self'
      ∧ d !! "stat" = Some float_nan ∧ d !! "p" = Some float_nan
      ∧ d !! "dof" = Some float_nan ∧ d !! "expected" = Some float_nan
  else
    match chi2_contingency [with_hpo_count; without_hpo_count] with
    | Raise e => chi2_row chi2_contingency (self, p) hpo_id = Raise e
    | Ok (stat, pv, dof, expected) =>
        ∃ self' d,
          chi2_row chi2_contingency (self, p) hpo_id = Ok (self', p, d)
          ∧ same_counts self self'
          ∧ d !! "stat" = Some (VFloat stat) ∧ d !! "p" = Some (VFloat pv)
          ∧ d !! "dof" = Some (VInt dof) ∧ d !! "expected" = Some (VArray expected)
    end.
Proof.
  intros Hcounted w wo. unfold chi2_row.
  destruct (cluster_loop_returns hpo_id (_clusters self) self {["hpo_id" := VStr hpo_id]} [] [])
    as [[[[self' d] w'] wo'] Hloop]; [done|].
  rewrite Hloop. simpl.
  apply cluster_loop_effect in Hloop as (_ & Hsame & -> & -> & _). simpl.
  fold w wo. destruct (decide (Forall (λ z, z = 0) wo ∨ Forall (λ z, z = 0) w)) as [[Hz|Hz]|Hnz].
  - apply any_false in Hz. rewrite Hz. simpl. do 3 eexists. split; [done|].
    split; [done|]. by simplify_map_eq.
  - apply any_false in Hz. rewrite Hz. destruct (any wo); simpl.
    + do 3 eexists. split; [done|]. split; [done|]. by simplify_map_eq.
    + do 3 eexists. split; [done|]. split; [done|]. by simplify_map_eq.
  - destruct (any wo) eqn:Hwo; [|exfalso; apply Hnz; left; by apply any_false].
    destruct (any w) eqn:Hw; [|exfalso; apply Hnz; right; by apply any_false].
    simpl. destruct (chi2_contingency [w; wo]) as [e|[[[stat pv] dof] expected]]; simpl; [done|].
    do 2 eexists. split; [done|]. split; [done|]. by simplify_map_eq.
Qed.

Lemma chi2_row_effect self p hpo_id self' p' d :
  chi2_row chi2_contingency (self, p) hpo_id = Ok (self', p', d) →
  same_counts self self' ∧ dom d = chi2_columns (_clusters self).
Proof.
  unfold chi2_row.
  destruct (cluster_loop hpo_id (self, {["hpo_id" := VStr hpo_id]}, [], []) (_clusters self))
    as [e|[[[self1 d1] w] wo]] eqn:Hloop; simpl; [done|].
  apply cluster_loop_effect in Hloop as (_ & Hsame & _ & _ & Hdom).
  rewrite dom_singleton_L in Hdom.
  assert (∀ stat pv dof expected,
    dom (<["expected" := expected]> (<["dof" := dof]> (<["p" := pv]> (<["stat" := stat]> d1))))
    = chi2_columns (_clusters self)) as Hcols.
  { intros. rewrite !dom_insert_L, Hdom. unfold chi2_columns. set_solver. }
  destruct (any wo); simpl; [destruct (any w); simpl|].
  - destruct (chi2_contingency [w; wo]) as [e|[[[stat pv] dof] expected]]; simpl; [done|].
    intros [= <- <- <-]. by rewrite Hcols.
  - intros [= <- <- <-]. by rewrite Hcols.
  - intros [= <- <- <-]. by rewrite Hcols.
Qed.

Lemma fisher_row_effect self p hpo_id self' p' d :
  fisher_row fisher_exact (self, p) hpo_id = Ok (self', p', d) →
  same_counts self self' ∧ dom d = fisher_columns (_clusters self) ∧ p' = p
  ∧ ∃ oddsr pv,
      fisher_exact [with_of self hpo_id <$> _clusters self;
                    without_of self hpo_id <$> _clusters self] = Ok (oddsr, pv)
      ∧ d !! "oddsr" = Some (VFloat oddsr) ∧ d !! "p" = Some (VFloat pv).
Proof.
  unfold fisher_row.
  destruct (cluster_loop hpo_id (self, {["hpo_id" := VStr hpo_id]}, [], []) (_clusters self))
    as [e|[[[self1 d1] w] wo]] eqn:Hloop; simpl; [done|].
  apply cluster_loop_effect in Hloop as (_ & Hsame & -> & -> & Hdom). simpl.
  rewrite dom_singleton_L in Hdom.
  destruct (fisher_exact _) as [e|[oddsr pv]]; simpl; [done|].
  intros [= <- <- <-]. split; [done|]. split; [|split; [done|]].
  - rewrite !dom_insert_L, Hdom. unfold fisher_columns. set_solver.
  - exists oddsr, pv. by simplify_map_eq.
Qed.

Lemma fisher_row_raises self p hpo_id :
  requires_2x2 fisher_exact → length (_clusters self) ≠ 2%nat →
  ∃ e, fisher_row fisher_exact (self, p) hpo_id = Raise e.
Proof.
  intros Hreq Hlen. unfold fisher_row.
  destruct (cluster_loop hpo_id (self, {["hpo_id" := VStr hpo_id]}, [], []) (_clusters self))
    as [e|[[[self1 d1] w] wo]] eqn:Hloop; simpl; [by eexists|].
  apply cluster_loop_effect in Hloop as (_ & _ & -> & -> & _). simpl.
  destruct (Hreq (with_of self hpo_id <$> _clusters self)
                 (without_of self hpo_id <$> _clusters self)) as [e ->].
  - by rewrite length_fmap.
  - by eexists.
Qed.

(** The term loop keeps what its row function keeps. *)
Lemma report_loop_effect (row : t * process → string → result (t * process * gmap string value))
    (columns : list string → gset string) (quiet : bool) :
  (∀ self p hpo_id self' p' d,
     row (self, p) hpo_id = Ok (self', p', d) →
     same_counts self self' ∧ dom d = columns (_clusters self)
     ∧ (quiet = true → p' = p)) →
  ∀ hpo_ids self p results self' p' rows,
    term_loop row (self, p) results hpo_ids = Ok (rows, self', p') →
    same_counts self self'
    ∧ (quiet = true → p' = p)
    ∧ length rows = (length results + length hpo_ids)%nat
    ∧ ((∀ d, d ∈ results → dom d = columns (_clusters self)) →
       ∀ d, d ∈ rows → dom d = columns (_clusters self)).
Proof.
  intros Hrow. induction hpo_ids as [|hpo_id rest IH]; intros self p results self' p' rows.
  - simpl. intros [= <- <- <-]. split; [apply same_counts_refl|]. repeat split; try done; lia.
  - change (term_loop row (self, p) results (hpo_id :: rest))
      with (row (self, p) hpo_id ≫= λ '(self1, p1, d), term_loop row (self1, p1) (results ++ [d]) rest).
    destruct (row (self, p) hpo_id) as [e|[[self1 p1] d1]] eqn:Hr; simpl; [done|].
    intros Hloop. apply Hrow in Hr as (Hsame1 & Hdom1 & Hq1).
    apply IH in Hloop as (Hsame & Hq & Hlen & Hrows).
    assert (_clusters self1 = _clusters self) as Hcl by apply Hsame1.
    split; [by eapply same_counts_trans|]. split; [|split].
    + intros Hquiet. rewrite Hq, Hq1 by done. done.
    + rewrite Hlen, length_app. simpl. lia.
    + intros Hres d Hd. rewrite <- Hcl. apply Hrows; [|done].
      intros d' [Hd'|Hd']%elem_of_app; rewrite Hcl; [by apply Hres|].
      apply list_elem_of_singleton in Hd' as ->. done.
Qed.

End Reports.

Lemma elem_of_clusters_columns clusters k :
  k ∈ clusters_columns clusters ↔ ∃ c, c ∈ clusters ∧ k ∈ cluster_columns c.
Proof.
  unfold clusters_columns. rewrite elem_of_union_list. split.
  - intros (X & HX & Hk). apply list_elem_of_fmap in HX as (c & -> & Hc). eauto.
  - intros (c & Hc & Hk). exists (cluster_columns c). split; [|done].
    apply list_elem_of_fmap. eauto.
Qed.

Lemma do_chi2_effect chi2_contingency self p report self' p' :
  do_chi2 chi2_contingency self p = Ok (report, self', p') →
  same_counts self self'
  ∧ length report = length (elements (_hpo_terms self))
  ∧ ∀ d, d ∈ report → dom d = chi2_columns (_clusters self).
Proof.
  unfold do_chi2. intros Hloop.
  eapply (report_loop_effect (chi2_row chi2_contingency) chi2_columns false) in Hloop
    as (Hsame & _ & Hlen & Hrows).
  - split; [done|]. split; [done|]. apply Hrows. by intros d ?%elem_of_nil.
  - intros s q hpo_id s' q' d Hrow. apply chi2_row_effect in Hrow as [? ?].
    split; [done|]. split; [done|]. intros [=].
Qed.

Lemma do_fisher_exact_effect fisher_exact self p report self' p' :
  do_fisher_exact fisher_exact self p = Ok (report, self', p') →
  same_counts self self' ∧ p' = p
  ∧ length report = length (elements (_hpo_terms self))
  ∧ ∀ d, d ∈ report → dom d = fisher_columns (_clusters self).
Proof.
  unfold do_fisher_exact. intros Hloop.
  eapply (report_loop_effect (fisher_row fisher_exact) fisher_columns true) in Hloop
    as (Hsame & Hq & Hlen & Hrows).
  - split; [done|]. split; [by apply Hq|]. split; [done|].
    apply Hrows. by intros d ?%elem_of_nil.
  - intros s q hpo_id s' q' d Hrow. apply fisher_row_effect in Hrow as (? & ? & ? & _).
    split; [done|]. split; [done|]. done.
Qed.

Lemma fisher_exact_2x2_only_requires : requires_2x2 fisher_exact_2x2_only.
Proof.
  intros w wo Hlen.
  destruct w as [|a [|b [|c w]]]; simpl in *;
    [by eexists|by eexists|exfalso; by apply Hlen|by eexists].
Qed.

Lemma same_counts_sym s1 s2 : same_counts s1 s2 → same_counts s2 s1.
Proof.
  intros (H1 & H2 & H3 & H4 & H5 & H6 & H7). repeat split; try done.
  - by intros ?%H3.
  - by intros ?%H3.
Qed.

(** *** The cells of a row *)

Lemma list_ascii_of_string_app s1 s2 :
  String.list_ascii_of_string (s1 +:+ s2) = String.list_ascii_of_string s1 ++ String.list_ascii_of_string s2.
Proof. induction s1 as [|a s1 IH]; simpl; [done|]. by rewrite IH. Qed.

Lemma list_ascii_of_string_inj s1 s2 :
  String.list_ascii_of_string s1 = String.list_ascii_of_string s2 → s1 = s2.
Proof.
  intros Heq. rewrite <- (String.string_of_list_ascii_of_string s1),
    <- (String.string_of_list_ascii_of_string s2). by rewrite Heq.
Qed.

(** Two keys built from cluster ids with different endings differ. *)
Lemma cluster_keys_differ c c' s s' :
  ¬ suffix (String.list_ascii_of_string s) (String.list_ascii_of_string s') →
  ¬ suffix (String.list_ascii_of_string s') (String.list_ascii_of_string s) →
  c +:+ s ≠ c' +:+ s'.
Proof.
  intros H1 H2 Heq. apply (f_equal String.list_ascii_of_string) in Heq.
  rewrite !list_ascii_of_string_app in Heq.
  apply app_eq_inv in Heq as [(k & _ & Hk)|(k & _ & Hk)].
  - apply H1. by exists k.
  - apply H2. by exists k.
Qed.

Lemma cluster_key_inj c c' s : c +:+ s = c' +:+ s → c = c'.
Proof.
  intros Heq. apply (f_equal String.list_ascii_of_string) in Heq.
  rewrite !list_ascii_of_string_app in Heq.
  by apply app_inv_tail, list_ascii_of_string_inj in Heq.
Qed.

Lemma cluster_key_not_fixed c s k :
  ¬ suffix (String.list_ascii_of_string s) (String.list_ascii_of_string k) → c +:+ s ≠ k.
Proof.
  intros Hs Heq. apply Hs. exists (String.list_ascii_of_string c).
  by rewrite <- Heq, list_ascii_of_string_app.
Qed.

Lemma cluster_cells_fixed self hpo_id d cluster k :
  fixed_column k → cluster_cells self hpo_id d cluster !! k = d !! k.
Proof.
  intros Hk. unfold cluster_cells.
  rewrite !lookup_insert_ne; [done|..];
    unfold fixed_column in Hk; repeat (apply elem_of_cons in Hk as [->|Hk]);
    try (by apply elem_of_nil in Hk); apply cluster_key_not_fixed; no_suffix.
Qed.

Lemma cluster_cells_other self hpo_id d cluster c s :
  s ∈ ["-total"; "-with"; "-without"] → c ≠ cluster →
  cluster_cells self hpo_id d cluster !! (c +:+ s) = d !! (c +:+ s).
Proof.
  intros Hs Hne. unfold cluster_cells.
  rewrite !lookup_insert_ne; [done|..];
    repeat (apply elem_of_cons in Hs as [->|Hs]); try (by apply elem_of_nil in Hs);
    first [ by intros ?%cluster_key_inj | apply cluster_keys_differ; no_suffix ].
Qed.

Lemma cluster_cells_own self hpo_id d cluster :
  cluster_cells self hpo_id d cluster !! (cluster +:+ "-total")
  = Some (VInt (total_of self cluster))
  ∧ cluster_cells self hpo_id d cluster !! (cluster +:+ "-with")
    = Some (VInt (with_of self hpo_id cluster))
  ∧ cluster_cells self hpo_id d cluster !! (cluster +:+ "-without")
    = Some (VInt (without_of self hpo_id cluster)).
Proof.
  unfold cluster_cells. split; [|split].
  - rewrite !lookup_insert_ne by (apply cluster_keys_differ; no_suffix).
    by rewrite lookup_insert_eq.
  - rewrite lookup_insert_ne by (apply cluster_keys_differ; no_suffix).
    by rewrite lookup_insert_eq.
  - by rewrite lookup_insert_eq.
Qed.

(** What the cells of a sequence of clusters hold. *)
Lemma cells_lookup self hpo_id clusters : ∀ d,
  (∀ k, fixed_column k → foldl (cluster_cells self hpo_id) d clusters !! k = d !! k)
  ∧ ∀ c, c ∈ clusters →
      foldl (cluster_cells self hpo_id) d clusters !! (c +:+ "-total")
      = Some (VInt (total_of self c))
      ∧ foldl (cluster_cells self hpo_id) d clusters !! (c +:+ "-with")
        = Some (VInt (with_of self hpo_id c))
      ∧ foldl (cluster_cells self hpo_id) d clusters !! (c +:+ "-without")
        = Some (VInt (without_of self hpo_id c)).
Proof.
  induction clusters as [|cluster rest IH] using rev_ind; intros d.
  - split; [done|]. by intros c ?%elem_of_nil.
  - rewrite foldl_app. cbn [foldl]. destruct (IH d) as [Hfixed Hcells]. split.
    + intros k Hk. by rewrite cluster_cells_fixed, Hfixed.
    + intros c Hc. destruct (decide (c = cluster)) as [->|Hne]; [apply cluster_cells_own|].
      apply elem_of_app in Hc as [Hc|Hc%list_elem_of_singleton]; [|done].
      rewrite !cluster_cells_other by (done || set_solver). by apply Hcells.
Qed.

Lemma count_cells_row_counts self hpo_id : row_counts self hpo_id (count_cells self hpo_id).
Proof.
  unfold row_counts, count_cells.
  destruct (cells_lookup self hpo_id (_clusters self) {["hpo_id" := VStr hpo_id]})
    as [Hfixed Hcells].
  split; [|exact Hcells]. rewrite Hfixed by (unfold fixed_column; set_solver).
  by rewrite lookup_singleton_eq.
Qed.

Lemma cluster_cells_same s1 s2 hpo_id d cluster :
  same_counts s1 s2 → cluster_cells s2 hpo_id d cluster = cluster_cells s1 hpo_id d cluster.
Proof.
  intros (Ht & Hw & _). unfold cluster_cells, without_of. by rewrite !Ht, !Hw.
Qed.

Lemma cells_same s1 s2 hpo_id clusters : ∀ d,
  same_counts s1 s2 →
  foldl (cluster_cells s2 hpo_id) d clusters = foldl (cluster_cells s1 hpo_id) d clusters.
Proof.
  induction clusters as [|cluster rest IH]; intros d Hsame; [done|].
  cbn [foldl]. rewrite IH by done. by rewrite (cluster_cells_same s1 s2).
Qed.

Lemma count_cells_same s1 s2 hpo_id :
  same_counts s1 s2 → count_cells s2 hpo_id = count_cells s1 hpo_id.
Proof.
  intros Hsame. unfold count_cells.
  assert (_clusters s2 = _clusters s1) as -> by apply Hsame. by apply cells_same.
Qed.

Lemma cluster_step_cells hpo_id self d w wo cluster self' d' w' wo' :
  cluster_step hpo_id (self, d, w, wo) cluster = Ok (self', d', w', wo') →
  d' = cluster_cells self hpo_id d cluster.
Proof.
  unfold cluster_step.
  destruct (getitem_int (_per_cluster_total_pt_count self) cluster) as [total totals] eqn:Ht.
  destruct (_percluster_termcounts self !! cluster) as [m|] eqn:Hm; [|done].
  destruct (getitem_int m hpo_id) as [with_hpo m'] eqn:Hw.
  intros [= <- <- <- <-].
  pose proof (getitem_int_read (_per_cluster_total_pt_count self) cluster) as Hr1.
  pose proof (getitem_int_read m hpo_id) as Hr2.
  rewrite Ht in Hr1. rewrite Hw in Hr2. cbn [fst] in Hr1, Hr2.
  unfold cluster_cells, without_of, with_of, total_of. rewrite Hm. cbn [default].
  by rewrite Hr1, Hr2.
Qed.

Lemma cluster_loop_cells hpo_id clusters : ∀ self d w wo self' d' w' wo',
  cluster_loop hpo_id (self, d, w, wo) clusters = Ok (self', d', w', wo') →
  d' = foldl (cluster_cells self hpo_id) d clusters.
Proof.
  induction clusters as [|cluster rest IH]; intros self d w wo self' d' w' wo'.
  - by intros [= <- <- <- <-].
  - rewrite cluster_loop_cons.
    destruct (cluster_step hpo_id (self, d, w, wo) cluster)
      as [e|[[[self1 d1] w1] wo1]] eqn:Hstep; cbn [mbind result_bind]; [done|].
    intros Hloop. apply IH in Hloop as ->.
    pose proof (cluster_step_cells _ _ _ _ _ _ _ _ _ _ Hstep) as ->.
    apply cluster_step_effect in Hstep as (_ & Hsame & _).
    cbn [foldl]. by apply cells_same.
Qed.

(** *** The rows of a report *)

Lemma with_counts_same s1 s2 hpo_id :
  same_counts s1 s2 → with_counts s2 hpo_id = with_counts s1 hpo_id.
Proof.
  intros (_ & Hw & _ & _ & Hcl & _). unfold with_counts. rewrite Hcl.
  apply list_fmap_ext. intros _ c _. apply Hw.
Qed.

Lemma without_counts_same s1 s2 hpo_id :
  same_counts s1 s2 → without_counts s2 hpo_id = without_counts s1 hpo_id.
Proof.
  intros (Ht & Hw & _ & _ & Hcl & _). unfold without_counts. rewrite Hcl.
  apply list_fmap_ext. intros _ c _. unfold without_of. by rewrite Ht, Hw.
Qed.

Lemma chi2_warning_same s1 s2 hpo_id :
  same_counts s1 s2 → chi2_warning s2 hpo_id = chi2_warning s1 hpo_id.
Proof.
  intros Hsame. unfold chi2_warning.
  by rewrite (with_counts_same s1 s2), (without_counts_same s1 s2).
Qed.

Lemma row_counts_same s1 s2 hpo_id d :
  same_counts s1 s2 → row_counts s2 hpo_id d → row_counts s1 hpo_id d.
Proof.
  intros (Ht & Hw & _ & _ & Hcl & _) [Hid Hcells]. split; [done|].
  intros c Hc. rewrite <- Hcl in Hc. destruct (Hcells c Hc) as (H1 & H2 & H3).
  unfold without_of in *. rewrite Ht, Hw in *. done.
Qed.

Lemma insert_fixed_keeps_counts self hpo_id d k v :
  fixed_column k → k ≠ "hpo_id" → row_counts self hpo_id d →
  row_counts self hpo_id (<[k := v]> d).
Proof.
  intros Hk Hne [Hid Hcells]. split; [by rewrite lookup_insert_ne|].
  intros c Hc. destruct (Hcells c Hc) as (H1 & H2 & H3).
  unfold fixed_column in Hk.
  rewrite !lookup_insert_ne; [done|..];
    repeat (apply elem_of_cons in Hk as [->|Hk]); try (by apply elem_of_nil in Hk);
    apply not_eq_sym, cluster_key_not_fixed; no_suffix.
Qed.

Section Rows.

Variable chi2_contingency : list (list Z) → result (float * float * Z * list (list float)).
Variable fisher_exact : list (list Z) → result (float * float).

(** What a returned turn of the term loop of [do_chi2] has done. *)
Lemma chi2_row_spec self p hpo_id self' p' d :
  chi2_row chi2_contingency (self, p) hpo_id = Ok (self', p', d) →
  same_counts self self'
  ∧ (clusters_counted self
     ∧ row_counts self hpo_id d
     ∧ chi2_fields chi2_contingency self hpo_id d)
  ∧ hpo_defaults p' = hpo_defaults p
  ∧ warnings p' = warnings p ++ option_list (chi2_warning self hpo_id).
Proof.
  unfold chi2_row.
  destruct (cluster_loop hpo_id (self, {["hpo_id" := VStr hpo_id]}, [], []) (_clusters self))
    as [e|[[[self1 d1] w] wo]] eqn:Hloop; cbn [mbind result_bind]; [done|].
  pose proof (cluster_loop_cells _ _ _ _ _ _ _ _ _ _ Hloop) as Hd.
  fold (count_cells self hpo_id) in Hd.
  apply cluster_loop_effect in Hloop as (Hcounted & Hsame & -> & -> & _).
  rewrite !app_nil_l. fold (with_counts self hpo_id) (without_counts self hpo_id).
  pose proof (count_cells_row_counts self hpo_id) as Hcells. rewrite <- Hd in Hcells.
  assert (∀ stat pv dof expected,
    row_counts self hpo_id
      (<["expected" := expected]> (<["dof" := dof]> (<["p" := pv]> (<["stat" := stat]> d1)))))
    as Hrow.
  { intros. repeat (apply insert_fixed_keeps_counts;
      [unfold fixed_column; set_solver|done|]). done. }
  unfold chi2_fields, chi2_warning.
  destruct (any (without_counts self hpo_id)) eqn:Hwo; cbn [negb].
  - rewrite decide_False by (unfold all_zero; rewrite <- any_false; congruence).
    destruct (any (with_counts self hpo_id)) eqn:Hw; cbn [negb].
    + rewrite decide_False by (unfold all_zero; rewrite <- any_false; congruence).
      destruct (chi2_contingency _) as [e|[[[stat pv] dof] expected]] eqn:Hchi;
        cbn [mbind result_bind]; [done|].
      intros [= <- <- <-]. split; [done|]. split; [split; [done|split; [apply Hrow|]]|].
      * exists stat, pv, dof, expected. split; [done|]. by simplify_map_eq.
      * split; [done|by rewrite app_nil_r].
    + rewrite decide_True by (by apply any_false).
      intros [= <- <- <-]. split; [done|].
      split; [split; [done|split; [apply Hrow|by simplify_map_eq]]|]. split; reflexivity.
  - rewrite decide_True by (by apply any_false).
    intros [= <- <- <-]. split; [done|].
    split; [split; [done|split; [apply Hrow|by simplify_map_eq]]|]. split; reflexivity.
Qed.

(** What a returned turn of the term loop of [do_fisher_exact] has done. *)
Lemma fisher_row_spec self p hpo_id self' p' d :
  fisher_row fisher_exact (self, p) hpo_id = Ok (self', p', d) →
  same_counts self self'
  ∧ (clusters_counted self
     ∧ row_counts self hpo_id d
     ∧ fisher_fields fisher_exact self hpo_id d)
  ∧ p' = p.
Proof.
  intros Hrow. pose proof (fisher_row_effect _ _ _ _ _ _ _ Hrow) as (Hsame & _ & -> & Hf).
  split; [done|]. split; [|done]. revert Hrow. unfold fisher_row.
  destruct (cluster_loop hpo_id (self, {["hpo_id" := VStr hpo_id]}, [], []) (_clusters self))
    as [e|[[[self1 d1] w] wo]] eqn:Hloop; cbn [mbind result_bind]; [done|].
  pose proof (cluster_loop_effect _ _ _ _ _ _ _ _ _ _ Hloop) as (Hcounted & _).
  pose proof (cluster_loop_cells _ _ _ _ _ _ _ _ _ _ Hloop) as Hd.
  fold (count_cells self hpo_id) in Hd.
  pose proof (count_cells_row_counts self hpo_id) as Hcells. rewrite <- Hd in Hcells.
  destruct (fisher_exact [w; wo]) as [e|[oddsr pv]]; cbn [mbind result_bind]; [done|].
  intros [= <- <-]. split; [done|]. split; [|exact Hf].
  repeat (apply insert_fixed_keeps_counts; [unfold fixed_column; set_solver|done|]). done.
Qed.

End Rows.

(** The term loop, row by row. *)
Lemma term_loop_rows (row : t * process → string → result (t * process * gmap string value))
    (Q : t → string → gmap string value → Prop) (msgs : t → string → list string) :
  (∀ self p hpo_id self' p' d,
     row (self, p) hpo_id = Ok (self', p', d) →
     same_counts self self' ∧ Q self hpo_id d
     ∧ hpo_defaults p' = hpo_defaults p
     ∧ warnings p' = warnings p ++ msgs self hpo_id) →
  (∀ s1 s2 hpo_id d, same_counts s1 s2 → Q s2 hpo_id d → Q s1 hpo_id d) →
  (∀ s1 s2 hpo_id, same_counts s1 s2 → msgs s2 hpo_id = msgs s1 hpo_id) →
  ∀ hpo_ids self p results self' p' rows,
    term_loop row (self, p) results hpo_ids = Ok (rows, self', p') →
    ∃ new, rows = results ++ new
           ∧ Forall2 (Q self) hpo_ids new
           ∧ hpo_defaults p' = hpo_defaults p
           ∧ warnings p' = warnings p ++ concat (msgs self <$> hpo_ids).
Proof.
  intros Hrow HQ Hmsgs. induction hpo_ids as [|hpo_id rest IH];
    intros self p results self' p' rows.
  - cbn [term_loop]. intros [= <- <- <-]. exists []. rewrite fmap_nil. cbn [concat].
    rewrite !app_nil_r. split; [done|]. split; [constructor|]. done.
  - change (term_loop row (self, p) results (hpo_id :: rest))
      with (row (self, p) hpo_id
            ≫= λ '(self1, p1, d), term_loop row (self1, p1) (results ++ [d]) rest).
    destruct (row (self, p) hpo_id) as [e|[[self1 p1] d1]] eqn:Hr;
      cbn [mbind result_bind]; [done|].
    intros Hloop. apply Hrow in Hr as (Hsame1 & HQ1 & Hdef1 & Hwarn1).
    apply IH in Hloop as (new & -> & Hall & Hdef & Hwarn).
    exists (d1 :: new). rewrite <- app_assoc. split; [done|]. split; [|split].
    + constructor; [done|]. eapply Forall2_impl; [exact Hall|].
      intros t d. by apply HQ.
    + congruence.
    + rewrite Hwarn, Hwarn1, <- app_assoc. rewrite fmap_cons. cbn [concat]. do 2 f_equal.
      f_equal. apply list_fmap_ext. intros _ t _. by apply Hmsgs.
Qed.

Lemma concat_option_list {A B} (f : A → option B) (l : list A) :
  concat ((λ x, option_list (f x)) <$> l) = omap f l.
Proof.
  induction l as [|x l IH]; [done|]. rewrite fmap_cons. cbn [concat omap list_omap].
  rewrite IH. by destruct (f x).
Qed.

Lemma chi2_fields_same chi2_contingency s1 s2 hpo_id d :
  same_counts s1 s2 → chi2_fields chi2_contingency s2 hpo_id d →
  chi2_fields chi2_contingency s1 hpo_id d.
Proof.
  intros Hsame. unfold chi2_fields.
  by rewrite (chi2_warning_same s1 s2), (with_counts_same s1 s2), (without_counts_same s1 s2).
Qed.

Lemma fisher_fields_same fisher_exact s1 s2 hpo_id d :
  same_counts s1 s2 → fisher_fields fisher_exact s2 hpo_id d →
  fisher_fields fisher_exact s1 hpo_id d.
Proof.
  intros Hsame. unfold fisher_fields.
  by rewrite (with_counts_same s1 s2), (without_counts_same s1 s2).
Qed.

Lemma clusters_counted_same s1 s2 :
  same_counts s1 s2 → clusters_counted s2 → clusters_counted s1.
Proof.
  intros (_ & _ & Hdom & _ & Hcl & _) Hc c Hin. rewrite <- Hcl in Hin. by apply Hdom, Hc.
Qed.

(** What a returned [do_chi2] has built. *)
Lemma do_chi2_rows chi2_contingency self p report self' p' :
  do_chi2 chi2_contingency self p = Ok (report, self', p') →
  Forall2 (λ hpo_id d, clusters_counted self ∧ row_counts self hpo_id d
                       ∧ chi2_fields chi2_contingency self hpo_id d)
          (elements (_hpo_terms self)) report
  ∧ hpo_defaults p' = hpo_defaults p
  ∧ warnings p' = warnings p ++ omap (chi2_warning self) (elements (_hpo_terms self)).
Proof.
  unfold do_chi2. intros Hloop.
  eapply (term_loop_rows (chi2_row chi2_contingency)
            (λ s hpo_id d, clusters_counted s ∧ row_counts s hpo_id d
                           ∧ chi2_fields chi2_contingency s hpo_id d)
            (λ s hpo_id, option_list (chi2_warning s hpo_id))) in Hloop
    as (new & -> & Hall & Hdef & Hwarn).
  - rewrite app_nil_l. split; [done|]. split; [done|]. by rewrite Hwarn, concat_option_list.
  - intros s q hpo_id s' q' d Hrow. by apply chi2_row_spec in Hrow.
  - intros s1 s2 hpo_id d Hsame (? & ? & ?).
    split; [by eapply clusters_counted_same|].
    split; [by eapply row_counts_same|by eapply chi2_fields_same].
  - intros s1 s2 hpo_id Hsame. by rewrite (chi2_warning_same s1 s2).
Qed.

(** What a returned [do_fisher_exact] has built. *)
Lemma do_fisher_exact_rows fisher_exact self p report self' p' :
  do_fisher_exact fisher_exact self p = Ok (report, self', p') →
  Forall2 (λ hpo_id d, clusters_counted self ∧ row_counts self hpo_id d
                       ∧ fisher_fields fisher_exact self hpo_id d)
          (elements (_hpo_terms self)) report.
Proof.
  unfold do_fisher_exact. intros Hloop.
  eapply (term_loop_rows (fisher_row fisher_exact)
            (λ s hpo_id d, clusters_counted s ∧ row_counts s hpo_id d
                           ∧ fisher_fields fisher_exact s hpo_id d)
            (λ _ _, [])) in Hloop
    as (new & -> & Hall & _).
  - by rewrite app_nil_l.
  - intros s q hpo_id s' q' d Hrow.
    apply fisher_row_spec in Hrow as (? & ? & ->). by rewrite app_nil_r.
  - intros s1 s2 hpo_id d Hsame (? & ? & ?).
    split; [by eapply clusters_counted_same|].
    split; [by eapply row_counts_same|by eapply fisher_fields_same].
  - done.
Qed.

Section Turns.

Variable chi2_contingency : list (list Z) → result (float * float * Z * list (list float)).
Variable fisher_exact : list (list Z) → result (float * float).

Lemma cluster_loop_same hpo_id s1 s2 s1' d w wo :
  same_counts s1 s2 →
  cluster_loop hpo_id (s1, {["hpo_id" := VStr hpo_id]}, [], []) (_clusters s1)
  = Ok (s1', d, w, wo) →
  ∃ s2', cluster_loop hpo_id (s2, {["hpo_id" := VStr hpo_id]}, [], []) (_clusters s2)
         = Ok (s2', d, w, wo).
Proof.
  intros Hsame Hloop.
  pose proof (cluster_loop_cells _ _ _ _ _ _ _ _ _ _ Hloop) as Hd.
  fold (count_cells s1 hpo_id) in Hd.
  apply cluster_loop_effect in Hloop as (Hcounted & _ & Hw & Hwo & _).
  destruct (cluster_loop_returns hpo_id (_clusters s2) s2 {["hpo_id" := VStr hpo_id]} [] [])
    as [[[[s2' d2] w2] wo2] Hloop2].
  { by apply (same_counts_counted s1 s2). }
  exists s2'. rewrite Hloop2.
  pose proof (cluster_loop_cells _ _ _ _ _ _ _ _ _ _ Hloop2) as Hd2.
  fold (count_cells s2 hpo_id) in Hd2.
  apply cluster_loop_effect in Hloop2 as (_ & _ & Hw2 & Hwo2 & _).
  fold (with_counts s1 hpo_id) in Hw. fold (without_counts s1 hpo_id) in Hwo.
  fold (with_counts s2 hpo_id) in Hw2. fold (without_counts s2 hpo_id) in Hwo2.
  rewrite (with_counts_same s1 s2) in Hw2 by done.
  rewrite (without_counts_same s1 s2) in Hwo2 by done.
  rewrite (count_cells_same s1 s2) in Hd2 by done. congruence.
Qed.

Lemma chi2_row_repeat s1 p1 s2 p2 hpo_id s1' p1' d :
  same_counts s1 s2 →
  chi2_row chi2_contingency (s1, p1) hpo_id = Ok (s1', p1', d) →
  ∃ s2' p2', chi2_row chi2_contingency (s2, p2) hpo_id = Ok (s2', p2', d).
Proof.
  intros Hsame. unfold chi2_row.
  destruct (cluster_loop hpo_id (s1, {["hpo_id" := VStr hpo_id]}, [], []) (_clusters s1))
    as [e|[[[sa da] w] wo]] eqn:Hloop; cbn [mbind result_bind]; [done|].
  destruct (cluster_loop_same _ _ _ _ _ _ _ Hsame Hloop) as [sb ->]. cbn [mbind result_bind].
  destruct (any wo); cbn [negb]; [destruct (any w); cbn [negb]|].
  - destruct (chi2_contingency [w; wo]) as [e|[[[stat pv] dof] expected]];
      cbn [mbind result_bind]; [done|].
    intros [= <- <- <-]. by eexists _, _.
  - intros [= <- <- <-]. by eexists _, _.
  - intros [= <- <- <-]. by eexists _, _.
Qed.

Lemma fisher_row_repeat s1 p1 s2 p2 hpo_id s1' p1' d :
  same_counts s1 s2 →
  fisher_row fisher_exact (s1, p1) hpo_id = Ok (s1', p1', d) →
  ∃ s2' p2', fisher_row fisher_exact (s2, p2) hpo_id = Ok (s2', p2', d).
Proof.
  intros Hsame. unfold fisher_row.
  destruct (cluster_loop hpo_id (s1, {["hpo_id" := VStr hpo_id]}, [], []) (_clusters s1))
    as [e|[[[sa da] w] wo]] eqn:Hloop; cbn [mbind result_bind]; [done|].
  destruct (cluster_loop_same _ _ _ _ _ _ _ Hsame Hloop) as [sb ->]. cbn [mbind result_bind].
  destruct (fisher_exact [w; wo]) as [e|[oddsr pv]]; cbn [mbind result_bind]; [done|].
  intros [= <- <- <-]. by eexists _, _.
Qed.

Lemma chi2_row_returns self p hpo_id :
  clusters_counted self →
  (chi2_warning self hpo_id = None →
   ∃ r, chi2_contingency [with_counts self hpo_id; without_counts self hpo_id] = Ok r) →
  ∃ r, chi2_row chi2_contingency (self, p) hpo_id = Ok r.
Proof.
  intros Hcounted Hlib. pose proof (chi2_row_policy chi2_contingency self p hpo_id Hcounted)
    as Hpol. cbv zeta in Hpol.
  fold (with_counts self hpo_id) (without_counts self hpo_id) in Hpol.
  destruct (decide _) as [Hz|Hnz].
  - destruct Hpol as (self' & msg & d & -> & _). by eexists.
  - destruct Hlib as [r Hr].
    { unfold chi2_warning, all_zero. rewrite !decide_False; [done|tauto|tauto]. }
    rewrite Hr in Hpol. destruct r as [[[stat pv] dof] expected].
    destruct Hpol as (self' & d & -> & _). by eexists.
Qed.

Lemma fisher_row_returns self p hpo_id :
  clusters_counted self →
  (∃ r, fisher_exact [with_counts self hpo_id; without_counts self hpo_id] = Ok r) →
  ∃ r, fisher_row fisher_exact (self, p) hpo_id = Ok r.
Proof.
  intros Hcounted [[oddsr pv] Hr]. unfold fisher_row.
  destruct (cluster_loop_returns hpo_id (_clusters self) self {["hpo_id" := VStr hpo_id]} [] [])
    as [[[[self' d] w] wo] Hloop]; [done|].
  rewrite Hloop. cbn [mbind result_bind].
  apply cluster_loop_effect in Hloop as (_ & _ & -> & -> & _). rewrite !app_nil_l.
  fold (with_counts self hpo_id) (without_counts self hpo_id). rewrite Hr. by eexists.
Qed.

Lemma chi2_row_raises self p hpo_id :
  (∃ c, c ∈ _clusters self ∧ _percluster_termcounts self !! c = None) →
  chi2_row chi2_contingency (self, p) hpo_id = Raise (KeyError hpo_id).
Proof. intros Hnot. unfold chi2_row. by rewrite cluster_loop_raises. Qed.

Lemma fisher_row_raises_uncounted self p hpo_id :
  (∃ c, c ∈ _clusters self ∧ _percluster_termcounts self !! c = None) →
  fisher_row fisher_exact (self, p) hpo_id = Raise (KeyError hpo_id).
Proof. intros Hnot. unfold fisher_row. by rewrite cluster_loop_raises. Qed.

End Turns.

Lemma term_loop_cons (row : t * process → string → result (t * process * gmap string value))
    acc results hpo_id rest :
  term_loop row acc results (hpo_id :: rest)
  = row acc hpo_id ≫= λ '(self, p, d), term_loop row (self, p) (results ++ [d]) rest.
Proof. done. Qed.

Lemma term_loop_repeat (row : t * process → string → result (t * process * gmap string value)) :
  (∀ s p hpo_id s' p' d, row (s, p) hpo_id = Ok (s', p', d) → same_counts s s') →
  (∀ s1 p1 s2 p2 hpo_id s1' p1' d,
     same_counts s1 s2 → row (s1, p1) hpo_id = Ok (s1', p1', d) →
     ∃ s2' p2', row (s2, p2) hpo_id = Ok (s2', p2', d)) →
  ∀ hpo_ids s1 p1 s2 p2 results rows s1' p1',
    same_counts s1 s2 →
    term_loop row (s1, p1) results hpo_ids = Ok (rows, s1', p1') →
    ∃ s2' p2', term_loop row (s2, p2) results hpo_ids = Ok (rows, s2', p2').
Proof.
  intros Hkeep Hrep. induction hpo_ids as [|hpo_id rest IH];
    intros s1 p1 s2 p2 results rows s1' p1' Hsame.
  - cbn [term_loop fst snd]. intros [= <- <- <-]. by eexists _, _.
  - rewrite !term_loop_cons.
    destruct (row (s1, p1) hpo_id) as [e|[[sa pa] d]] eqn:Hr; cbn [mbind result_bind]; [done|].
    destruct (Hrep _ _ s2 p2 _ _ _ _ Hsame Hr) as (sb & pb & Hr2). rewrite Hr2.
    cbn [mbind result_bind]. apply IH.
    apply Hkeep in Hr. apply Hkeep in Hr2.
    eapply same_counts_trans; [|exact Hr2].
    eapply same_counts_trans; [apply same_counts_sym; exact Hr|exact Hsame].
Qed.

Lemma term_loop_returns (row : t * process → string → result (t * process * gmap string value)) :
  (∀ s p hpo_id s' p' d, row (s, p) hpo_id = Ok (s', p', d) → same_counts s s') →
  ∀ hpo_ids self p results,
    (∀ hpo_id s q, hpo_id ∈ hpo_ids → same_counts self s → ∃ r, row (s, q) hpo_id = Ok r) →
    ∃ r, term_loop row (self, p) results hpo_ids = Ok r.
Proof.
  intros Hkeep. induction hpo_ids as [|hpo_id rest IH]; intros self p results Hall.
  - by eexists.
  - rewrite term_loop_cons.
    destruct (Hall hpo_id self p) as [[[s1 p1] d] Hr]; [by left|apply same_counts_refl|].
    rewrite Hr. cbn [mbind result_bind]. apply IH.
    intros t s q Hin Hsame. apply Hall; [by right|].
    eapply same_counts_trans; [|exact Hsame]. by eapply Hkeep.
Qed.

Lemma elements_nil_empty (X : gset string) : elements X = [] → X = ∅.
Proof. intros Hel. apply elements_empty_inv in Hel. by apply leibniz_equiv in Hel. Qed.

Lemma not_counted_dec self :
  ¬ clusters_counted self →
  ∃ c, c ∈ _clusters self ∧ _percluster_termcounts self !! c = None.
Proof.
  intros Hnot.
  destruct (decide (Exists (λ c, _percluster_termcounts self !! c = None) (_clusters self)))
    as [Hex|Hno].
  - by apply Exists_exists in Hex.
  - exfalso. apply Hnot. intros c Hc.
    destruct (_percluster_termcounts self !! c) eqn:Hm; [by eexists|].
    exfalso. apply Hno, Exists_exists. by exists c.
Qed.

End ReportLemmas.

(** ** The analyzer: counts, closure terms and reports *)

Module HpoClusterAnalyzerFacts.
Import HpoClusterAnalyzer Notions Fixtures AggregationLemmas ReportLemmas.

(** *** One individual *)

Lemma groupby_single pid x : groupby_apply_list [(pid, x)] = [(pid, [x])].
Proof.
  unfold groupby_apply_list. simpl. by rewrite bool_decide_eq_true_2.
Qed.

(** A batch of one individual annotated with one known term [x]: the count
    of [x] and of every term the ontology object returns for [x] goes up by
    one in the individual's cluster, whatever the number of times the
    returned list holds the term, and no other count moves. *)
Lemma single_individual_counts self pid x c p :
  SemsimHpoEnsmallen.node_exists (_hpo self) x = true →
  ∃ self' p',
    add_counts self [(pid, x)] [(pid, c)] p = Ok (self', p')
    ∧ ∀ r c', with_of self' r c'
              = with_of self r c'
                + (if decide (c' = c
                              ∧ (r = x
                                 ∨ r ∈ (SemsimHpoEnsmallen.get_ancestors
                                          (_hpo self) x (hpo_defaults p)).1))
                   then 1 else 0).
Proof.
  intros Hex.
  destruct (add_counts_returns self [(pid, x)] [(pid, c)] p) as [[self' p'] Hrun].
  { apply NoDup_singleton. }
  { done. }
  exists self', p'. split; [done|]. revert Hrun. unfold add_counts.
  rewrite bool_decide_eq_true_2 by (apply NoDup_list_set_length, NoDup_singleton).
  cbn [negb]. rewrite groupby_single, patient_loop_cons.
  match goal with |- context [patient_step ?cd ?acc ?e] =>
    destruct (patient_step cd acc e) as [e'|[self1 p1]] eqn:Hstep end;
    cbn [mbind result_bind patient_loop]; [done|].
  intros [= <- <-].
  apply patient_step_counts in Hstep as (cluster & Hc & _ & Hcount & _).
  cbn [foldl fst snd] in Hc. rewrite lookup_insert_eq in Hc. injection Hc as <-.
  intros r c'. rewrite Hcount. unfold with_of. cbn [_percluster_termcounts _hpo]. f_equal.
  unfold induced_from. cbn [foldl]. rewrite term_step_known by done. cbn [fst snd].
  apply decide_ext. rewrite !elem_of_union, elem_of_singleton, elem_of_list_to_set.
  set_solver.
Qed.


(** C5: when the assignment has one row per individual and covers every
    individual with annotation rows, [add_counts] returns and has added to
    the total of every cluster the number of distinct individuals with rows
    that are assigned to it; on an analyzer without totals yet, the total is
    that number. *)
Theorem totals_count_each_individual_once self rows ca p :
  NoDup (ca.*1) → (∀ pid, pid ∈ rows.*1 → pid ∈ ca.*1) →
  ∃ self' p',
    add_counts self rows ca p = Ok (self', p')
    ∧ (∀ c, total_of self' c = total_of self c + Z.of_nat (individuals_in ca c rows))
    ∧ (_per_cluster_total_pt_count self = ∅ →
       ∀ c, total_of self' c = Z.of_nat (individuals_in ca c rows)).
Proof.
  intros Hnd Hall. destruct (add_counts_returns self rows ca p Hnd Hall) as [[self' p'] Hrun].
  exists self', p'. split; [done|].
  apply add_counts_effect in Hrun as (_ & _ & Htot & _).
  split; [exact Htot|]. intros Hempty c. unfold total_of. rewrite Htot. unfold count_at.
  rewrite Hempty, lookup_empty. simpl. lia.
Qed.

Lemma totals_count_each_individual_once_witness :
  ∃ self' p',
    add_counts (fresh_analyzer chain) [("p1", "A"); ("p1", "B"); ("p2", "C"); ("p3", "A")]
               [("p1", "1"); ("p2", "2"); ("p3", "1")] fresh_process = Ok (self', p')
    ∧ total_of self' "1" = 2 ∧ total_of self' "2" = 1.
Proof.
  destruct (totals_count_each_individual_once (fresh_analyzer chain)
              [("p1", "A"); ("p1", "B"); ("p2", "C"); ("p3", "A")]
              [("p1", "1"); ("p2", "2"); ("p3", "1")] fresh_process)
    as (self' & p' & Hrun & _ & Htot).
  - apply (bool_decide_unpack _). vm_compute. exact I.
  - simpl. set_solver.
  - exists self', p'. split; [exact Hrun|]. split.
    + rewrite Htot by reflexivity. vm_compute. reflexivity.
    + rewrite Htot by reflexivity. vm_compute. reflexivity.
Defined.

(** C6: when the assignment has one row per individual and covers every
    individual with annotation rows, [add_counts] returns whatever terms the
    rows carry; it has warned about every annotated term the ontology object
    does not know; the totals and the patient count have grown by the
    individuals alone, so that rows with other terms for the same
    individuals give the same totals; a term count has moved only for a
    known annotated term of the batch or a term that the ontology object
    returned for one, so an unknown term is counted for nobody unless some
    closure of a known term holds it; and the ontology object is asked about
    known terms only: an object that agrees with it on them gives the same
    run. *)
Theorem unknown_terms_warn_and_skip self rows ca p :
  NoDup (ca.*1) → (∀ pid, pid ∈ rows.*1 → pid ∈ ca.*1) →
  ∃ self' p',
    add_counts self rows ca p = Ok (self', p')
    ∧ (∀ pid t, (pid, t) ∈ rows → SemsimHpoEnsmallen.node_exists (_hpo self) t = false →
         unknown_warning t ∈ warnings p')
    ∧ (∀ c, total_of self' c = total_of self c + Z.of_nat (individuals_in ca c rows))
    ∧ _total_patients self'
      = _total_patients self + Z.of_nat (length (remove_dups (rows.*1)))
    ∧ (∀ rows2, rows2.*1 = rows.*1 →
         ∃ self2 p2,
           add_counts self rows2 ca p = Ok (self2, p2)
           ∧ (∀ c, total_of self2 c = total_of self' c)
           ∧ _total_patients self2 = _total_patients self')
    ∧ (∀ c t,
         with_of self' t c = with_of self t c
         ∨ ∃ pid x, (pid, x) ∈ rows ∧ (pid, c) ∈ ca
                    ∧ SemsimHpoEnsmallen.node_exists (_hpo self) x = true
                    ∧ (t = x ∨ in_closure_of (_hpo self) x t))
    ∧ (∀ t, SemsimHpoEnsmallen.node_exists (_hpo self) t = false →
         (∀ x, SemsimHpoEnsmallen.node_exists (_hpo self) x = true →
               ¬ in_closure_of (_hpo self) x t) →
         ∀ c, with_of self' t c = with_of self t c)
    ∧ (∀ hpo2, agree_on_known (_hpo self) hpo2 →
         add_counts (with_hpo self hpo2) rows ca p = Ok (with_hpo self' hpo2, p')).
Proof.
  intros Hnd Hall. destruct (add_counts_returns self rows ca p Hnd Hall) as [[self' p'] Hrun].
  exists self', p'. split; [done|].
  pose proof (add_counts_counts _ _ _ _ _ _ Hrun) as (_ & _ & Honly & _).
  pose proof (add_counts_effect _ _ _ _ _ _ Hrun)
    as (_ & _ & Htot & Hn & _ & _ & _ & _ & Hwarn & _).
  split; [|split; [exact Htot|split; [exact Hn|split; [|split; [exact Honly|split]]]]].
  - intros pid t Hin Hex. apply Hwarn. right. exists t. split; [|done].
    apply list_elem_of_fmap. by exists (pid, t).
  - intros rows2 Hids.
    destruct (add_counts_returns self rows2 ca p Hnd) as [[self2 p2] Hrun2].
    { by rewrite Hids. }
    exists self2, p2. split; [done|].
    apply add_counts_effect in Hrun2 as (_ & _ & Htot2 & Hn2 & _).
    split.
    + intros c. unfold total_of. rewrite Htot, Htot2. unfold individuals_in. by rewrite Hids.
    + by rewrite Hn, Hn2, Hids.
  - intros t Hex Hno c. destruct (Honly c t) as [?|(pid & x & _ & _ & Hx & [->|Hcl])]; [done| |].
    + congruence.
    + by destruct (Hno x Hx).
  - intros hpo2 Hagree. by rewrite add_counts_agree, Hrun.
Qed.

Lemma unknown_terms_warn_and_skip_witness :
  ∃ self' p',
    add_counts (fresh_analyzer chain) [("p1", "A"); ("p1", "HP:bogus"); ("p2", "HP:bogus")]
               [("p1", "1"); ("p2", "2")] fresh_process = Ok (self', p')
    ∧ unknown_warning "HP:bogus" ∈ warnings p'
    ∧ total_of self' "2" = 1
    ∧ _total_patients self' = 2
    ∧ with_of self' "HP:bogus" "1" = 0
    ∧ with_of self' "HP:bogus" "2" = 0.
Proof.
  destruct (unknown_terms_warn_and_skip (fresh_analyzer chain)
              [("p1", "A"); ("p1", "HP:bogus"); ("p2", "HP:bogus")]
              [("p1", "1"); ("p2", "2")] fresh_process)
    as (self' & p' & Hrun & Hwarn & Htot & Hn & _ & _ & Hskip & _).
  - apply (bool_decide_unpack _). vm_compute. exact I.
  - simpl. set_solver.
  - assert (∀ c, with_of self' "HP:bogus" c = 0) as Hzero.
    { intros c. rewrite Hskip.
      - unfold with_of, count_at. cbn [fresh_analyzer __init__ _percluster_termcounts].
        rewrite lookup_empty. cbn [default]. by rewrite lookup_empty.
      - vm_compute. reflexivity.
      - intros x Hx [d Hin]. cbn [fresh_analyzer __init__ _hpo SemsimHpoEnsmallen.from_spec
          SemsimHpoEnsmallen.node_exists SemsimHpoEnsmallen.get_ancestors fst] in Hx, Hin.
        apply HpoEnsmallenClosure.ancestorsOf_known in Hin; [|done].
        vm_compute in Hin. discriminate. }
    exists self', p'. split; [exact Hrun|]. split; [|split; [|split; [|split]]].
    + apply (Hwarn "p2"); [apply (bool_decide_unpack _); vm_compute; exact I|]. vm_compute. reflexivity.
    + rewrite Htot. vm_compute. reflexivity.
    + rewrite Hn. vm_compute. reflexivity.
    + apply Hzero.
    + apply Hzero.
Defined.



(** C4: one individual annotated only with the known term [x]: [add_counts]
    returns, and in the individual's cluster the count of a term [r] has
    gone up by exactly one if [r] is [x] or is in the list the ontology
    object returns for [x], however many times the list holds it, and has
    not moved otherwise; in no other cluster has it moved.  Over an ontology
    object that answers as the spec describes, the terms counted are those
    reached from [x] along parent edges, by however many paths. *)
Theorem closure_terms_counted_once self pid x c p r :
  SemsimHpoEnsmallen.node_exists (_hpo self) x = true →
  ∃ self' p',
    add_counts self [(pid, x)] [(pid, c)] p = Ok (self', p')
    ∧ (r = x ∨ r ∈ (SemsimHpoEnsmallen.get_ancestors (_hpo self) x (hpo_defaults p)).1 →
       with_of self' r c = with_of self r c + 1)
    ∧ (r ≠ x → r ∉ (SemsimHpoEnsmallen.get_ancestors (_hpo self) x (hpo_defaults p)).1 →
       with_of self' r c = with_of self r c)
    ∧ (∀ c', c' ≠ c → with_of self' r c' = with_of self r c')
    ∧ (∀ g, _hpo self = SemsimHpoEnsmallen.from_spec g →
         (rtc (parent_of g) x r → with_of self' r c = with_of self r c + 1)
         ∧ (¬ rtc (parent_of g) x r → with_of self' r c = with_of self r c)).
Proof.
  intros Hex.
  destruct (single_individual_counts self pid x c p Hex) as (self' & p' & Hrun & Hcount).
  exists self', p'. split; [done|]. split; [|split; [|split]].
  - intros Hr. rewrite Hcount, decide_True; done.
  - intros Hne Hnin. rewrite Hcount, decide_False; [lia|]. by intros [_ [?|?]].
  - intros c' Hne. rewrite Hcount, decide_False; [lia|]. by intros [? _].
  - intros g Hhpo.
    assert ((r = x ∨ r ∈ (SemsimHpoEnsmallen.get_ancestors (_hpo self) x (hpo_defaults p)).1)
            ↔ rtc (parent_of g) x r) as Hcl.
    { rewrite Hhpo. cbn [SemsimHpoEnsmallen.from_spec SemsimHpoEnsmallen.get_ancestors fst].
      rewrite HpoEnsmallenClosure.ancestorsOf_closure. split; [|by right].
      intros [->|?]; [apply rtc_refl|done]. }
    split.
    + intros Hr. rewrite Hcount, decide_True; [done|]. split; [done|]. by apply Hcl.
    + intros Hr. rewrite Hcount, decide_False; [lia|]. intros [_ ?%Hcl]. done.
Qed.

Lemma closure_terms_counted_once_witness :
  (∃ self' p',
     add_counts (fresh_analyzer diamond) [("p1", "X")] [("p1", "1")] fresh_process
     = Ok (self', p')
     ∧ with_of self' "R" "1" = 1)
  ∧ (∃ self' p',
       add_counts (__init__ diamond_by_paths) [("p1", "X")] [("p1", "1")] fresh_process
       = Ok (self', p')
       ∧ with_of self' "R" "1" = 1).
Proof.
  split.
  - destruct (closure_terms_counted_once (fresh_analyzer diamond) "p1" "X" "1"
                fresh_process "R") as (self' & p' & Hrun & _ & _ & _ & Hspec).
    + vm_compute. reflexivity.
    + exists self', p'. split; [exact Hrun|].
      destruct (Hspec diamond eq_refl) as [-> _].
      * vm_compute. reflexivity.
      * apply rtc_l with "P1"; [|apply rtc_once]; unfold parent_of;
          apply (bool_decide_unpack _); vm_compute; exact I.
  - destruct (closure_terms_counted_once (__init__ diamond_by_paths) "p1" "X" "1"
                fresh_process "R") as (self' & p' & Hrun & Hone & _).
    + vm_compute. reflexivity.
    + exists self', p'. split; [exact Hrun|]. rewrite Hone.
      * vm_compute. reflexivity.
      * right. apply (bool_decide_unpack _). vm_compute. exact I.
Defined.

(** C10: after a successful [add_counts] the recorded clusters are, without
    repetition, the cluster ids of that call's assignment rows, whatever was
    recorded before.  A report made then returns whenever every cluster of
    the assignment had its map of term counts or has an individual with
    annotation rows and the library test answers; a returned report has one
    row for every observed term, in the order the terms are iterated; the
    row holds, next to its fixed columns, the with/without/total columns of
    exactly the clusters of this assignment, filled with the stored counts.
    What the analyzer stores for a cluster outside this assignment is
    untouched, and no report shows it. *)
Theorem clusters_are_those_of_the_last_batch self rows ca p self' p' :
  add_counts self rows ca p = Ok (self', p') →
  (∀ c, c ∈ _clusters self' ↔ c ∈ ca.*2)
  ∧ NoDup (_clusters self')
  ∧ (∀ chi2_contingency,
       ((∀ c, c ∈ ca.*2 → is_Some (_percluster_termcounts self !! c)
                           ∨ (0 < individuals_in ca c rows)%nat) →
        always_answers chi2_contingency →
        ∃ report self'' p'', do_chi2 chi2_contingency self' p' = Ok (report, self'', p''))
       ∧ ∀ report self'' p'',
           do_chi2 chi2_contingency self' p' = Ok (report, self'', p'') →
           Forall2 (λ hpo_id d,
                      d !! "hpo_id" = Some (VStr hpo_id)
                      ∧ ∀ c, c ∈ ca.*2 →
                          d !! (c +:+ "-total") = Some (VInt (total_of self' c))
                          ∧ d !! (c +:+ "-with") = Some (VInt (with_of self' hpo_id c))
                          ∧ d !! (c +:+ "-without")
                            = Some (VInt (without_of self' hpo_id c)))
                   (elements (_hpo_terms self')) report
           ∧ ∀ d k, d ∈ report →
               (k ∈ dom d ↔
                k ∈ ({["hpo_id"; "stat"; "p"; "dof"; "expected"]} : gset string)
                ∨ ∃ c, c ∈ ca.*2 ∧ k ∈ cluster_columns c))
  ∧ (∀ fisher_exact,
       ((∀ c, c ∈ ca.*2 → is_Some (_percluster_termcounts self !! c)
                           ∨ (0 < individuals_in ca c rows)%nat) →
        always_answers fisher_exact →
        ∃ report self'' p'', do_fisher_exact fisher_exact self' p' = Ok (report, self'', p''))
       ∧ ∀ report self'' p'',
           do_fisher_exact fisher_exact self' p' = Ok (report, self'', p'') →
           Forall2 (λ hpo_id d,
                      d !! "hpo_id" = Some (VStr hpo_id)
                      ∧ ∀ c, c ∈ ca.*2 →
                          d !! (c +:+ "-total") = Some (VInt (total_of self' c))
                          ∧ d !! (c +:+ "-with") = Some (VInt (with_of self' hpo_id c))
                          ∧ d !! (c +:+ "-without")
                            = Some (VInt (without_of self' hpo_id c)))
                   (elements (_hpo_terms self')) report
           ∧ ∀ d k, d ∈ report →
               (k ∈ dom d ↔
                k ∈ ({["hpo_id"; "oddsr"; "p"]} : gset string)
                ∨ ∃ c, c ∈ ca.*2 ∧ k ∈ cluster_columns c))
  ∧ (∀ c, c ∉ ca.*2 →
       _percluster_termcounts self' !! c = _percluster_termcounts self !! c
       ∧ _per_cluster_total_pt_count self' !! c = _per_cluster_total_pt_count self !! c).
Proof.
  intros Hrun.
  pose proof (add_counts_counts _ _ _ _ _ _ Hrun) as (_ & _ & _ & Hmaps).
  apply add_counts_effect in Hrun as (_ & _ & _ & _ & Hcl & Hnd & _ & _ & _ & Hother).
  assert ((∀ c, c ∈ ca.*2 → is_Some (_percluster_termcounts self !! c)
                            ∨ (0 < individuals_in ca c rows)%nat) →
          clusters_counted self') as Hcounted.
  { intros Hall c Hc. by apply Hmaps, Hall, Hcl. }
  split; [exact Hcl|]. split; [exact Hnd|]. split; [|split; [|exact Hother]].
  - intros chi2. split.
    + intros Hall Hlib. unfold do_chi2.
      destruct (term_loop_returns (chi2_row chi2)) with
        (hpo_ids := elements (_hpo_terms self')) (self := self') (p := p')
        (results := @nil (gmap string value)) as [[[report self''] p''] Hr].
      * intros s q t s' q' d Hrow. by apply chi2_row_effect in Hrow as [? _].
      * intros t s q Hin Hsame. apply chi2_row_returns; [|intros _; apply Hlib].
        apply (same_counts_counted self' s); [done|]. by apply Hcounted.
      * by exists report, self'', p''.
    + intros report self'' p'' Hrep. split.
      * apply do_chi2_rows in Hrep as (Hrows & _).
        eapply Forall2_impl; [exact Hrows|]. intros t d (_ & [Hid Hcells] & _).
        split; [done|]. intros c Hc. by apply Hcells, Hcl.
      * intros d k Hd. apply do_chi2_effect in Hrep as (_ & _ & Hdom). rewrite (Hdom d Hd).
        unfold chi2_columns. rewrite elem_of_union, elem_of_clusters_columns.
        by setoid_rewrite Hcl.
  - intros fisher. split.
    + intros Hall Hlib. unfold do_fisher_exact.
      destruct (term_loop_returns (fisher_row fisher)) with
        (hpo_ids := elements (_hpo_terms self')) (self := self') (p := p')
        (results := @nil (gmap string value)) as [[[report self''] p''] Hr].
      * intros s q t s' q' d Hrow. by apply fisher_row_effect in Hrow as [? _].
      * intros t s q Hin Hsame. apply fisher_row_returns; [|apply Hlib].
        apply (same_counts_counted self' s); [done|]. by apply Hcounted.
      * by exists report, self'', p''.
    + intros report self'' p'' Hrep. split.
      * apply do_fisher_exact_rows in Hrep.
        eapply Forall2_impl; [exact Hrep|]. intros t d (_ & [Hid Hcells] & _).
        split; [done|]. intros c Hc. by apply Hcells, Hcl.
      * intros d k Hd. apply do_fisher_exact_effect in Hrep as (_ & _ & _ & Hdom).
        rewrite (Hdom d Hd).
        unfold fisher_columns. rewrite elem_of_union, elem_of_clusters_columns.
        by setoid_rewrite Hcl.
Qed.

Lemma second_batch_returns :
  add_counts (analyzer_of chain first_batch) scenario1_rows scenario1_clusters
             (process_of first_batch)
  = Ok (analyzer_of chain second_batch, process_of second_batch).
Proof. vm_compute. reflexivity. Qed.

Lemma second_batch_chi2_returns :
  do_chi2 chi2_contingency_stub (analyzer_of chain second_batch) (process_of second_batch)
  = Ok (rows_of second_batch_chi2, analyzer_after chain second_batch_chi2,
        process_after_report second_batch_chi2).
Proof.
  vm_cast_no_check
    (eq_refl (Ok (rows_of second_batch_chi2, analyzer_after chain second_batch_chi2,
                  process_after_report second_batch_chi2))).
Qed.

Lemma clusters_are_those_of_the_last_batch_witness :
  (∀ c, c ∈ _clusters (analyzer_of chain second_batch) ↔ c ∈ ["1"; "2"])
  ∧ _per_cluster_total_pt_count (analyzer_of chain second_batch) !! "9" = Some 1
  ∧ length (rows_of second_batch_chi2) = 2%nat
  ∧ ∀ d, d ∈ rows_of second_batch_chi2 →
      "1-total" ∈ dom d ∧ "2-total" ∈ dom d ∧ "9-total" ∉ dom d.
Proof.
  destruct (clusters_are_those_of_the_last_batch (analyzer_of chain first_batch)
              scenario1_rows scenario1_clusters (process_of first_batch)
              (analyzer_of chain second_batch) (process_of second_batch)
              second_batch_returns)
    as (Hcl & _ & Hchi2 & _ & Hother).
  destruct (Hchi2 chi2_contingency_stub) as [_ Hrep].
  destruct (Hrep _ _ _ second_batch_chi2_returns) as [Hrows Hdom].
  split; [exact Hcl|]. split; [|split].
  - destruct (Hother "9") as [_ ->].
    + apply (bool_decide_unpack _). vm_compute. exact I.
    + vm_compute. reflexivity.
  - rewrite <- (Forall2_length _ _ _ Hrows). vm_compute. reflexivity.
  - intros d Hd. split; [|split].
    + apply (Hdom d "1-total" Hd). right. exists "1".
      split; [apply (bool_decide_unpack _); vm_compute; exact I|].
      apply (bool_decide_unpack _). vm_compute. exact I.
    + apply (Hdom d "2-total" Hd). right. exists "2".
      split; [apply (bool_decide_unpack _); vm_compute; exact I|].
      apply (bool_decide_unpack _). vm_compute. exact I.
    + intros [Hfix|(c & Hc & Hk)]%(Hdom d "9-total" Hd).
      * revert Hfix. apply (bool_decide_unpack _). vm_compute. exact I.
      * assert (c = "1" ∨ c = "2") as [->| ->].
        { cbn in Hc. apply elem_of_cons in Hc as [->|Hc]; [by left|].
          apply elem_of_cons in Hc as [->|Hc]; [by right|].
          by apply elem_of_nil in Hc. }
        -- revert Hk. apply (bool_decide_unpack _). vm_compute. exact I.
        -- revert Hk. apply (bool_decide_unpack _). vm_compute. exact I.
Defined.

(** C7: p1 (cluster 1, annotated A) and p2 (cluster 2, no annotation row),
    aggregated into a fresh analyzer over any ontology object.  [add_counts]
    returns; A is an observed term, clusters 1 and 2 are recorded; if the
    ontology object knows A, in neither cluster is there an individual
    without A, and if it does not, in neither is there one with A; cluster 2
    has no map of term counts; and [do_chi2] ends in [KeyError] instead of a
    not-a-number row for A, whatever the library test would do. *)
Theorem chi2_report_raises_for_empty_cluster (hpo : SemsimHpoEnsmallen.t)
    (chi2_contingency : list (list Z) → result (float * float * Z * list (list float))) :
  ∃ self' p',
    one_annotated_of_two hpo = Ok (self', p')
    ∧ "A" ∈ _hpo_terms self'
    ∧ _clusters self' ≡ₚ ["1"; "2"]
    ∧ (SemsimHpoEnsmallen.node_exists hpo "A" = true →
       without_of self' "A" "1" = 0 ∧ without_of self' "A" "2" = 0)
    ∧ (SemsimHpoEnsmallen.node_exists hpo "A" = false →
       with_of self' "A" "1" = 0 ∧ with_of self' "A" "2" = 0)
    ∧ _percluster_termcounts self' !! "2" = None
    ∧ do_chi2 chi2_contingency self' p' = Raise (KeyError "A").
Proof.
  unfold one_annotated_of_two.
  destruct (add_counts_returns (__init__ hpo) [("p1", "A")] [("p1", "1"); ("p2", "2")]
              fresh_process) as [[self' p'] Hrun].
  { apply (bool_decide_unpack _). vm_compute. exact I. }
  { intros pid Hpid. apply list_elem_of_singleton in Hpid as ->. apply list_elem_of_here. }
  exists self', p'. split; [done|].
  pose proof (add_counts_counts _ _ _ _ _ _ Hrun) as (Hle & Hge & Honly & Hmaps).
  pose proof (add_counts_effect _ _ _ _ _ _ Hrun)
    as (_ & _ & Htot & _ & Hcl & Hnd & _ & Hterms & _).
  clear Hrun.
  assert (∀ t c, with_of (__init__ hpo) t c = 0) as Hw0.
  { intros t c. unfold with_of, count_at. cbn [__init__ _percluster_termcounts].
    rewrite lookup_empty. cbn [default]. by rewrite lookup_empty. }
  assert (∀ c, count_at (_per_cluster_total_pt_count (__init__ hpo)) c = 0) as Ht0.
  { intros c. unfold count_at. cbn [__init__ _per_cluster_total_pt_count].
    by rewrite lookup_empty. }
  assert (individuals_in [("p1", "1"); ("p2", "2")] "1" [("p1", "A")] = 1%nat) as Hi1
    by (vm_compute; reflexivity).
  assert (individuals_in [("p1", "1"); ("p2", "2")] "2" [("p1", "A")] = 0%nat) as Hi2
    by (vm_compute; reflexivity).
  assert (annotated_in [("p1", "1"); ("p2", "2")] "1" [("p1", "A")] "A" = 1%nat) as Ha1
    by (vm_compute; reflexivity).
  assert ("2" ∈ _clusters self') as Hc2.
  { apply Hcl. apply (bool_decide_unpack _). vm_compute. exact I. }
  assert (_percluster_termcounts self' !! "2" = None) as Hnone.
  { destruct (_percluster_termcounts self' !! "2") as [m|] eqn:Hm; [|done]. exfalso.
    assert (is_Some (_percluster_termcounts self' !! "2")) as Hsome by (by rewrite Hm).
    apply Hmaps in Hsome as [Hsome|Hsome].
    - cbn [__init__ _percluster_termcounts] in Hsome. rewrite lookup_empty in Hsome.
      by destruct Hsome.
    - rewrite Hi2 in Hsome. lia. }
  split; [|split; [|split; [|split; [|split; [exact Hnone|]]]]].
  - apply Hterms. left. apply list_elem_of_here.
  - apply NoDup_Permutation; [exact Hnd| |].
    + apply (bool_decide_unpack _). vm_compute. exact I.
    + intros c. by rewrite Hcl.
  - intros Hknown. unfold without_of, total_of. rewrite !Htot, !Ht0, Hi1, Hi2.
    pose proof (Hle "1" "A") as H1. pose proof (Hle "2" "A") as H2.
    pose proof (Hge "1" "A" Hknown) as H3.
    rewrite Hw0, ?Hi1, ?Hi2, ?Ha1 in H1, H2, H3. lia.
  - intros Hunknown.
    assert (∀ c, with_of self' "A" c = 0) as Hz; [|rewrite !Hz; split; reflexivity].
    intros c. destruct (Honly c "A") as [->|(pid & x & Hin & _ & Hx & _)]; [apply Hw0|].
    apply list_elem_of_singleton in Hin. injection Hin as _ ->.
    cbn [__init__ _hpo] in Hx. congruence.
  - unfold do_chi2.
    assert (_hpo_terms self' = {["A"]}) as ->.
    { apply set_eq. intros t. rewrite Hterms, elem_of_singleton.
      cbn [__init__ _hpo_terms]. split.
      - intros [Hin|Hin]; [by apply list_elem_of_singleton in Hin|].
        destruct (not_elem_of_empty (C:=gset string) _ Hin).
      - intros ->. left. apply list_elem_of_here. }
    rewrite elements_singleton, term_loop_cons, chi2_row_raises; [done|].
    exists "2". split; [exact Hc2|exact Hnone].
Qed.

Lemma chi2_report_raises_for_empty_cluster_witness :
  ∃ self' p',
    one_annotated_of_two (SemsimHpoEnsmallen.from_spec chain) = Ok (self', p')
    ∧ without_of self' "A" "1" = 0
    ∧ without_of self' "A" "2" = 0
    ∧ do_chi2 chi2_contingency_stub self' p' = Raise (KeyError "A").
Proof.
  destruct (chi2_report_raises_for_empty_cluster (SemsimHpoEnsmallen.from_spec chain)
              chi2_contingency_stub)
    as (self' & p' & Hrun & _ & _ & Hknown & _ & _ & Hraise).
  exists self', p'. split; [exact Hrun|].
  destruct Hknown as [H1 H2]; [vm_compute; reflexivity|].
  split; [exact H1|]. split; [exact H2|exact Hraise].
Defined.

(** C8, as stated, fails: with three recorded clusters and an observed term,
    no library primitive makes [do_fisher_exact] return not-a-number fields
    together with a diagnostic, and one that wants a 2 by 2 table makes it
    raise. *)
Lemma fisher_three_clusters_not_surfaced :
  is_ok three_clusters = true
  ∧ length (_clusters (analyzer_of chain three_clusters)) = 3%nat
  ∧ (∀ fisher_exact,
       ¬ shape_surfaced fisher_exact (analyzer_of chain three_clusters)
           (process_of three_clusters))
  ∧ is_ok (do_fisher_exact fisher_exact_2x2_only (analyzer_of chain three_clusters)
             (process_of three_clusters)) = false.
Proof.
  split; [by vm_compute|]. split; [by vm_compute|]. split; [|by vm_compute].
  intros fisher_exact (report & self' & p' & Hrun & _ & Hwarn).
  apply do_fisher_exact_effect in Hrun as (_ & -> & _). done.
Qed.

(** C8, amended: [do_fisher_exact] hands the table of every observed term to
    the library primitive without looking at its shape.  A call that returns
    has issued no diagnostic; and if the primitive refuses tables that are
    not 2 by 2, the recorded clusters are not exactly two and some term was
    observed, the call ends in a raised exception. *)
Theorem fisher_report_has_no_shape_guard fisher_exact self p :
  (∀ report self' p',
     do_fisher_exact fisher_exact self p = Ok (report, self', p') → p' = p)
  ∧ (requires_2x2 fisher_exact → length (_clusters self) ≠ 2%nat → _hpo_terms self ≠ ∅ →
     ∃ e, do_fisher_exact fisher_exact self p = Raise e).
Proof.
  split.
  - intros report self' p' Hrun. by apply do_fisher_exact_effect in Hrun as (_ & -> & _).
  - intros Hreq Hlen Hterms. unfold do_fisher_exact.
    destruct (elements (_hpo_terms self)) as [|hpo_id rest] eqn:Hel.
    { apply elements_empty_inv in Hel. by apply leibniz_equiv in Hel. }
    destruct (fisher_row_raises fisher_exact self p hpo_id Hreq Hlen) as [e He].
    exists e.
    change (term_loop (fisher_row fisher_exact) (self, p) [] (hpo_id :: rest))
      with (fisher_row fisher_exact (self, p) hpo_id
            ≫= λ '(self1, p1, d),
                 term_loop (fisher_row fisher_exact) (self1, p1) ([] ++ [d]) rest).
    by rewrite He.
Qed.

Lemma fisher_report_has_no_shape_guard_witness :
  ∃ e, do_fisher_exact fisher_exact_2x2_only (analyzer_of chain three_clusters)
         (process_of three_clusters) = Raise e.
Proof.
  apply (fisher_report_has_no_shape_guard fisher_exact_2x2_only
           (analyzer_of chain three_clusters) (process_of three_clusters)).
  - exact fisher_exact_2x2_only_requires.
  - vm_compute. discriminate.
  - intros Hempty. assert ("A" ∈ _hpo_terms (analyzer_of chain three_clusters)) as Hin.
    { apply (bool_decide_unpack _). vm_compute. exact I. }
    rewrite Hempty in Hin. exact (not_elem_of_empty (C:=gset string) _ Hin).
Defined.

End HpoClusterAnalyzerFacts.

(** ** Bonferroni correction *)

Module CovariateFacts.
Import Notions Fixtures.




Lemma dict_zip_dom keys values k : k ∈ dom (dict_zip keys values) → k ∈ keys.
Proof.
  unfold dict_zip.
  assert (∀ (l : list (string * value)) (d : gmap string value),
            k ∈ dom (foldl (λ d kv, <[kv.1 := kv.2]> d) d l) → k ∈ dom d ∨ k ∈ l.*1) as Hfold.
  { induction l as [|[k' v'] l IH]; intros d; simpl; [by left|].
    intros [Hd|Hl]%IH; [|right; by right].
    rewrite dom_insert_L in Hd. apply elem_of_union in Hd as [->%elem_of_singleton|Hd].
    - right. by left.
    - by left. }
  intros [Hd|Hl]%Hfold; [by rewrite dom_empty_L in Hd|].
  apply list_elem_of_fmap in Hl as ([k' v'] & -> & Hin).
  by apply elem_of_zip_l in Hin.
Qed.



Section Covariates.

Variable lib : library.





End Covariates.


End CovariateFacts.

(** ** The aggregation pass: outcome, invariant and bounds *)

Module AggregationFacts.
Import HpoClusterAnalyzer Notions Fixtures AggregationLemmas ReportLemmas.

(** X7: how a call of [add_counts] ends.  An assignment with two rows for one
    individual is refused before anything else is looked at; otherwise an
    annotated individual without assignment row is refused by name; and the
    call returns exactly when neither is the case. *)
Theorem add_counts_outcome self rows ca p :
  (¬ NoDup (ca.*1) →
   add_counts self rows ca p
   = Raise (ValueError
              "column patient_id in cluster_assignment has duplicate rows for some patients!"))
  ∧ (NoDup (ca.*1) → (∃ pid, pid ∈ rows.*1 ∧ pid ∉ ca.*1) →
     ∃ pid, pid ∈ rows.*1 ∧ (pid ∉ ca.*1)
            ∧ add_counts self rows ca p
              = Raise (ValueError ("Could not find patient " +:+ pid
                                   +:+ " in cluster_assignment")))
  ∧ ((∃ r, add_counts self rows ca p = Ok r)
     ↔ NoDup (ca.*1) ∧ ∀ pid, pid ∈ rows.*1 → pid ∈ ca.*1).
Proof.
  split; [|split].
  - intros Hdup. unfold add_counts. rewrite bool_decide_eq_false_2; [done|].
    intros Hlen. by apply Hdup, list_set_length_NoDup.
  - intros Hnd (pid & Hin & Hnot). unfold add_counts.
    rewrite bool_decide_eq_true_2 by by apply NoDup_list_set_length.
    cbn [negb]. fold (cluster_dict_of ca).
    match goal with |- context [patient_loop _ ?acc _] =>
      destruct (patient_loop_raises (cluster_dict_of ca) (groupby_apply_list rows) acc)
        as (pid' & Hin' & Hnone & Hraise) end.
    + exists pid. split; [|by apply cluster_dict_lookup_None].
      rewrite groupby_keys. by apply elem_of_remove_dups.
    + exists pid'. rewrite groupby_keys, elem_of_remove_dups in Hin'.
      split; [done|]. split; [by apply cluster_dict_lookup_None|done].
  - split.
    + intros [[self' p'] Hrun]. apply add_counts_effect in Hrun as (Hnd & Hall & _). done.
    + intros [Hnd Hall]. by apply add_counts_returns.
Qed.

Lemma add_counts_outcome_witness :
  add_counts (fresh_analyzer chain) scenario1_rows twice_assigned fresh_process
  = Raise (ValueError
             "column patient_id in cluster_assignment has duplicate rows for some patients!")
  ∧ ∃ pid, pid ∈ scenario1_rows.*1 ∧ (pid ∉ [("p1", "1")].*1)
           ∧ add_counts (fresh_analyzer chain) scenario1_rows [("p1", "1")] fresh_process
             = Raise (ValueError ("Could not find patient " +:+ pid
                                  +:+ " in cluster_assignment")).
Proof.
  split.
  - apply (add_counts_outcome (fresh_analyzer chain) scenario1_rows twice_assigned fresh_process).
    apply (bool_decide_unpack _). vm_compute. exact I.
  - apply (add_counts_outcome (fresh_analyzer chain) scenario1_rows [("p1", "1")] fresh_process).
    + apply (bool_decide_unpack _). vm_compute. exact I.
    + exists "p2". split; apply (bool_decide_unpack _); vm_compute; exact I.
Defined.

(** X8: the invariant of the analyzer.  In every analyzer a program can hold,
    no count is negative, no term is counted for more individuals than its
    cluster has (so that no "without" count of a report is negative), a
    cluster that has a map of term counts has at least one individual, and
    no cluster is recorded twice. *)
Theorem reachable_counts_within_totals self :
  reachable self →
  counts_bounded self
  ∧ (∀ c t, (0 ≤ without_of self t c ≤ total_of self c)%Z)
  ∧ (∀ c, is_Some (_percluster_termcounts self !! c) → (1 ≤ total_of self c)%Z)
  ∧ NoDup (_clusters self).
Proof.
  intros Hreach.
  enough (counts_bounded self
          ∧ (∀ c, is_Some (_percluster_termcounts self !! c) → (1 ≤ total_of self c)%Z)
          ∧ NoDup (_clusters self)) as (Hb & Hm & Hnd).
  { split; [done|]. split; [|done]. intros c t. specialize (Hb c t). unfold without_of. lia. }
  induction Hreach as [hpo|self rows ca p self' p' _ (Hb & Hm & Hnd) Hrun
                      |chi2 self p report self' p' _ (Hb & Hm & Hnd) Hrun
                      |fisher self p report self' p' _ (Hb & Hm & Hnd) Hrun].
  - split; [apply counts_bounded_init|]. split; [|constructor].
    intros c [m Hc]. cbn [__init__ _percluster_termcounts] in Hc. by rewrite lookup_empty in Hc.
  - pose proof (add_counts_counts _ _ _ _ _ _ Hrun) as (Hbr & _ & _ & Hdom).
    apply add_counts_effect in Hrun as (_ & _ & Htot & _ & _ & Hnd' & _).
    split; [|split; [|done]].
    + intros c t. specialize (Hb c t). specialize (Hbr c t). specialize (Htot c).
      unfold total_of in *. lia.
    + intros c [Hc|Hc]%Hdom.
      * specialize (Hm c Hc). specialize (Htot c). unfold total_of in *. lia.
      * specialize (Hb c ""). specialize (Htot c). unfold total_of in *. lia.
  - apply do_chi2_effect in Hrun as ((Ht & Hw & Hdom & _ & Hcl & _) & _).
    split; [|split].
    + intros c t. rewrite Ht, Hw. apply Hb.
    + intros c Hc%Hdom. rewrite Ht. by apply Hm.
    + by rewrite Hcl.
  - apply do_fisher_exact_effect in Hrun as ((Ht & Hw & Hdom & _ & Hcl & _) & _).
    split; [|split].
    + intros c t. rewrite Ht, Hw. apply Hb.
    + intros c Hc%Hdom. rewrite Ht. by apply Hm.
    + by rewrite Hcl.
Qed.

Lemma reachable_counts_within_totals_witness :
  (0 ≤ without_of (analyzer_of chain three_clusters) "A" "1"
   ≤ total_of (analyzer_of chain three_clusters) "1")%Z.
Proof.
  apply (reachable_counts_within_totals (analyzer_of chain three_clusters)).
  apply (reachable_add_counts (fresh_analyzer chain)
           [("p1", "A"); ("p2", "A"); ("p3", "A")]
           [("p1", "1"); ("p2", "2"); ("p3", "3")] fresh_process
           (analyzer_of chain three_clusters) (process_of three_clusters));
    [apply reachable_init|].
  vm_compute. reflexivity.
Defined.

(** X9: how far a call of [add_counts] moves a count.  The count of a term in
    a cluster never goes down and goes up by at most the number of the
    call's individuals in that cluster; for a term the ontology object knows it goes
    up by at least the number of those that are annotated with the term. *)
Theorem annotated_terms_are_counted self rows ca p self' p' :
  add_counts self rows ca p = Ok (self', p') →
  ∀ c t,
    (with_of self t c ≤ with_of self' t c
     ≤ with_of self t c + Z.of_nat (individuals_in ca c rows))%Z
    ∧ (SemsimHpoEnsmallen.node_exists (_hpo self) t = true →
       (with_of self t c + Z.of_nat (annotated_in ca c rows t) ≤ with_of self' t c)%Z).
Proof.
  intros Hrun c t. apply add_counts_counts in Hrun as (Hbr & Hlow & _). split; [apply Hbr|].
  apply Hlow.
Qed.

Lemma annotated_terms_are_counted_witness :
  (1 ≤ with_of (analyzer_of chain three_clusters) "A" "2")%Z.
Proof.
  destruct (annotated_terms_are_counted (fresh_analyzer chain)
              [("p1", "A"); ("p2", "A"); ("p3", "A")]
              [("p1", "1"); ("p2", "2"); ("p3", "3")] fresh_process
              (analyzer_of chain three_clusters) (process_of three_clusters)
              ltac:(vm_compute; reflexivity) "2" "A") as [_ Hlow].
  specialize (Hlow ltac:(vm_compute; reflexivity)).
  assert (annotated_in [("p1", "1"); ("p2", "2"); ("p3", "3")] "2"
            [("p1", "A"); ("p2", "A"); ("p3", "A")] "A" = 1%nat) as Hone
    by (vm_compute; reflexivity).
  rewrite Hone in Hlow.
  assert (with_of (fresh_analyzer chain) "A" "2" = 0) as Hzero by (vm_compute; reflexivity).
  rewrite Hzero in Hlow. exact Hlow.
Defined.

(** X10: which clusters have a map of term counts after [add_counts]: those
    that had one, and those into which the assignment puts an individual
    with annotation rows.  So every recorded cluster has its map exactly
    when every cluster of the assignment is one of these. *)
Theorem cluster_maps_after_add_counts self rows ca p self' p' :
  add_counts self rows ca p = Ok (self', p') →
  (∀ c, is_Some (_percluster_termcounts self' !! c)
        ↔ is_Some (_percluster_termcounts self !! c) ∨ (0 < individuals_in ca c rows)%nat)
  ∧ (clusters_counted self'
     ↔ ∀ c, c ∈ ca.*2 →
         is_Some (_percluster_termcounts self !! c) ∨ (0 < individuals_in ca c rows)%nat).
Proof.
  intros Hrun. pose proof (add_counts_counts _ _ _ _ _ _ Hrun) as (_ & _ & _ & Hdom).
  apply add_counts_effect in Hrun as (_ & _ & _ & _ & Hcl & _).
  split; [exact Hdom|]. unfold clusters_counted. split.
  - intros Hall c Hc. by apply Hdom, Hall, Hcl.
  - intros Hall c Hc. by apply Hdom, Hall, Hcl.
Qed.

Lemma cluster_maps_after_add_counts_witness :
  ¬ clusters_counted (analyzer_of chain (one_annotated_of_two (SemsimHpoEnsmallen.from_spec chain))).
Proof.
  destruct (cluster_maps_after_add_counts (fresh_analyzer chain) [("p1", "A")]
              [("p1", "1"); ("p2", "2")] fresh_process
              (analyzer_of chain (one_annotated_of_two (SemsimHpoEnsmallen.from_spec chain))) (process_of (one_annotated_of_two (SemsimHpoEnsmallen.from_spec chain))))
    as [_ [Hcounted _]].
  - vm_compute. reflexivity.
  - intros Hc. destruct (Hcounted Hc "2") as [[m Hm]|Hlt].
    + apply (bool_decide_unpack _). vm_compute. exact I.
    + vm_compute in Hm. discriminate.
    + vm_compute in Hlt. lia.
Defined.

End AggregationFacts.

(** ** The reports: rows, policy, outcome *)

Module ReportFacts.
Import HpoClusterAnalyzer Notions Fixtures AggregationLemmas ReportLemmas.

(** X11: the rows of both reports.  A report has one row per observed term, in
    the order the set of terms is iterated; the row holds the term and, for
    every recorded cluster, the total, the count with the term and their
    difference, as the analyzer stored them before the call; no cell of the
    row is overwritten by another, whatever the cluster ids are. *)
Theorem report_rows_hold_the_stored_counts self p :
  (∀ chi2_contingency report self' p',
     do_chi2 chi2_contingency self p = Ok (report, self', p') →
     Forall2 (row_counts self) (elements (_hpo_terms self)) report)
  ∧ (∀ fisher_exact report self' p',
       do_fisher_exact fisher_exact self p = Ok (report, self', p') →
       Forall2 (row_counts self) (elements (_hpo_terms self)) report).
Proof.
  split.
  - intros chi2 report self' p' Hrun. apply do_chi2_rows in Hrun as (Hall & _).
    eapply Forall2_impl; [exact Hall|]. by intros t d (_ & ? & _).
  - intros fisher report self' p' Hrun. apply do_fisher_exact_rows in Hrun.
    eapply Forall2_impl; [exact Hrun|]. by intros t d (_ & ? & _).
Qed.

(** X12: the policy of the chi-square report.  In a returned report the row of
    a term whose "without" counts are all zero, or else whose "with" counts
    are all zero, has not-a-number in its four result fields; the row of any
    other term has what the library test returned on the table of the stored
    counts.  The call has issued one warning for each term of the first
    kind, in row order, and nothing else; it does not touch the default
    lists of the ontology. *)
Theorem chi2_report_policy chi2_contingency self p report self' p' :
  do_chi2 chi2_contingency self p = Ok (report, self', p') →
  Forall2 (chi2_fields chi2_contingency self) (elements (_hpo_terms self)) report
  ∧ warnings p' = warnings p ++ omap (chi2_warning self) (elements (_hpo_terms self))
  ∧ hpo_defaults p' = hpo_defaults p.
Proof.
  intros Hrun. apply do_chi2_rows in Hrun as (Hall & Hdef & Hwarn).
  split; [|done]. eapply Forall2_impl; [exact Hall|]. by intros t d (_ & _ & ?).
Qed.

(** X13: the Fisher report.  In a returned report the row of every term has
    the odds ratio and the p-value the library primitive returned on the
    table of the stored counts, one column of the table per recorded
    cluster. *)
Theorem fisher_report_fields fisher_exact self p report self' p' :
  do_fisher_exact fisher_exact self p = Ok (report, self', p') →
  Forall2 (fisher_fields fisher_exact self) (elements (_hpo_terms self)) report
  ∧ ∀ hpo_id, length (with_counts self hpo_id) = length (_clusters self)
              ∧ length (without_counts self hpo_id) = length (_clusters self).
Proof.
  intros Hrun. apply do_fisher_exact_rows in Hrun. split.
  - eapply Forall2_impl; [exact Hrun|]. by intros t d (_ & _ & ?).
  - intros hpo_id. unfold with_counts, without_counts. by rewrite !length_fmap.
Qed.

(** X14: how [do_chi2] ends.  Without observed terms it returns an empty
    report and changes nothing.  If a recorded cluster has no map of term
    counts and some term was observed, it raises [KeyError] with the first
    term.  It returns exactly when no term was observed, or every recorded
    cluster has its map and the library test returns on the table of every
    term for which it is consulted. *)
Theorem do_chi2_outcome chi2_contingency self p :
  (_hpo_terms self = ∅ → do_chi2 chi2_contingency self p = Ok ([], self, p))
  ∧ (¬ clusters_counted self →
     ∀ hpo_id, head (elements (_hpo_terms self)) = Some hpo_id →
       do_chi2 chi2_contingency self p = Raise (KeyError hpo_id))
  ∧ ((∃ r, do_chi2 chi2_contingency self p = Ok r)
     ↔ _hpo_terms self = ∅
       ∨ (clusters_counted self
          ∧ ∀ hpo_id, hpo_id ∈ _hpo_terms self → chi2_warning self hpo_id = None →
              ∃ r, chi2_contingency [with_counts self hpo_id; without_counts self hpo_id]
                   = Ok r)).
Proof.
  assert (_hpo_terms self = ∅ → do_chi2 chi2_contingency self p = Ok ([], self, p)) as Hempty.
  { intros Hterms. unfold do_chi2. by rewrite Hterms, elements_empty. }
  split; [exact Hempty|]. split.
  - intros Hnot%not_counted_dec hpo_id Hhead. unfold do_chi2.
    destruct (elements (_hpo_terms self)) as [|t rest]; [done|]. injection Hhead as ->.
    rewrite term_loop_cons. by rewrite chi2_row_raises.
  - split.
    + intros [[[report self'] p'] Hrun]. apply do_chi2_rows in Hrun as (Hall & _).
      destruct (elements (_hpo_terms self)) as [|t rest] eqn:Hel.
      { left. by apply elements_nil_empty. }
      right. split.
      * apply Forall2_cons_inv_l in Hall as (d & report' & (Hc & _) & _ & _). exact Hc.
      * intros hpo_id Hin Hnone. rewrite <- elem_of_elements, Hel in Hin.
        apply list_elem_of_lookup in Hin as [i Hi].
        destruct (Forall2_lookup_l _ _ _ _ _ Hall Hi) as (d & _ & _ & _ & Hf).
        unfold chi2_fields in Hf. rewrite Hnone in Hf.
        destruct Hf as (stat & pv & dof & expected & Hlib & _). by eexists.
    + intros [Hterms|[Hcounted Hlib]]; [rewrite Hempty by done; by eexists|].
      unfold do_chi2. apply term_loop_returns.
      * intros s q t s' q' d Hrow. by apply chi2_row_effect in Hrow as [? _].
      * intros t s q Hin Hsame. apply chi2_row_returns.
        -- by apply (same_counts_counted self s).
        -- rewrite (chi2_warning_same self s), (with_counts_same self s),
             (without_counts_same self s) by done.
           apply Hlib. by apply elem_of_elements.
Qed.

(** X15: how [do_fisher_exact] ends: it returns exactly when no term was
    observed, or every recorded cluster has its map of term counts and the
    library primitive returns on the table of every observed term; without
    observed terms the report is empty, and a recorded cluster without map
    makes the call raise [KeyError] with the first term. *)
Theorem do_fisher_exact_outcome fisher_exact self p :
  (_hpo_terms self = ∅ → do_fisher_exact fisher_exact self p = Ok ([], self, p))
  ∧ (¬ clusters_counted self →
     ∀ hpo_id, head (elements (_hpo_terms self)) = Some hpo_id →
       do_fisher_exact fisher_exact self p = Raise (KeyError hpo_id))
  ∧ ((∃ r, do_fisher_exact fisher_exact self p = Ok r)
     ↔ _hpo_terms self = ∅
       ∨ (clusters_counted self
          ∧ ∀ hpo_id, hpo_id ∈ _hpo_terms self →
              ∃ r, fisher_exact [with_counts self hpo_id; without_counts self hpo_id] = Ok r)).
Proof.
  assert (_hpo_terms self = ∅ → do_fisher_exact fisher_exact self p = Ok ([], self, p))
    as Hempty.
  { intros Hterms. unfold do_fisher_exact. by rewrite Hterms, elements_empty. }
  split; [exact Hempty|]. split.
  - intros Hnot%not_counted_dec hpo_id Hhead. unfold do_fisher_exact.
    destruct (elements (_hpo_terms self)) as [|t rest]; [done|]. injection Hhead as ->.
    rewrite term_loop_cons. by rewrite fisher_row_raises_uncounted.
  - split.
    + intros [[[report self'] p'] Hrun]. apply do_fisher_exact_rows in Hrun.
      destruct (elements (_hpo_terms self)) as [|t rest] eqn:Hel.
      { left. by apply elements_nil_empty. }
      right. split.
      * apply Forall2_cons_inv_l in Hrun as (d & report' & (Hc & _) & _ & _). exact Hc.
      * intros hpo_id Hin. rewrite <- elem_of_elements, Hel in Hin.
        apply list_elem_of_lookup in Hin as [i Hi].
        destruct (Forall2_lookup_l _ _ _ _ _ Hrun Hi) as (d & _ & _ & _ & Hf).
        destruct Hf as (oddsr & pv & Hlib & _). by eexists.
    + intros [Hterms|[Hcounted Hlib]]; [rewrite Hempty by done; by eexists|].
      unfold do_fisher_exact. apply term_loop_returns.
      * intros s q t s' q' d Hrow. by apply fisher_row_effect in Hrow as [? _].
      * intros t s q Hin Hsame. apply fisher_row_returns.
        -- by apply (same_counts_counted self s).
        -- rewrite (with_counts_same self s), (without_counts_same self s) by done.
           apply Hlib. by apply elem_of_elements.
Qed.

(** X16: reports are repeatable.  [do_chi2] stores zero entries while it
    reads, but no later report can tell: after a returned [do_chi2] a second
    call returns the same rows, in whatever interpreter state, and a Fisher
    report that returned on the analyzer before returns the same rows on
    the analyzer after. *)
Theorem reports_are_repeatable chi2_contingency fisher_exact self p report self' p' :
  do_chi2 chi2_contingency self p = Ok (report, self', p') →
  ∀ q,
    (∃ self'' q', do_chi2 chi2_contingency self' q = Ok (report, self'', q'))
    ∧ (∀ fisher_report s q1,
         do_fisher_exact fisher_exact self p = Ok (fisher_report, s, q1) →
         ∃ s' q2, do_fisher_exact fisher_exact self' q = Ok (fisher_report, s', q2)).
Proof.
  intros Hrun q. pose proof (do_chi2_effect _ _ _ _ _ _ Hrun) as (Hsame & _).
  assert (_hpo_terms self' = _hpo_terms self) as Hterms by apply Hsame.
  split.
  - unfold do_chi2 in *. rewrite Hterms.
    eapply (term_loop_repeat (chi2_row chi2_contingency)); [| |exact Hsame|exact Hrun].
    + intros s q0 t s' q' d Hrow. by apply chi2_row_effect in Hrow as [? _].
    + intros. by eapply chi2_row_repeat.
  - intros fisher_report s q1 Hf. unfold do_fisher_exact in *. rewrite Hterms.
    eapply (term_loop_repeat (fisher_row fisher_exact)); [| |exact Hsame|exact Hf].
    + intros s0 q0 t s' q' d Hrow. by apply fisher_row_effect in Hrow as [? _].
    + intros. by eapply fisher_row_repeat.
Qed.

(** X17: which terms get a row.  After [add_counts] a chi-square report has a
    row for a term exactly when the term is among the annotations of that
    call or was observed before: a term the ontology object does not know gets its
    row, a term that was only counted as a member of some closure gets
    none. *)
Theorem rows_are_for_annotated_terms chi2_contingency self rows ca p self' p'
    q report self'' q' :
  add_counts self rows ca p = Ok (self', p') →
  do_chi2 chi2_contingency self' q = Ok (report, self'', q') →
  ∀ hpo_id,
    (∃ d, d ∈ report ∧ d !! "hpo_id" = Some (VStr hpo_id))
    ↔ hpo_id ∈ rows.*2 ∨ hpo_id ∈ _hpo_terms self.
Proof.
  intros Hadd Hrun hpo_id.
  apply add_counts_effect in Hadd as (_ & _ & _ & _ & _ & _ & _ & Hterms & _).
  rewrite <- Hterms, <- elem_of_elements.
  apply do_chi2_rows in Hrun as (Hall & _). split.
  - intros (d & [i Hi]%list_elem_of_lookup & Hid).
    destruct (Forall2_lookup_r _ _ _ _ _ Hall Hi) as (t & Ht & _ & [Hid' _] & _).
    rewrite Hid' in Hid. injection Hid as <-. apply list_elem_of_lookup. by exists i.
  - intros [i Hi]%list_elem_of_lookup.
    destruct (Forall2_lookup_l _ _ _ _ _ Hall Hi) as (d & Hd & _ & [Hid _] & _).
    exists d. split; [|done]. apply list_elem_of_lookup. by exists i.
Qed.

Lemma scenario1_chi2_returns :
  do_chi2 chi2_contingency_stub (analyzer_of chain scenario1_first)
          (process_of scenario1_first)
  = Ok (rows_of scenario1_chi2, analyzer_after chain scenario1_chi2,
        process_after_report scenario1_chi2).
Proof.
  vm_cast_no_check
    (eq_refl (Ok (rows_of scenario1_chi2, analyzer_after chain scenario1_chi2,
                  process_after_report scenario1_chi2))).
Qed.

Lemma scenario1_fisher_returns :
  do_fisher_exact fisher_exact_2x2_only (analyzer_of chain scenario1_first)
                  (process_of scenario1_first)
  = Ok (rows_of scenario1_fisher, analyzer_after chain scenario1_fisher,
        process_after_report scenario1_fisher).
Proof.
  vm_cast_no_check
    (eq_refl (Ok (rows_of scenario1_fisher, analyzer_after chain scenario1_fisher,
                  process_after_report scenario1_fisher))).
Qed.

Lemma report_rows_hold_the_stored_counts_witness :
  Forall2 (row_counts (analyzer_of chain scenario1_first))
          (elements (_hpo_terms (analyzer_of chain scenario1_first)))
          (rows_of scenario1_chi2).
Proof.
  exact (proj1 (report_rows_hold_the_stored_counts (analyzer_of chain scenario1_first)
                  (process_of scenario1_first))
               chi2_contingency_stub _ _ _ scenario1_chi2_returns).
Defined.

Lemma chi2_report_policy_witness :
  Forall2 (chi2_fields chi2_contingency_stub (analyzer_of chain scenario1_first))
          (elements (_hpo_terms (analyzer_of chain scenario1_first)))
          (rows_of scenario1_chi2)
  ∧ warnings (process_after_report scenario1_chi2)
    = warnings (process_of scenario1_first)
      ++ omap (chi2_warning (analyzer_of chain scenario1_first))
              (elements (_hpo_terms (analyzer_of chain scenario1_first)))
  ∧ hpo_defaults (process_after_report scenario1_chi2)
    = hpo_defaults (process_of scenario1_first).
Proof.
  exact (chi2_report_policy chi2_contingency_stub (analyzer_of chain scenario1_first)
           (process_of scenario1_first) _ _ _ scenario1_chi2_returns).
Defined.

Lemma fisher_report_fields_witness :
  Forall2 (fisher_fields fisher_exact_2x2_only (analyzer_of chain scenario1_first))
          (elements (_hpo_terms (analyzer_of chain scenario1_first)))
          (rows_of scenario1_fisher).
Proof.
  exact (proj1 (fisher_report_fields fisher_exact_2x2_only
                  (analyzer_of chain scenario1_first) (process_of scenario1_first)
                  _ _ _ scenario1_fisher_returns)).
Defined.

Lemma one_annotated_of_two_not_counted :
  ¬ clusters_counted (analyzer_of chain (one_annotated_of_two (SemsimHpoEnsmallen.from_spec chain))).
Proof.
  intros Hc. destruct (Hc "2") as [m Hm].
  - apply (bool_decide_unpack _). vm_compute. exact I.
  - vm_compute in Hm. discriminate.
Qed.

Lemma do_chi2_outcome_witness :
  do_chi2 chi2_contingency_stub (analyzer_of chain (one_annotated_of_two (SemsimHpoEnsmallen.from_spec chain)))
          (process_of (one_annotated_of_two (SemsimHpoEnsmallen.from_spec chain)))
  = Raise (KeyError "A").
Proof.
  apply (do_chi2_outcome chi2_contingency_stub (analyzer_of chain (one_annotated_of_two (SemsimHpoEnsmallen.from_spec chain)))
           (process_of (one_annotated_of_two (SemsimHpoEnsmallen.from_spec chain)))).
  - exact one_annotated_of_two_not_counted.
  - vm_compute. reflexivity.
Defined.

Lemma do_fisher_exact_outcome_witness :
  do_fisher_exact fisher_exact_2x2_only (__init__ (SemsimHpoEnsmallen.from_spec chain)) fresh_process
  = Ok ([], __init__ (SemsimHpoEnsmallen.from_spec chain), fresh_process)
  ∧ do_fisher_exact fisher_exact_2x2_only (analyzer_of chain (one_annotated_of_two (SemsimHpoEnsmallen.from_spec chain)))
                    (process_of (one_annotated_of_two (SemsimHpoEnsmallen.from_spec chain)))
    = Raise (KeyError "A").
Proof.
  split.
  - apply (do_fisher_exact_outcome fisher_exact_2x2_only (__init__ (SemsimHpoEnsmallen.from_spec chain)) fresh_process).
    reflexivity.
  - apply (do_fisher_exact_outcome fisher_exact_2x2_only
             (analyzer_of chain (one_annotated_of_two (SemsimHpoEnsmallen.from_spec chain))) (process_of (one_annotated_of_two (SemsimHpoEnsmallen.from_spec chain)))).
    + exact one_annotated_of_two_not_counted.
    + vm_compute. reflexivity.
Defined.

Lemma reports_are_repeatable_witness :
  ∃ self'' q',
    do_chi2 chi2_contingency_stub (analyzer_after chain scenario1_chi2)
            (process_after_report scenario1_chi2)
    = Ok (rows_of scenario1_chi2, self'', q').
Proof.
  exact (proj1 (reports_are_repeatable chi2_contingency_stub fisher_exact_2x2_only
                  (analyzer_of chain scenario1_first) (process_of scenario1_first)
                  _ _ _ scenario1_chi2_returns (process_after_report scenario1_chi2))).
Defined.

Lemma rows_are_for_annotated_terms_witness :
  (∃ d, d ∈ rows_of scenario1_chi2 ∧ d !! "hpo_id" = Some (VStr "A"))
  ∧ ¬ (∃ d, d ∈ rows_of scenario1_chi2 ∧ d !! "hpo_id" = Some (VStr "B")).
Proof.
  pose proof (rows_are_for_annotated_terms chi2_contingency_stub (__init__ (SemsimHpoEnsmallen.from_spec chain))
                scenario1_rows scenario1_clusters fresh_process
                (analyzer_of chain scenario1_first) (process_of scenario1_first)
                (process_of scenario1_first) _ _ _
                scenario1_first_returns scenario1_chi2_returns) as Hrows.
  assert ("A" ∈ scenario1_rows.*2) as HA.
  { apply (bool_decide_unpack _). vm_compute. exact I. }
  assert ("B" ∉ scenario1_rows.*2) as HB.
  { apply (bool_decide_unpack _). vm_compute. exact I. }
  split.
  - exact (proj2 (Hrows "A") (or_introl HA)).
  - intros Hex. destruct (proj1 (Hrows "B") Hex) as [Hin|Hin]; [exact (HB Hin)|].
    revert Hin. cbn [__init__ _hpo_terms]. apply not_elem_of_empty.
Defined.

End ReportFacts.

(** ** The covariate report: rows and outcome *)

Module CovariateReportFacts.
Import Notions Fixtures CovariateFacts.

Section Report.

Variable lib : library.

(** The keys [add_true_counts_by_cluster] adds all begin with "cluster":
    the four fields of the row stay as they were. *)
Lemma add_true_counts_keeps d contingency_table column_is_bool d' col k :
  k ∈ ["covariate"; "chi2"; "p"; "dof"] →
  add_true_counts_by_cluster lib d contingency_table column_is_bool = Ok (d', col) →
  d' !! k = d !! k.
Proof.
  intros Hk. unfold add_true_counts_by_cluster.
  destruct (true_counts_by_cluster lib contingency_table column_is_bool) as [e|[c tc]];
    cbn [mbind result_bind]; [done|].
  intros [= <- <-].
  assert (∀ keys values, (∀ k', k' ∈ keys → k' ≠ k) → dict_zip keys values !! k = None)
    as Hnone.
  { intros keys values Hne. apply not_elem_of_dom. intros Hin%dict_zip_dom.
    by apply Hne in Hin. }
  rewrite !lookup_union_r; [done| |]; apply Hnone;
    intros k' (i & -> & _)%list_elem_of_fmap;
    repeat (apply elem_of_cons in Hk as [->|Hk]); try (by apply elem_of_nil in Hk);
    discriminate.
Qed.

Lemma covariate_step_skips cluster_series cluster_col minimum_n ignore_col results column :
  ¬ tested cluster_col ignore_col column →
  covariate_step lib cluster_series cluster_col minimum_n ignore_col results column
  = Ok results.
Proof.
  intros Hskip. unfold covariate_step.
  destruct (bool_decide (column.1 = cluster_col)) eqn:H1; [done|].
  destruct (bool_decide (column.1 ∈ ignore_col)) eqn:H2; [done|].
  exfalso. apply Hskip. apply bool_decide_eq_false in H1, H2. by split.
Qed.

Lemma covariate_step_tested cluster_series cluster_col minimum_n ignore_col results column
    results' :
  tested cluster_col ignore_col column →
  covariate_step lib cluster_series cluster_col minimum_n ignore_col results column
  = Ok results' →
  ∃ d, results' = results ++ [d]
       ∧ covariate_row lib cluster_series minimum_n column d
       ∧ column_answered lib cluster_series minimum_n column.
Proof.
  intros [H1 H2]. unfold covariate_step, covariate_row, column_answered, too_few.
  rewrite (bool_decide_eq_false_2 _ H1), (bool_decide_eq_false_2 _ H2). cbn [orb].
  set (tbl := pd_crosstab lib cluster_series column.2).
  destruct (dtype_is_bool column.2) eqn:Hb; cbn [andb].
  - destruct (bool_decide (count_true column.2 < minimum_n)) eqn:Hn.
    + apply bool_decide_eq_true in Hn. cbn [mbind result_bind].
      destruct (add_true_counts_by_cluster lib _ tbl _) as [e|[d col]] eqn:Hadd;
        cbn [mbind result_bind]; [done|].
      intros [= <-]. exists d. split; [done|].
      rewrite decide_True by done.
      rewrite (add_true_counts_keeps _ _ _ _ _ "covariate" ltac:(set_solver) Hadd),
        (add_true_counts_keeps _ _ _ _ _ "chi2" ltac:(set_solver) Hadd),
        (add_true_counts_keeps _ _ _ _ _ "p" ltac:(set_solver) Hadd),
        (add_true_counts_keeps _ _ _ _ _ "dof" ltac:(set_solver) Hadd).
      split; [by simplify_map_eq|]. split; [by left|].
      revert Hadd. unfold add_true_counts_by_cluster.
      destruct (true_counts_by_cluster lib tbl true); [done|by eexists].
    + apply bool_decide_eq_false in Hn.
      destruct (chi2_contingency lib tbl) as [e|[[[chi2 pv] dof] expd]] eqn:Hchi;
        cbn [mbind result_bind]; [done|].
      destruct (add_true_counts_by_cluster lib _ tbl _) as [e|[d col]] eqn:Hadd;
        cbn [mbind result_bind]; [done|].
      intros [= <-]. exists d. split; [done|].
      rewrite decide_False by tauto.
      rewrite (add_true_counts_keeps _ _ _ _ _ "covariate" ltac:(set_solver) Hadd),
        (add_true_counts_keeps _ _ _ _ _ "chi2" ltac:(set_solver) Hadd),
        (add_true_counts_keeps _ _ _ _ _ "p" ltac:(set_solver) Hadd),
        (add_true_counts_keeps _ _ _ _ _ "dof" ltac:(set_solver) Hadd).
      split; [split; [by simplify_map_eq|]|].
      * exists chi2, pv, dof, expd. by simplify_map_eq.
      * split; [right; by eexists|].
        revert Hadd. unfold add_true_counts_by_cluster.
        destruct (true_counts_by_cluster lib tbl true); [done|by eexists].
  - destruct (chi2_contingency lib tbl) as [e|[[[chi2 pv] dof] expd]] eqn:Hchi;
      cbn [mbind result_bind]; [done|].
    destruct (add_true_counts_by_cluster lib _ tbl _) as [e|[d col]] eqn:Hadd;
      cbn [mbind result_bind]; [done|].
    intros [= <-]. exists d. split; [done|].
    rewrite decide_False by (intros [? _]; congruence).
    rewrite (add_true_counts_keeps _ _ _ _ _ "covariate" ltac:(set_solver) Hadd),
      (add_true_counts_keeps _ _ _ _ _ "chi2" ltac:(set_solver) Hadd),
      (add_true_counts_keeps _ _ _ _ _ "p" ltac:(set_solver) Hadd),
      (add_true_counts_keeps _ _ _ _ _ "dof" ltac:(set_solver) Hadd).
    split; [split; [by simplify_map_eq|]|].
    * exists chi2, pv, dof, expd. by simplify_map_eq.
    * split; [right; by eexists|].
      revert Hadd. unfold add_true_counts_by_cluster.
      destruct (true_counts_by_cluster lib tbl false); [done|by eexists].
Qed.

Lemma covariate_step_returns cluster_series cluster_col minimum_n ignore_col results column :
  column_answered lib cluster_series minimum_n column →
  ∃ results', covariate_step lib cluster_series cluster_col minimum_n ignore_col results column
              = Ok results'.
Proof.
  intros [Htest [[col tc] Htc]]. unfold covariate_step.
  destruct (_ || _); [by eexists|].
  set (tbl := pd_crosstab lib cluster_series column.2) in *.
  unfold add_true_counts_by_cluster.
  destruct (dtype_is_bool column.2 && bool_decide (count_true column.2 < minimum_n)) eqn:Hgate;
    cbn [mbind result_bind].
  - rewrite Htc. cbn [mbind result_bind]. by eexists.
  - destruct Htest as [[Hb Hn]|[[[[chi2 pv] dof] expd] Hchi]].
    + unfold too_few in *. rewrite Hb, bool_decide_eq_true_2 in Hgate by done. done.
    + rewrite Hchi. cbn [mbind result_bind]. rewrite Htc. cbn [mbind result_bind].
      by eexists.
Qed.

Lemma covariate_loop_rows cluster_series cluster_col minimum_n ignore_col columns :
  ∀ results results',
    covariate_loop lib cluster_series cluster_col minimum_n ignore_col results columns
    = Ok results' →
    ∃ new, results' = results ++ new
           ∧ Forall2 (covariate_row lib cluster_series minimum_n)
                     (filter (tested cluster_col ignore_col) columns) new
           ∧ ∀ column, column ∈ columns → tested cluster_col ignore_col column →
               column_answered lib cluster_series minimum_n column.
Proof.
  induction columns as [|column rest IH]; intros results results'.
  - intros [= <-]. exists []. rewrite app_nil_r. split; [done|]. split; [constructor|].
    by intros column ?%elem_of_nil.
  - cbn [covariate_loop].
    destruct (covariate_step lib cluster_series cluster_col minimum_n ignore_col results column)
      as [e|results1] eqn:Hstep; cbn [mbind result_bind]; [done|].
    intros Hloop. apply IH in Hloop as (new & -> & Hall & Hans).
    destruct (decide (tested cluster_col ignore_col column)) as [Ht|Hs].
    + apply covariate_step_tested in Hstep as (d & -> & Hrow & Hcol); [|done].
      exists (d :: new). rewrite <- app_assoc. split; [done|].
      rewrite filter_cons_True by done. split; [by constructor|].
      intros c [->|Hin]%elem_of_cons Hc; [done|by apply Hans].
    + rewrite covariate_step_skips in Hstep by done. injection Hstep as <-.
      exists new. split; [done|]. rewrite filter_cons_False by done. split; [done|].
      intros c [->|Hin]%elem_of_cons Hc; [done|by apply Hans].
Qed.

Lemma covariate_loop_returns cluster_series cluster_col minimum_n ignore_col columns :
  ∀ results,
    (∀ column, column ∈ columns → tested cluster_col ignore_col column →
       column_answered lib cluster_series minimum_n column) →
    ∃ results',
      covariate_loop lib cluster_series cluster_col minimum_n ignore_col results columns
      = Ok results'.
Proof.
  induction columns as [|column rest IH]; intros results Hans; [by eexists|].
  cbn [covariate_loop].
  destruct (decide (tested cluster_col ignore_col column)) as [Ht|Hs].
  - destruct (covariate_step_returns cluster_series cluster_col minimum_n ignore_col
                results column) as [results1 ->]; [apply Hans; [by left|done]|].
    cbn [mbind result_bind]. apply IH. intros c Hc. apply Hans. by right.
  - rewrite covariate_step_skips by done. cbn [mbind result_bind].
    apply IH. intros c Hc. apply Hans. by right.
Qed.

Lemma cluster_series_of_None covariate_dataframe cluster_col :
  cluster_series_of covariate_dataframe cluster_col = None
  ↔ cluster_col ∉ covariate_dataframe.*1.
Proof.
  unfold cluster_series_of. rewrite fmap_None, list_find_None, Forall_forall.
  rewrite list_elem_of_fmap. split.
  - intros Hall ([name column] & -> & Hin). by apply (Hall _ Hin).
  - intros Hno [name column] Hin Heq. apply Hno. exists (name, column). by split.
Qed.

(** X18: the rows of the covariate report before the correction.  A returned
    uncorrected report has one row for every column that is neither the
    cluster column nor ignored, in column order; the row names the column;
    for a [bool] column with fewer than [minimum_n] cells that are [True]
    its three statistics are not-a-number, for any other column they are
    what the library test returned on the cross table of the cluster column
    and the column.  The keys added for the per-cluster counts overwrite
    none of these four fields. *)
Theorem covariate_report_rows covariate_dataframe cluster_col minimum_n ignore_col rows :
  do_chi_square_on_covariates lib covariate_dataframe cluster_col minimum_n ignore_col false
  = Ok rows →
  ∃ cluster_series,
    cluster_series_of covariate_dataframe cluster_col = Some cluster_series
    ∧ Forall2 (covariate_row lib cluster_series minimum_n)
              (filter (tested cluster_col ignore_col) covariate_dataframe) rows.
Proof.
  unfold do_chi_square_on_covariates, cluster_series_of.
  destruct (list_find _ covariate_dataframe) as [[i [name cluster_series]]|]; [|done].
  destruct (covariate_loop lib cluster_series cluster_col minimum_n ignore_col []
              covariate_dataframe) as [e|results] eqn:Hloop; cbn [mbind result_bind]; [done|].
  intros [= <-]. exists cluster_series. split; [done|].
  by apply covariate_loop_rows in Hloop as (new & -> & Hall & _).
Qed.

(** X19: how the covariate report ends.  Without the correction the call
    returns exactly when the cluster column exists and, for every column
    that is tested, the count lookup returns and the library test returns
    unless the column is a [bool] column with too few [True] cells, for
    which the test is never consulted.  A frame without the cluster column
    is refused with [ValueError] whatever else is asked.  With nothing to
    test the uncorrected report is empty, and the corrected call raises
    [KeyError] for "p". *)
Theorem covariate_report_outcome covariate_dataframe cluster_col minimum_n ignore_col :
  ((∃ rows, do_chi_square_on_covariates lib covariate_dataframe cluster_col minimum_n
              ignore_col false = Ok rows)
   ↔ ∃ cluster_series,
       cluster_series_of covariate_dataframe cluster_col = Some cluster_series
       ∧ ∀ column, column ∈ covariate_dataframe → tested cluster_col ignore_col column →
           column_answered lib cluster_series minimum_n column)
  ∧ (cluster_col ∉ covariate_dataframe.*1 →
     ∀ bonferroni,
       do_chi_square_on_covariates lib covariate_dataframe cluster_col minimum_n ignore_col
         bonferroni
       = Raise (ValueError ("cluster_col arg " +:+ cluster_col +:+
                            " is not a column in covariate_dataframe")))
  ∧ (cluster_col ∈ covariate_dataframe.*1 →
     (∀ column, column ∈ covariate_dataframe → ¬ tested cluster_col ignore_col column) →
     do_chi_square_on_covariates lib covariate_dataframe cluster_col minimum_n ignore_col false
     = Ok []
     ∧ do_chi_square_on_covariates lib covariate_dataframe cluster_col minimum_n ignore_col true
       = Raise (KeyError "p")).
Proof.
  split; [|split].
  - unfold do_chi_square_on_covariates, cluster_series_of.
    destruct (list_find _ covariate_dataframe) as [[i [name cluster_series]]|].
    + cbn [fmap option_fmap option_map snd]. split.
      * intros [rows Hrun]. exists cluster_series. split; [done|].
        destruct (covariate_loop lib cluster_series cluster_col minimum_n ignore_col []
                    covariate_dataframe) as [e|results] eqn:Hloop; [done|].
        by apply covariate_loop_rows in Hloop as (new & _ & _ & Hans).
      * intros (cs & [= <-] & Hans).
        destruct (covariate_loop_returns cluster_series cluster_col minimum_n ignore_col
                    covariate_dataframe [] Hans) as [results ->].
        by eexists.
    + split; [by intros [rows ?]|by intros (cs & ? & _)].
  - intros Hno%cluster_series_of_None bonferroni.
    unfold do_chi_square_on_covariates. unfold cluster_series_of in Hno.
    destruct (list_find _ covariate_dataframe); [done|done].
  - intros Hin Hskip.
    destruct (cluster_series_of covariate_dataframe cluster_col) as [cs|] eqn:Hcs.
    2:{ by apply cluster_series_of_None in Hcs. }
    unfold do_chi_square_on_covariates. unfold cluster_series_of in Hcs.
    destruct (list_find _ covariate_dataframe) as [[i [name cluster_series]]|]; [|done].
    assert (∀ columns results,
              (∀ column, column ∈ columns → ¬ tested cluster_col ignore_col column) →
              covariate_loop lib cluster_series cluster_col minimum_n ignore_col results columns
              = Ok results) as Hloop.
    { induction columns as [|column rest IH]; intros results Hs; [done|].
      cbn [covariate_loop]. rewrite covariate_step_skips by (apply Hs; by left).
      cbn [mbind result_bind]. apply IH. intros c Hc. apply Hs. by right. }
    rewrite Hloop by done. done.
Qed.

End Report.

Lemma covariate_report_rows_witness :
  ∃ cluster_series,
    cluster_series_of toy_frame "cluster" = Some cluster_series
    ∧ Forall2 (covariate_row toy_library cluster_series 5)
              (filter (tested "cluster" []) toy_frame) toy_raw_rows.
Proof.
  apply (covariate_report_rows toy_library toy_frame "cluster" 5 [] toy_raw_rows).
  vm_compute. reflexivity.
Defined.

Lemma covariate_report_outcome_witness :
  (∃ rows, do_chi_square_on_covariates failing_library
             [("cluster", {| dtype_is_bool := false; cells := [VInt 1; VInt 2] |});
              ("diabetes", {| dtype_is_bool := true; cells := [VBool true; VBool false] |})]
             "cluster" 5 [] false = Ok rows)
  ∧ do_chi_square_on_covariates toy_library toy_frame "cluster" 5
      ["diabetes"; "gender"; "site"] true
    = Raise (KeyError "p").
Proof.
  split.
  - apply (covariate_report_outcome failing_library).
    eexists. split; [reflexivity|].
    intros column Hin [Hne _].
    repeat (apply elem_of_cons in Hin as [->|Hin]); [done| |by apply elem_of_nil in Hin].
    split; [left; split; [reflexivity|vm_compute; reflexivity]|].
    by eexists.
  - apply (covariate_report_outcome toy_library toy_frame "cluster" 5
             ["diabetes"; "gender"; "site"]).
    + apply (bool_decide_unpack _). vm_compute. exact I.
    + intros column Hin [Hne Hno]. unfold toy_frame in Hin.
      repeat (apply elem_of_cons in Hin as [->|Hin]); [done| | | |by apply elem_of_nil in Hin];
        apply Hno; cbn [fst]; apply (bool_decide_unpack _); vm_compute; exact I.
Defined.

End CovariateReportFacts.
